(** * Jovo framework core: App, HandleRequest and the RIDR pipeline

    A shallow embedding of [App.ts] and [HandleRequest.ts].

    - [Lodash]: JavaScript data values with object identity, and the two
      lodash functions the sources call, [_merge] and [_cloneDeep].
    - [Objects]: the object-level reading of [App.configure] and of the
      [HandleRequest] constructor (what is cloned, what is shared).
    - [Pipeline]: the control flow of [App.initialize], [App.handle] and
      [App.handleError] as a state-and-error monad over an event trace.
    - [Demo]: concrete Apps and requests.
    - [PipelineMore], [ObjectsMore]: the phases of a request, sequences of
      calls, the [platforms] getters, [App.use] and [App.configure] with
      the calls into [Extensible] and [ComponentTree] left open, and the
      [App] constructor.
    - [LodashTheory], [ObjectsTheory], [PipelineTheory]: the properties.
    - [PipelineMoreTheory], [ObjectsMoreTheory]: further properties of
      [handle], [initialize], [onError], [use], [configure] and the two
      constructors. *)

From Stdlib Require Import List String ZArith Bool Arith Lia.
From Stdlib Require Import DecimalString DecimalNat Sorted.
Import ListNotations.
Local Open Scope string_scope.
Local Open Scope list_scope.
#[local] Set Warnings "-register-all".

(* ===================================================================== *)
(** ** JavaScript values with object identity *)
(* ===================================================================== *)

Module Lodash.

(** lodash is a third-party library.  Its two functions are modelled here
    on data objects, from the behaviour it documents for them:
    [cloneDeep] "recursively clones value"; in [merge], "source properties
    that resolve to undefined are skipped if a destination value exists.
    Array and plain object properties are merged recursively.  Other
    objects and value types are overridden by assignment."  Objects that
    hold themselves, and the built-in classes lodash copies by special
    rules (dates, maps, sets, buffers), are outside this model. *)

(** The sorts of object the sources and lodash distinguish: object
    literals (lodash's [isPlainObject]), arrays, instances of a class (an
    object whose tag is [Object], which [cloneDeep] rebuilds with its
    prototype), and the objects [cloneDeep] does not clone: those whose
    tag is none of its cloneable ones, as an [Error] or a [WeakMap]. *)
Inductive kind : Type :=
| KPlain
| KArray
| KInst (cls : string)
| KOpaque (tag : string).

(** A value is a primitive, a function (an opaque code pointer), or an
    object.  An object carries its identity [id]: two occurrences of the
    same [id] are two references to one JavaScript object.  Own enumerable
    properties are kept in insertion order; an array's keys are its
    indices in decimal.  JavaScript lists the integer-like keys of an
    object before its other keys, in ascending order; this reordering is
    not modelled, so the order of a property list is the order of
    JavaScript as long as the integer-like keys were added first and in
    ascending order, as in an array.  Object graphs are finite trees of
    such objects. *)
Inductive value : Type :=
| VUndef
| VNull
| VBool (b : bool)
| VNum (n : Z)
| VStr (s : string)
| VFun (f : nat)
| VObj (id : nat) (k : kind) (props : list (string * value)).

Definition props : Type := list (string * value).

Definition kind_eqb (a b : kind) : bool :=
  match a, b with
  | KPlain, KPlain => true
  | KArray, KArray => true
  | KInst c, KInst d => String.eqb c d
  | KOpaque c, KOpaque d => String.eqb c d
  | _, _ => false
  end.

(** [object[key]], [undefined] when the key is absent. *)
Fixpoint lookup (key : string) (ps : props) : option value :=
  match ps with
  | [] => None
  | (k, v) :: rest => if String.eqb k key then Some v else lookup key rest
  end.

Definition get (key : string) (ps : props) : value :=
  match lookup key ps with Some v => v | None => VUndef end.

(** [key in object] for own properties. *)
Definition has (key : string) (ps : props) : bool :=
  match lookup key ps with Some _ => true | None => false end.

(** [object[key] = v]: an existing key keeps its position, a new key is
    appended.  (A new integer-like key is appended as well; JavaScript
    would list it with the other integer-like keys, before the rest.) *)
Fixpoint set (key : string) (v : value) (ps : props) : props :=
  match ps with
  | [] => [(key, v)]
  | (k, w) :: rest =>
      if String.eqb k key then (k, v) :: rest else (k, w) :: set key v rest
  end.

Definition getv (key : string) (o : value) : value :=
  match o with VObj _ _ ps => get key ps | _ => VUndef end.

Definition setv (key : string) (v : value) (o : value) : value :=
  match o with VObj i k ps => VObj i k (set key v ps) | _ => o end.

Definition keys (ps : props) : list string := map fst ps.

(** lodash's [isObject]: objects and functions. *)
Definition isObject (v : value) : bool :=
  match v with VObj _ _ _ | VFun _ => true | _ => false end.

Definition isArray (v : value) : bool :=
  match v with VObj _ KArray _ => true | _ => false end.

Definition isPlainObject (v : value) : bool :=
  match v with VObj _ KPlain _ => true | _ => false end.

(** JavaScript truthiness, as used by [||] and [!]. *)
Definition truthy (v : value) : bool :=
  match v with
  | VUndef | VNull => false
  | VBool b => b
  | VNum n => negb (Z.eqb n 0)
  | VStr s => negb (String.eqb s EmptyString)
  | VFun _ | VObj _ _ _ => true
  end.

(** Decimal array index as a property key. *)
Definition idx (n : nat) : string := NilEmpty.string_of_uint (Nat.to_uint n).

(** The array literal [[v0, v1, ...]] as object [id]. *)
Fixpoint index_from (i : nat) (vs : list value) : props :=
  match vs with
  | [] => []
  | v :: rest => (idx i, v) :: index_from (S i) rest
  end.

Definition arr (id : nat) (vs : list value) : value :=
  VObj id KArray (index_from 0 vs).

Definition elems (ps : props) : list value := map snd ps.

(** Identities of all objects held, directly or not, by a value. *)
Fixpoint ids (v : value) : list nat :=
  match v with
  | VObj i _ ps => i :: flat_map (fun kv => ids (snd kv)) ps
  | _ => []
  end.

(** The value without its identities: what [JSON.stringify] would show. *)
Fixpoint erase (v : value) : value :=
  match v with
  | VObj _ k ps => VObj 0 k (map (fun kv => (fst kv, erase (snd kv))) ps)
  | _ => v
  end.

(** An in-place mutation of the object with identity [l]: its property
    list becomes [f] of the old one.  Every reference to [l] inside [v]
    sees the change. *)
Fixpoint poke (l : nat) (f : props -> props) (v : value) : value :=
  match v with
  | VObj i k ps =>
      let ps' := map (fun kv => (fst kv, poke l f (snd kv))) ps in
      VObj i k (if (i =? l)%nat then f ps' else ps')
  | _ => v
  end.

(* --------------------------------------------------------------------- *)
(** *** [_cloneDeep] *)

(** lodash [cloneDeep] on data objects: every plain object, array and
    class instance reached is rebuilt as a new object of the same sort
    (class instances keep their prototype), primitives are returned as
    they are.  A function and an object of an uncloneable sort are
    returned by reference when nested in an object ([object ? value :
    {}]) and replaced by a new empty object at the top.  [next] is the
    first unused identity. *)
Definition cloneEach (rec : nat -> value -> nat * value)
  : nat -> props -> nat * props :=
  fix each (next : nat) (ps : props) : nat * props :=
    match ps with
    | [] => (next, [])
    | (key, sub) :: rest =>
        let '(n1, sub') := rec next sub in
        let '(n2, rest') := each n1 rest in
        (n2, (key, sub') :: rest')
    end.

Fixpoint baseClone (next : nat) (v : value) (nested : bool) : nat * value :=
  match v with
  | VObj _ (KOpaque _) _ =>
      if nested then (next, v) else (S next, VObj next KPlain [])
  | VObj _ k ps =>
      let result := next in
      let '(n', ps') :=
        cloneEach (fun n sub => baseClone n sub true) (S next) ps in
      (n', VObj result k ps')
  | VFun _ => if nested then (next, v) else (S next, VObj next KPlain [])
  | _ => (next, v)
  end.

Definition cloneDeep (next : nat) (v : value) : nat * value :=
  baseClone next v false.

(* --------------------------------------------------------------------- *)
(** *** [_merge] *)

(** lodash [assignMergeValue]: an [undefined] never replaces an existing
    property, but creates a missing one. *)
Definition assignMergeValue (ps : props) (key : string) (v : value) : props :=
  match v with
  | VUndef => if has key ps then ps else set key VUndef ps
  | _ => set key v ps
  end.

(** lodash [isArrayLikeObject] for a non-array: an object with a valid
    [length]. *)
Definition arrayLikeLength (v : value) : option nat :=
  match v with
  | VObj _ _ ps =>
      match lookup "length" ps with
      | Some (VNum n) => if (0 <=? n)%Z then Some (Z.to_nat n) else None
      | _ => None
      end
  | _ => None
  end.

(** lodash [copyArray] of an array-like object into a new array. *)
Definition copyArray (id : nat) (v : value) (len : nat) : value :=
  arr id (map (fun i => getv (idx i) v) (seq 0 len)).

(** lodash [baseMergeDeep]: the value to store under a key whose source
    value is an object or a function.
    - A source array is merged index by index into the destination array
      (or into a copy of an array-like destination, or into a new array).
    - A source plain object is merged recursively into the destination
      object (or into a new object when the destination is not one).
    - Any other source object (function, class instance) is taken by
      reference. *)
Definition baseMergeDeep (rec : nat -> value -> value -> nat * value)
  (next : nat) (objValue srcValue : value) : nat * value :=
  match srcValue with
  | VObj _ KArray _ =>
      let '(n0, target) :=
        if isArray objValue then (next, objValue)
        else match arrayLikeLength objValue with
             | Some len => (S next, copyArray next objValue len)
             | None => (S next, VObj next KArray [])
             end in
      rec n0 target srcValue
  | VObj _ KPlain _ =>
      let '(n0, target) :=
        match objValue with
        | VObj _ _ _ => (next, objValue)
        | _ => (S next, VObj next KPlain [])
        end in
      rec n0 target srcValue
  | _ => (next, srcValue)
  end.

(** The loop of lodash [baseMerge] over the own keys of the source, in
    order; primitives are assigned directly. *)
Definition mergeEach (rec : nat -> value -> value -> nat * value)
  : nat -> props -> props -> nat * props :=
  fix each (next : nat) (ops sps : props) {struct sps} : nat * props :=
    match sps with
    | [] => (next, ops)
    | (key, srcValue) :: rest =>
        let '(n1, newValue) :=
          if isObject srcValue
          then baseMergeDeep rec next (get key ops) srcValue
          else (next, srcValue) in
        each n1 (assignMergeValue ops key newValue) rest
    end.

(** lodash [merge(object, source)]: [object] is updated in place, so the
    result keeps its identity; merging an object into itself does
    nothing. *)
Fixpoint baseMerge (next : nat) (object source : value) {struct source}
  : nat * value :=
  match object, source with
  | VObj oi ok ops, VObj si _ sps =>
      if (oi =? si)%nat then (next, object) else
      let '(n', ops') :=
        mergeEach (fun n o s => baseMerge n o s) next ops sps in
      (n', VObj oi ok ops')
  | _, _ => (next, object)
  end.

Definition merge (next : nat) (object source : value) : nat * value :=
  baseMerge next object source.

(** The object spread [{ ...v }]: a new plain object with the own
    properties of [v], the property values shared. *)
Definition spread (id : nat) (v : value) : value :=
  match v with
  | VObj _ _ ps => VObj id KPlain ps
  | _ => VObj id KPlain []
  end.

(* --------------------------------------------------------------------- *)
(** *** Vocabulary for stating properties *)

(** [ids_in P v]: every object held by [v] has an identity in [P]. *)
Definition ids_in (P : nat -> Prop) (v : value) : Prop := Forall P (ids v).

Definition props_in (P : nat -> Prop) (ps : props) : Prop :=
  Forall (fun kv => ids_in P (snd kv)) ps.

Definition between (lo hi : nat) (i : nat) : Prop := lo <= i < hi.

(** [merge_ok rec s]: merging the source [s] with [rec] uses identities
    from [next] on, and the result holds only objects of the destination,
    of the source, or new ones. *)
Definition merge_ok (rec : nat -> value -> value -> nat * value) (s : value)
  : Prop :=
  forall next d n' d',
    rec next d s = (n', d') ->
    next <= n'
    /\ forall P : nat -> Prop,
        ids_in P d -> ids_in P s -> (forall i, between next n' i -> P i) ->
        ids_in P d'.

(** [v.k1.k2...]. *)
Fixpoint path_get (v : value) (p : list string) : value :=
  match p with
  | [] => v
  | k :: rest => path_get (getv k v) rest
  end.

(** A primitive other than [undefined]. *)
Definition primitive (v : value) : Prop :=
  match v with
  | VNull | VBool _ | VNum _ | VStr _ => True
  | _ => False
  end.

Definition is_object (v : value) : Prop :=
  match v with VObj _ _ _ => True | _ => False end.

Definition is_instance (v : value) : Prop :=
  match v with VObj _ (KInst _) _ => True | _ => False end.

(** What [cloneDeep] and [merge] take over by reference wherever they
    find it in an object: a function, or an object of an uncloneable
    sort. *)
Definition by_reference (v : value) : Prop :=
  match v with
  | VFun _ | VObj _ (KOpaque _) _ => True
  | _ => False
  end.

(** Identities of the objects of an uncloneable sort held by a value, and
    of all they hold: the objects a clone of the value shares with it. *)
Fixpoint kept_ids (v : value) : list nat :=
  match v with
  | VObj _ (KOpaque _) _ => ids v
  | VObj _ _ ps => flat_map (fun kv => kept_ids (snd kv)) ps
  | _ => []
  end.

(** An object [cloneDeep] rebuilds when it is the value to clone. *)
Definition rebuilt (v : value) : Prop :=
  match v with
  | VObj _ (KOpaque _) _ => False
  | VObj _ _ _ => True
  | _ => False
  end.

(** No object of an uncloneable sort anywhere in the value. *)
Definition cloneable (v : value) : Prop := kept_ids v = [].

(** A value that a clone and a merge hand on as it is: a primitive, or
    what they take by reference. *)
Definition leaf (v : value) : Prop := primitive v \/ by_reference v.

(** Identities of the plain objects and arrays [merge] recurses into when
    it finds the value under a key of the source: the value itself if it
    is one, and those it holds, not looking into other objects. *)
Fixpoint merged_in (v : value) : list nat :=
  match v with
  | VObj i KPlain ps | VObj i KArray ps =>
      i :: flat_map (fun kv => merged_in (snd kv)) ps
  | _ => []
  end.

(** The same for the source of a [merge] itself, which is merged
    whatever its sort. *)
Definition merged_ids (s : value) : list nat :=
  match s with
  | VObj i _ ps => i :: flat_map (fun kv => merged_in (snd kv)) ps
  | _ => []
  end.

(** As in JavaScript, an object has each key once, at every depth. *)
Fixpoint unique_keys (v : value) : Prop :=
  match v with
  | VObj _ _ ps =>
      NoDup (keys ps)
      /\ (fix all (ps : props) : Prop :=
            match ps with
            | [] => True
            | kv :: rest => unique_keys (snd kv) /\ all rest
            end) ps
  | _ => True
  end.

(** [path_ok rec s]: after merging the source [s] into an object that
    shares no object with it, every primitive of [s] is found in the
    result at its path. *)
Definition path_ok (rec : nat -> value -> value -> nat * value) (s : value)
  : Prop :=
  forall p next d,
    unique_keys s ->
    ids_in (fun i => i < next) s ->
    ids_in (fun i => ~ In i (ids s)) d ->
    is_object d ->
    p <> [] ->
    primitive (path_get s p) ->
    path_get (snd (rec next d s)) p = path_get s p.

(** [leaf_ok rec s]: after merging the source [s] into an object that
    shares with it none of the objects the merge recurses into, every
    leaf of [s] is found in the result at its path. *)
Definition leaf_ok (rec : nat -> value -> value -> nat * value) (s : value)
  : Prop :=
  forall p next d,
    unique_keys s ->
    ids_in (fun i => i < next) s ->
    ids_in (fun i => ~ In i (merged_ids s)) d ->
    is_object d ->
    p <> [] ->
    leaf (path_get s p) ->
    path_get (snd (rec next d s)) p = path_get s p.

End Lodash.

(* ===================================================================== *)
(** ** Object level: what [configure] merges and what a request clones *)
(* ===================================================================== *)

Module Objects.
Import Lodash.

(** The own properties of an [App] instance.  [plugins] is the registry
    object (plugin name to [Plugin] instance). *)
Record App : Type := mkApp {
  app_id : nat;
  config : value;
  plugins : value;
  middlewareCollection : value;
  initialized : bool;
  componentTree : value;
  i18n : value;
  errorCallback : option nat
}.

(** The [App] instance as a JavaScript object, as [_cloneDeep(app)] and
    [_merge(this, ...)] see it.  [errorCallback] has no initializer and is
    an own property only once [onError] has set it. *)
Definition app_obj (a : App) : value :=
  VObj (app_id a) (KInst "App")
    ([("config", config a);
      ("plugins", plugins a);
      ("middlewareCollection", middlewareCollection a);
      ("initialized", VBool (initialized a));
      ("componentTree", componentTree a);
      ("i18n", i18n a)]
     ++ match errorCallback a with
        | Some f => [("errorCallback", VFun f)]
        | None => []
        end).

Definition set_config (c : value) (a : App) : App :=
  mkApp (app_id a) c (plugins a) (middlewareCollection a) (initialized a)
        (componentTree a) (i18n a) (errorCallback a).

Definition set_plugins (p : value) (a : App) : App :=
  mkApp (app_id a) (config a) p (middlewareCollection a) (initialized a)
        (componentTree a) (i18n a) (errorCallback a).

Definition set_componentTree (t : value) (a : App) : App :=
  mkApp (app_id a) (config a) (plugins a) (middlewareCollection a)
        (initialized a) t (i18n a) (errorCallback a).

(** Elements of [x || []] spread into an argument list. *)
Definition spread_or_empty (x : value) : list value :=
  if truthy x then
    match x with VObj _ KArray ps => elems ps | _ => [] end
  else [].

Section Configure.

(** [process.env.NODE_ENV === 'test' || process.env.JEST_WORKER_ID]. *)
Variable test_env : bool.
(** Whether a class extends [Plugin]. *)
Variable extendsPlugin : string -> bool.
(** [ComponentTree.add], which is not part of these sources. *)
Variable ComponentTree_add : value -> list value -> value.

Definition instanceofPlugin (usable : value) : bool :=
  match usable with
  | VObj _ (KInst cls) _ => extendsPlugin cls
  | _ => false
  end.

(** Modelled from the spec: what [Extensible.use], which is not part of
    these sources, does to the registry.  "owns a mapping from plugin name
    to Plugin instance (name uniqueness enforced — re-registering the same
    name replaces".  A plugin's name is the name of its class.  This is
    the registry only: the install hook, which is plugin code, and the
    folding of a plugin's stages into the owner's middleware collection
    are not modelled, so [use] below says nothing of what registering a
    plugin does besides the registry entry.  [ObjectsMore.App_use] is
    [use] with [Extensible.use] left open. *)
Definition Extensible_use (registry : value) (ps : list value) : value :=
  fold_left
    (fun reg p =>
       match p with
       | VObj _ (KInst cls) _ => setv cls p reg
       | _ => reg
       end)
    ps registry.

(** [App.use(...usables)]. *)
Definition use (a : App) (usables : list value) : App :=
  let plugins' :=
    filter
      (fun usable =>
         if negb (instanceofPlugin usable) then false
         else if test_env && truthy (getv "skipTests" (getv "config" usable))
         then false
         else true)
      usables in
  let a1 :=
    if (0 <? List.length plugins')%nat
    then set_plugins (Extensible_use (plugins a) plugins') a
    else a in
  let components := filter (fun usable => negb (instanceofPlugin usable)) usables in
  if (0 <? List.length components)%nat
  then set_componentTree (ComponentTree_add (componentTree a1) components) a1
  else a1.

(** [App.configure(config)].  [next] is the first unused identity; the
    object literal takes one. *)
Definition configure (next : nat) (a : App) (cfg : value) : nat * App :=
  let src := setv "plugins" VUndef (setv "components" VUndef (spread next cfg)) in
  let '(n1, c) := merge (S next) (config a) src in
  let usables :=
    spread_or_empty (getv "plugins" cfg)
    ++ spread_or_empty (getv "components" cfg) in
  (n1, use (set_config c a) usables).

End Configure.

(** [HandleRequest.getDefaultConfig()]: a new literal at each call. *)
Definition HandleRequest_getDefaultConfig (next : nat) : nat * value :=
  (3 + next,
   VObj next KPlain
     [("intentMap", VObj (1 + next) KPlain []);
      ("logging", VObj (2 + next) KPlain [])])%nat.

(** Modelled from the spec: the [MiddlewareCollection] constructor, which
    is not part of these sources, called without stage names.  "owns a
    mapping from stage name to Stage". *)
Definition MiddlewareCollection_empty (next : nat) : nat * value :=
  (2 + next,
   VObj next (KInst "MiddlewareCollection")
     [("middlewares", VObj (1 + next) KPlain [])])%nat.

(** [HandleRequest.initializeMiddlewareCollection()]. *)
Definition HandleRequest_initializeMiddlewareCollection (next : nat)
  : nat * value :=
  MiddlewareCollection_empty next.

(** Modelled from the spec: the [ComponentTree] constructor, which is not
    part of these sources, called without components.  "owns a mapping from
    fully-qualified path to registered Component metadata". *)
Definition ComponentTree_empty (next : nat) : nat * value :=
  (2 + next,
   VObj next (KInst "ComponentTree")
     [("tree", VObj (1 + next) KPlain [])])%nat.

(** Modelled from the spec: the constructors of [Plugin] and [Extensible],
    which are not part of these sources, run for a [HandleRequest].  The
    plugin "owns a config object produced by merging a caller-supplied
    partial config over a plugin-defined default"; the registry "owns a
    mapping from plugin name to Plugin instance" and "one Middleware
    Collection".  [this] is the identity of the object under
    construction. *)
Definition Extensible_super (next : nat) (this : nat) (cls : string)
  (cfg : value) : nat * value :=
  let '(n1, defaultConfig) := HandleRequest_getDefaultConfig next in
  let '(n2, c) := merge n1 defaultConfig cfg in
  let registry := VObj n2 KPlain [] in
  let '(n3, mc) := HandleRequest_initializeMiddlewareCollection (S n2) in
  (n3,
   VObj this (KInst cls)
     [("config", c); ("plugins", registry); ("middlewareCollection", mc)]).

(** [new HandleRequest(app, server)]:
<<
    super(_cloneDeep(app.config) as AppInitConfig);
    this.componentTree = new ComponentTree();
    _merge(this, _cloneDeep(app));
>>
    The parameter properties [app] and [server] are references to the
    arguments.  [next] is the first unused identity. *)
Definition HandleRequest_new (next : nat) (app server : value) : nat * value :=
  let this := next in
  let '(n1, cfg) := cloneDeep (S next) (getv "config" app) in
  let '(n2, self) := Extensible_super n1 this "HandleRequest" cfg in
  let self := setv "server" server (setv "app" app self) in
  let '(n3, tree) := ComponentTree_empty n2 in
  let self := setv "componentTree" tree self in
  let '(n4, copy) := cloneDeep n3 app in
  merge n4 self copy.

(* --------------------------------------------------------------------- *)
(** *** Vocabulary for stating properties *)

Definition request_config (hr : value) : value := getv "config" hr.
Definition request_plugins (hr : value) : value := getv "plugins" hr.
Definition request_middlewareCollection (hr : value) : value :=
  getv "middlewareCollection" hr.

(** The object literal [{ ...config, components: undefined, plugins:
    undefined }] that [configure] merges. *)
Definition configure_source (next : nat) (cfg : value) : value :=
  setv "plugins" VUndef (setv "components" VUndef (spread next cfg)).

Definition props_of (v : value) : props :=
  match v with VObj _ _ ps => ps | _ => [] end.

End Objects.

(* ===================================================================== *)
(** ** Control flow: [initialize], [handle], [handleError] *)
(* ===================================================================== *)

Module Pipeline.
Import Lodash.

(** [APP_MIDDLEWARES]. *)
Definition APP_MIDDLEWARES : list string :=
  [ "request.start";
    "request";
    "request.end";
    "interpretation.start";
    "interpretation.asr";
    "interpretation.nlu";
    "interpretation.end";
    "dialogue.start";
    "dialogue.router";
    "dialogue.logic";
    "dialogue.end";
    "response.start";
    "response.output";
    "response.tts";
    "response.end" ].

(** What a [throw] carries: the error [handle] raises itself, or whatever
    plugin, handler or transport code threw. *)
Inductive error : Type :=
| MatchingPlatformNotFoundError (request : value)
| Thrown (e : value).

Inductive result (A : Type) : Type :=
| Ok (a : A)
| Throw (e : error).
Arguments Ok {A} a.
Arguments Throw {A} e.

(** A stage and its handlers (function identities), in registration
    order. *)
Record Middleware : Type := mkMiddleware {
  mw_name : string;
  fns : list nat
}.

Definition MiddlewareCollection : Type := list Middleware.

(** A registered plugin: its name, and whether it is an instance of
    [Platform]. *)
Record Plugin : Type := mkPlugin {
  name : string;
  isPlatform : bool
}.

Record App : Type := mkApp {
  plugins : list Plugin;
  middlewareCollection : MiddlewareCollection;
  initialized : bool;
  errorCallback : option nat
}.

Record HandleRequest : Type := mkHandleRequest {
  hr_plugins : list Plugin;
  hr_middlewareCollection : MiddlewareCollection;
  platform : option Plugin
}.

(** The conversational state object: [$request] and [$response]. *)
Record Jovo : Type := mkJovo {
  request : value;
  response : value
}.

Record Server : Type := mkServer {
  requestObject : value
}.

(** Observable steps, in the order they happen. *)
Inductive event : Type :=
| EvI18nInitialize
| EvInitialize (plugin : string)
| EvMount (plugin : string)
| EvDismount (plugin : string)
| EvIsRequestRelated (plugin : string) (request : value)
| EvCreateJovoInstance (plugin : string)
| EvRun (stage : string) (fn : nat)
| EvSetResponse (response : value)
| EvErrorCallback (cb : nat) (e : error).

(** The code behind the interfaces the App calls into: plugin hooks,
    platform adapters, stage handlers, the transport and the error
    callback.  The two initialization hooks see the history, so that an
    attempt may fail and a later one succeed. *)
Class Behaviour : Type := {
  i18n_initialize : list event -> result unit;
  plugin_initialize : string -> list event -> result unit;
  plugin_mount : string -> HandleRequest -> result HandleRequest;
  plugin_dismount : string -> HandleRequest -> result HandleRequest;
  isRequestRelated : string -> value -> bool;
  createJovoInstance : string -> App -> HandleRequest -> Jovo;
  call_fn : nat -> HandleRequest * Jovo -> result (HandleRequest * Jovo);
  setResponse : value -> result unit;
  call_errorCallback : nat -> error -> option Jovo -> result unit
}.

(** The machine: [this] (the App) and the trace so far. *)
Record machine : Type := mkMachine {
  this : App;
  trace : list event
}.

(** Computations that read and write the machine and may throw. *)
Definition M (A : Type) : Type := machine -> machine * result A.

Definition ret {A} (a : A) : M A := fun m => (m, Ok a).

Definition throw {A} (e : error) : M A := fun m => (m, Throw e).

Definition bind {A B} (c : M A) (f : A -> M B) : M B :=
  fun m =>
    match c m with
    | (m', Ok a) => f a m'
    | (m', Throw e) => (m', Throw e)
    end.

(** [try { c } catch (e) { return h(e) }]. *)
Definition try_catch {A} (c : M A) (h : error -> M A) : M A :=
  fun m =>
    match c m with
    | (m', Ok a) => (m', Ok a)
    | (m', Throw e) => h e m'
    end.

Definition emit (e : event) : M unit :=
  fun m => (mkMachine (this m) (trace m ++ [e]), Ok tt).

Definition get_this : M App := fun m => (m, Ok (this m)).

Definition get_trace : M (list event) := fun m => (m, Ok (trace m)).

Definition set_this (a : App) : M unit :=
  fun m => (mkMachine a (trace m), Ok tt).

Definition lift {A} (r : result A) : M A := fun m => (m, r).

Declare Scope m_scope.
Delimit Scope m_scope with M.
Notation "x <- c ;; k" := (bind c (fun x => k))
  (at level 61, c at next level, right associativity) : m_scope.
Notation "c ;; k" := (bind c (fun _ => k))
  (at level 61, right associativity) : m_scope.
Local Open Scope m_scope.

(* --------------------------------------------------------------------- *)
(** *** MiddlewareCollection *)

(** Modelled from the spec: the [MiddlewareCollection] constructor, which
    is not part of these sources.  "an ordered set of named stages; each
    stage holds an ordered list of handler callbacks"; "stage set is
    exactly the catalog supplied at construction". *)
Definition MiddlewareCollection_new (names : list string) : MiddlewareCollection :=
  map (fun n => mkMiddleware n []) names.

(** Modelled from the spec: the [names] getter of [MiddlewareCollection]. *)
Definition mc_names (mc : MiddlewareCollection) : list string :=
  map mw_name mc.

(** Modelled from the spec: [MiddlewareCollection.get]. *)
Fixpoint mc_get (n : string) (mc : MiddlewareCollection) : option Middleware :=
  match mc with
  | [] => None
  | mw :: rest => if String.eqb (mw_name mw) n then Some mw else mc_get n rest
  end.

(** Modelled from the spec: the handlers registered for a stage; none for
    an unknown stage. *)
Definition mc_fns (n : string) (mc : MiddlewareCollection) : list nat :=
  match mc_get n mc with Some mw => fns mw | None => [] end.

(** Modelled from the spec: [MiddlewareCollection.use].  "registers a
    handler at an existing stage name; fails with an invalid-name error if
    the stage is not in the catalog" ([None]). *)
Fixpoint mc_use (n : string) (fn : nat) (mc : MiddlewareCollection)
  : option MiddlewareCollection :=
  match mc with
  | [] => None
  | mw :: rest =>
      if String.eqb (mw_name mw) n
      then Some (mkMiddleware (mw_name mw) (fns mw ++ [fn]) :: rest)
      else option_map (cons mw) (mc_use n fn rest)
  end.

(** Modelled from the spec: [MiddlewareCollection.remove].
    "remove(...stageNames) clears a stage's handler list". *)
Definition mc_remove (names : list string) (mc : MiddlewareCollection)
  : MiddlewareCollection :=
  map (fun mw =>
         if existsb (String.eqb (mw_name mw)) names
         then mkMiddleware (mw_name mw) []
         else mw)
      mc.

Section WithBehaviour.
Context {B : Behaviour}.

(** Modelled from the spec: the handlers of one stage in
    [MiddlewareCollection.run], "sequentially, in registration order,
    awaiting each before invoking the next"; a handler that throws ends
    the run. *)
Fixpoint run_fns (stage : string) (fs : list nat) (ctx : HandleRequest * Jovo)
  : M (HandleRequest * Jovo) :=
  match fs with
  | [] => ret ctx
  | f :: rest =>
      emit (EvRun stage f) ;;
      ctx' <- lift (call_fn f ctx) ;;
      run_fns stage rest ctx'
  end.

(** Modelled from the spec: [MiddlewareCollection.run], which is not part
    of these sources.  "executes the given ordered list of stage names;
    for each, it invokes every registered handler for that stage".  The
    collection is the request's own, so each stage runs the handlers the
    request holds for it when the stage begins. *)
Fixpoint run (names : list string) (ctx : HandleRequest * Jovo)
  : M (HandleRequest * Jovo) :=
  match names with
  | [] => ret ctx
  | n :: rest =>
      ctx' <- run_fns n (mc_fns n (hr_middlewareCollection (fst ctx))) ctx ;;
      run rest ctx'
  end.

(* --------------------------------------------------------------------- *)
(** *** Extensible *)

(** Modelled from the spec: [Extensible.initializePlugins], which is not
    part of these sources.  "calls each plugin's one-time async
    initialize() exactly once, in registration order, propagating the
    first failure and skipping the rest (fail-fast)". *)
Fixpoint initializePlugins (ps : list Plugin) : M unit :=
  match ps with
  | [] => ret tt
  | p :: rest =>
      emit (EvInitialize (name p)) ;;
      tr <- get_trace ;;
      lift (plugin_initialize (name p) tr) ;;
      initializePlugins rest
  end.

(** Modelled from the spec: [Extensible.mountPlugins], which is not part
    of these sources.  "run before ... each request ..., in registration
    order"; "per-request mount/dismount are ordered, fail-fast
    sequences". *)
Fixpoint mountPlugins (ps : list Plugin) (hr : HandleRequest) : M HandleRequest :=
  match ps with
  | [] => ret hr
  | p :: rest =>
      emit (EvMount (name p)) ;;
      hr' <- lift (plugin_mount (name p) hr) ;;
      mountPlugins rest hr'
  end.

(** Modelled from the spec: [Extensible.dismountPlugins], which is not
    part of these sources; as [mountPlugins], after the request. *)
Fixpoint dismountPlugins (ps : list Plugin) (hr : HandleRequest) : M HandleRequest :=
  match ps with
  | [] => ret hr
  | p :: rest =>
      emit (EvDismount (name p)) ;;
      hr' <- lift (plugin_dismount (name p) hr) ;;
      dismountPlugins rest hr'
  end.

(* --------------------------------------------------------------------- *)
(** *** HandleRequest *)

(** [new HandleRequest(app, server)]: the request's registry and
    middleware collection are the clones of the App's (see [Objects]); no
    platform is bound yet. *)
Definition HandleRequest_new (app : App) (server : Server) : HandleRequest :=
  mkHandleRequest (plugins app) (middlewareCollection app) None.

(** [get platforms()]. *)
Definition hr_platforms (hr : HandleRequest) : list Plugin :=
  filter isPlatform (hr_plugins hr).

Definition mount (hr : HandleRequest) : M HandleRequest :=
  mountPlugins (hr_plugins hr) hr.

Definition dismount (hr : HandleRequest) : M HandleRequest :=
  dismountPlugins (hr_plugins hr) hr.

(** [stopMiddlewareExecution()]:
    [this.middlewareCollection.remove(...this.middlewareCollection.names)]. *)
Definition stopMiddlewareExecution (hr : HandleRequest) : HandleRequest :=
  mkHandleRequest
    (hr_plugins hr)
    (mc_remove (mc_names (hr_middlewareCollection hr)) (hr_middlewareCollection hr))
    (platform hr).

Definition set_platform (p : Plugin) (hr : HandleRequest) : HandleRequest :=
  mkHandleRequest (hr_plugins hr) (hr_middlewareCollection hr) (Some p).

(* --------------------------------------------------------------------- *)
(** *** App *)

(** [get isInitialized()]. *)
Definition isInitialized (a : App) : bool := initialized a.

(** [get platforms()]. *)
Definition platforms (a : App) : list Plugin := filter isPlatform (plugins a).

(** [onError(cb)]. *)
Definition onError (cb : nat) : M unit :=
  a <- get_this ;;
  set_this (mkApp (plugins a) (middlewareCollection a) (initialized a) (Some cb)).

(** [initializeMiddlewareCollection()]. *)
Definition initializeMiddlewareCollection : MiddlewareCollection :=
  MiddlewareCollection_new APP_MIDDLEWARES.

(** [handleError(e, jovo?)]. *)
Definition handleError (e : error) (jovo : option Jovo) : M unit :=
  a <- get_this ;;
  match errorCallback a with
  | Some cb =>
      emit (EvErrorCallback cb e) ;;
      lift (call_errorCallback cb e jovo)
  | None => throw e
  end.

(** The [try] block of [initialize()]. *)
Definition initialize_body : M unit :=
  emit EvI18nInitialize ;;
  tr <- get_trace ;;
  lift (i18n_initialize tr) ;;
  a <- get_this ;;
  initializePlugins (plugins a) ;;
  a <- get_this ;;
  set_this (mkApp (plugins a) (middlewareCollection a) true (errorCallback a)).

(** [initialize()]. *)
Definition initialize : M unit :=
  a <- get_this ;;
  if initialized a then ret tt
  else try_catch initialize_body (fun e => handleError e None).

(** [Array.prototype.find] over the platforms with
    [platform.isRequestRelated(server.getRequestObject())]: stops at the
    first platform that answers [true]. *)
Fixpoint find_related (ps : list Plugin) (req : value) : M (option Plugin) :=
  match ps with
  | [] => ret None
  | p :: rest =>
      emit (EvIsRequestRelated (name p) req) ;;
      if isRequestRelated (name p) req then ret (Some p)
      else find_related rest req
  end.

(** The [try] block of [handle(server)]. *)
Definition handle_body (server : Server) : M unit :=
  a <- get_this ;;
  let handleRequest := HandleRequest_new a server in
  handleRequest <- mount handleRequest ;;
  relatedPlatform <- find_related (hr_platforms handleRequest) (requestObject server) ;;
  match relatedPlatform with
  | None => throw (MatchingPlatformNotFoundError (requestObject server))
  | Some relatedPlatform =>
      let handleRequest := set_platform relatedPlatform handleRequest in
      emit (EvCreateJovoInstance (name relatedPlatform)) ;;
      let jovo := createJovoInstance (name relatedPlatform) a handleRequest in
      ctx <- run APP_MIDDLEWARES (handleRequest, jovo) ;;
      let '(handleRequest, jovo) := ctx in
      _ <- dismount handleRequest ;;
      if negb (truthy (response jovo)) then ret tt
      else
        emit (EvSetResponse (response jovo)) ;;
        lift (setResponse (response jovo))
  end.

(** [handle(server)]. *)
Definition handle (server : Server) : M unit :=
  try_catch (handle_body server) (fun e => handleError e None).

(* --------------------------------------------------------------------- *)
(** *** Vocabulary for stating properties *)

(** [appends P c]: whatever [c] returns, it leaves the App as it is and
    only adds events satisfying [P] to the trace. *)
Definition appends {A} (P : event -> Prop) (c : M A) : Prop :=
  forall m m' r, c m = (m', r) ->
    this m' = this m /\ exists evs, trace m' = trace m ++ evs /\ Forall P evs.

Definition is_run (e : event) : Prop :=
  match e with EvRun _ _ => True | _ => False end.
Definition is_mount (e : event) : Prop :=
  match e with EvMount _ => True | _ => False end.
Definition is_dismount (e : event) : Prop :=
  match e with EvDismount _ => True | _ => False end.
Definition is_query (e : event) : Prop :=
  match e with EvIsRequestRelated _ _ => True | _ => False end.
Definition is_write (e : event) : Prop :=
  match e with EvSetResponse _ => True | _ => False end.
Definition is_callback (e : event) : Prop :=
  match e with EvErrorCallback _ _ => True | _ => False end.
Definition is_setup (e : event) : Prop :=
  match e with EvI18nInitialize | EvInitialize _ => True | _ => False end.

Definition logged (m : machine) (evs : list event) : machine :=
  mkMachine (this m) (trace m ++ evs).

Definition query (req : value) (p : Plugin) : event :=
  EvIsRequestRelated (name p) req.

(** Up to the creation of the conversational state object. *)
Definition resolve (server : Server) : M (HandleRequest * Jovo) :=
  a <- get_this ;;
  handleRequest <- mount (HandleRequest_new a server) ;;
  relatedPlatform <- find_related (hr_platforms handleRequest) (requestObject server) ;;
  match relatedPlatform with
  | None => throw (MatchingPlatformNotFoundError (requestObject server))
  | Some relatedPlatform =>
      let handleRequest := set_platform relatedPlatform handleRequest in
      emit (EvCreateJovoInstance (name relatedPlatform)) ;;
      ret (handleRequest, createJovoInstance (name relatedPlatform) a handleRequest)
  end.

(** After the pipeline: the response is written if there is one. *)
Definition respond (jovo : Jovo) : M unit :=
  if negb (truthy (response jovo)) then ret tt
  else
    emit (EvSetResponse (response jovo)) ;;
    lift (setResponse (response jovo)).

(** The request up to the end of the pipeline. *)
Definition pipeline (server : Server) : M (HandleRequest * Jovo) :=
  ctx0 <- resolve server ;; run APP_MIDDLEWARES ctx0.

Definition dismounted (ps : list Plugin) : list event :=
  map (fun p => EvDismount (name p)) ps.

Definition set_initialized (a : App) : App :=
  mkApp (plugins a) (middlewareCollection a) true (errorCallback a).

Definition setup (ps : list Plugin) : list event :=
  EvI18nInitialize :: map (fun p => EvInitialize (name p)) ps.

Definition stage_events (mc : MiddlewareCollection) (names : list string)
  : list event :=
  flat_map (fun s => map (EvRun s) (mc_fns s mc)) names.

(** A handler that returns and leaves the request's handlers as they
    are. *)
Definition plain_handler (f : nat) : Prop :=
  forall hr jovo, exists hr' jovo',
    call_fn f (hr, jovo) = Ok (hr', jovo')
    /\ hr_middlewareCollection hr' = hr_middlewareCollection hr.

End WithBehaviour.

End Pipeline.

(* ===================================================================== *)
(** ** Concrete Apps and requests *)
(* ===================================================================== *)

Module Demo.
Import Lodash.

(** *** Objects *)

(** No class extends [Plugin]; components are not recorded. *)
Definition noPlugin (cls : string) : bool := false.
Definition keepTree (tree : value) (components : list value) : value := tree.

(** An App with a logging flag, a routing table, one plugin and one
    handler; its objects are numbered 0 to 13. *)
Definition demoApp : Objects.App :=
  Objects.mkApp 0
    (VObj 1 KPlain
       [("logging", VBool true);
        ("routing",
         VObj 2 KPlain [("intentMap", VObj 3 KPlain [("A", VStr "B")])])])
    (VObj 4 KPlain
       [("RouterPlugin",
         VObj 5 (KInst "RouterPlugin") [("config", VObj 6 KPlain [])])])
    (VObj 7 (KInst "MiddlewareCollection")
       [("middlewares",
         VObj 8 KPlain
           [("request",
             VObj 9 (KInst "Middleware") [("fns", arr 10 [VFun 1])])])])
    false
    (VObj 11 (KInst "ComponentTree") [("tree", VObj 12 KPlain [])])
    (VObj 13 (KInst "I18Next") [])
    (Some 7).

Definition demoServer : value := VObj 14 (KInst "Server") [].

(** The same App after it has kept the last error in its config:
    [app.config.lastError = new Error("boom")], object 15. *)
Definition errorApp : Objects.App :=
  Objects.set_config
    (setv "lastError" (VObj 15 (KOpaque "Error") [("message", VStr "boom")])
       (Objects.config demoApp))
    demoApp.

(** An App whose config is the empty object. *)
Definition bareApp : Objects.App :=
  Objects.mkApp 0 (VObj 1 KPlain []) (VObj 2 KPlain [])
    (VObj 3 (KInst "MiddlewareCollection") []) false
    (VObj 4 (KInst "ComponentTree") []) (VObj 5 (KInst "I18Next") []) None.

Definition demo_configure : nat -> Objects.App -> value -> nat * Objects.App :=
  Objects.configure false noPlugin keepTree.

(** [{ l: [1, 2, 3] }] and [{ l: [4] }]. *)
Definition list_123 : value :=
  VObj 10 KPlain [("l", arr 11 [VNum 1; VNum 2; VNum 3])].
Definition list_4 : value :=
  VObj 20 KPlain [("l", arr 21 [VNum 4])].

(** [configure({ l: [1, 2, 3] })] then [configure({ l: [4] })]. *)
Definition configured_lists : Objects.App :=
  let s1 := demo_configure 12 bareApp list_123 in
  snd (demo_configure (22 + fst s1) (snd s1) list_4).

(** [{ a: { k: v } }]; the two literals take the identities [n] and
    [n + 1]. *)
Definition literal_a (n : nat) (k : string) (v : Z) : value :=
  VObj n KPlain [("a", VObj (S n) KPlain [(k, VNum v)])].

(** [{ routing: { intentMap: { B: "C" } }, logging: false }]. *)
Definition demoPartial : value :=
  VObj 20 KPlain
    [("routing", VObj 21 KPlain [("intentMap", VObj 22 KPlain [("B", VStr "C")])]);
     ("logging", VBool false)].

(** *** Requests *)

Import Pipeline.

Definition RouterPlugin : Plugin := mkPlugin "RouterPlugin" false.
Definition Alexa : Plugin := mkPlugin "Alexa" true.
Definition GoogleAssistant : Plugin := mkPlugin "GoogleAssistant" true.

(** Handler 1 sets the response, 2 stops the pipeline, 3 throws, any
    other does nothing. *)
Definition demo_call_fn (f : nat) (ctx : HandleRequest * Jovo)
  : result (HandleRequest * Jovo) :=
  match f with
  | 1 => Ok (fst ctx, mkJovo (request (snd ctx)) (VStr "hello"))
  | 2 => Ok (stopMiddlewareExecution (fst ctx), snd ctx)
  | 3 => Throw (Thrown (VStr "boom"))
  | _ => Ok ctx
  end.

(** A request names its platform. *)
Definition demo_isRequestRelated (plugin : string) (req : value) : bool :=
  match req with
  | VStr s => String.eqb s plugin
  | _ => false
  end.

(** Hooks, transport and callback all return. *)
Definition steady : Behaviour := {|
  i18n_initialize := fun _ => Ok tt;
  plugin_initialize := fun _ _ => Ok tt;
  plugin_mount := fun _ hr => Ok hr;
  plugin_dismount := fun _ hr => Ok hr;
  isRequestRelated := demo_isRequestRelated;
  createJovoInstance := fun _ _ _ => mkJovo (VStr "request") VUndef;
  call_fn := demo_call_fn;
  setResponse := fun _ => Ok tt;
  call_errorCallback := fun _ _ _ => Ok tt
|}.

(** As [steady], but the localization setup fails at its first attempt. *)
Definition flaky : Behaviour := {|
  i18n_initialize := fun tr =>
    if (List.length (filter (fun e => match e with EvI18nInitialize => true | _ => false end) tr) <=? 1)%nat
    then Throw (Thrown (VStr "i18n"))
    else Ok tt;
  plugin_initialize := fun _ _ => Ok tt;
  plugin_mount := fun _ hr => Ok hr;
  plugin_dismount := fun _ hr => Ok hr;
  isRequestRelated := demo_isRequestRelated;
  createJovoInstance := fun _ _ _ => mkJovo (VStr "request") VUndef;
  call_fn := demo_call_fn;
  setResponse := fun _ => Ok tt;
  call_errorCallback := fun _ _ _ => Ok tt
|}.

(** As [steady], with handlers that do nothing. *)
Definition idle : Behaviour := {|
  i18n_initialize := fun _ => Ok tt;
  plugin_initialize := fun _ _ => Ok tt;
  plugin_mount := fun _ hr => Ok hr;
  plugin_dismount := fun _ hr => Ok hr;
  isRequestRelated := demo_isRequestRelated;
  createJovoInstance := fun _ _ _ => mkJovo (VStr "request") VUndef;
  call_fn := fun _ ctx => Ok ctx;
  setResponse := fun _ => Ok tt;
  call_errorCallback := fun _ _ _ => Ok tt
|}.

Definition with_fn (stage : string) (fn : nat) (mc : MiddlewareCollection)
  : MiddlewareCollection :=
  match mc_use stage fn mc with Some mc' => mc' | None => mc end.

Definition demo_plugins : list Plugin := [RouterPlugin; Alexa; GoogleAssistant].

(** A handler on [request] and the output handler. *)
Definition answering_app : App :=
  mkApp demo_plugins
    (with_fn "response.output" 1 (with_fn "request" 0 initializeMiddlewareCollection))
    false (Some 7).

(** A handler on [request] only: no response. *)
Definition silent_app : App :=
  mkApp demo_plugins (with_fn "request" 0 initializeMiddlewareCollection)
    false (Some 7).

(** The router stops the pipeline; later stages have handlers. *)
Definition stopping_app : App :=
  mkApp demo_plugins
    (with_fn "response.output" 1
       (with_fn "dialogue.logic" 3
          (with_fn "dialogue.router" 2 initializeMiddlewareCollection)))
    false (Some 7).

(** The handler on [request] throws. *)
Definition failing_app : App :=
  mkApp demo_plugins
    (with_fn "response.output" 1 (with_fn "request" 3 initializeMiddlewareCollection))
    false (Some 7).

Definition google_request : Server := mkServer (VStr "GoogleAssistant").
Definition unknown_request : Server := mkServer (VStr "Telegram").

Definition start (a : App) : machine := mkMachine a [].

End Demo.

(* ===================================================================== *)
(** ** More of the control flow: phases of a request, sequences of calls *)
(* ===================================================================== *)

Module PipelineMore.
Import Lodash Pipeline.
Local Open Scope m_scope.

(** The phase of [handle] an event belongs to, in the order of the
    statements of its [try] block; the error callback comes last.  The
    steps of [initialize] are no phase of a request. *)
Definition phase (e : event) : nat :=
  match e with
  | EvMount _ => 0
  | EvIsRequestRelated _ _ => 1
  | EvCreateJovoInstance _ => 2
  | EvRun _ _ => 3
  | EvDismount _ => 4
  | EvSetResponse _ => 5
  | EvErrorCallback _ _ => 6
  | EvI18nInitialize | EvInitialize _ => 7
  end.

(** The steps a request may take several times: one per plugin, platform
    or handler. *)
Definition repeatable (e : event) : Prop :=
  match e with
  | EvMount _ | EvIsRequestRelated _ _ | EvRun _ _ | EvDismount _ => True
  | _ => False
  end.

(** [a] may come before [b]: an earlier phase, or the same repeatable
    one. *)
Definition before (a b : event) : Prop :=
  phase a < phase b \/ (phase a = phase b /\ repeatable a).

(** [ranked lo hi c]: the events [c] adds are in phase order, within the
    phases [lo] to [hi]. *)
Definition ranked {A} (lo hi : nat) (c : M A) : Prop :=
  forall m m' r, c m = (m', r) ->
    exists evs,
      trace m' = trace m ++ evs
      /\ StronglySorted before evs
      /\ Forall (fun e => lo <= phase e <= hi) evs.

(** A call of one of the App's methods. *)
Inductive call : Type :=
| CallInitialize
| CallHandle (server : Server)
| CallOnError (cb : nat).

Section WithBehaviour.
Context {B : Behaviour}.

Definition do_call (c : call) : M unit :=
  match c with
  | CallInitialize => initialize
  | CallHandle server => handle server
  | CallOnError cb => onError cb
  end.

(** The calls one after the other; a caller that catches what a call
    throws goes on with the next. *)
Definition do_calls (cs : list call) (m : machine) : machine :=
  fold_left (fun m c => fst (do_call c m)) cs m.

End WithBehaviour.

End PipelineMore.

(* ===================================================================== *)
(** ** More concrete behaviours *)
(* ===================================================================== *)

Module DemoMore.
Import Lodash Pipeline.

(** As [Demo.steady], but the mount hook of [Alexa] throws. *)
Definition mount_fails : Behaviour := {|
  i18n_initialize := fun _ => Ok tt;
  plugin_initialize := fun _ _ => Ok tt;
  plugin_mount := fun p hr =>
    if String.eqb p "Alexa" then Throw (Thrown (VStr "mount")) else Ok hr;
  plugin_dismount := fun _ hr => Ok hr;
  isRequestRelated := Demo.demo_isRequestRelated;
  createJovoInstance := fun _ _ _ => mkJovo (VStr "request") VUndef;
  call_fn := Demo.demo_call_fn;
  setResponse := fun _ => Ok tt;
  call_errorCallback := fun _ _ _ => Ok tt
|}.

(** As [Demo.steady], but the dismount hook of [Alexa] throws. *)
Definition dismount_fails : Behaviour := {|
  i18n_initialize := fun _ => Ok tt;
  plugin_initialize := fun _ _ => Ok tt;
  plugin_mount := fun _ hr => Ok hr;
  plugin_dismount := fun p hr =>
    if String.eqb p "Alexa" then Throw (Thrown (VStr "dismount")) else Ok hr;
  isRequestRelated := Demo.demo_isRequestRelated;
  createJovoInstance := fun _ _ _ => mkJovo (VStr "request") VUndef;
  call_fn := Demo.demo_call_fn;
  setResponse := fun _ => Ok tt;
  call_errorCallback := fun _ _ _ => Ok tt
|}.

(** As [Demo.silent_app], without an error callback. *)
Definition unguarded_app : App :=
  mkApp Demo.demo_plugins
    (Demo.with_fn "request" 0 initializeMiddlewareCollection) false None.

End DemoMore.

(* ===================================================================== *)
(** ** More of the object level: platforms, the App constructor *)
(* ===================================================================== *)

Module ObjectsMore.
Import Lodash Objects.

Section Platforms.

(** Whether a class extends [Platform]. *)
Variable extendsPlatform : string -> bool.

Definition instanceofPlatform (plugin : value) : bool :=
  match plugin with
  | VObj _ (KInst cls) _ => extendsPlatform cls
  | _ => false
  end.

(** [get platforms()], of [App] and of [HandleRequest] alike:
    [Object.values(this.plugins).filter((plugin) => plugin instanceof
    Platform)]. *)
Definition platforms (registry : value) : list value :=
  filter instanceofPlatform (elems (props_of registry)).

End Platforms.

(** [again s]: merging the source [s] a second time into the result of
    merging it changes nothing and creates no object. *)
Definition again (s : value) : Prop :=
  forall next d n1 d1,
    unique_keys s ->
    baseMerge next d s = (n1, d1) ->
    forall n2, baseMerge n2 d1 s = (n2, d1).

(** The class of an instance. *)
Definition class_of (v : value) : string :=
  match v with VObj _ (KInst cls) _ => cls | _ => EmptyString end.

(** [typeof v]. *)
Definition js_typeof (v : value) : string :=
  match v with
  | VUndef => "undefined"
  | VNull => "object"
  | VBool _ => "boolean"
  | VNum _ => "number"
  | VStr _ => "string"
  | VFun _ => "function"
  | VObj _ _ _ => "object"
  end.

Definition set_i18n (x : value) (a : App) : App :=
  mkApp (app_id a) (config a) (plugins a) (middlewareCollection a)
        (initialized a) (componentTree a) x (errorCallback a).

(** [App.getDefaultConfig()]: a new literal at each call. *)
Definition App_getDefaultConfig (next : nat) : nat * value :=
  (S next, VObj next KPlain [("logging", VBool true)]).

(** How a call ends: it returns, or it throws. *)
Inductive completion : Type := Returned | Threw.

Section Super.

(** [process.env.NODE_ENV === 'test' || process.env.JEST_WORKER_ID]. *)
Variable test_env : bool.
(** Whether a class extends [Plugin]. *)
Variable extendsPlugin : string -> bool.

(** [Extensible.use] and [ComponentTree.add], which are not part of these
    sources, left open.  Each is given the first unused identity, the
    object it is called on and its arguments; it gives back the next
    unused identity, the object as it leaves it, and whether it returned
    or threw.  [Extensible.use] runs plugin code on the App and may change
    any part of it. *)
Variable super_use : nat -> App -> list value -> nat * App * completion.
Variable ComponentTree_add : nat -> value -> list value -> nat * value * completion.

(** [App.use(...usables)], with the two calls left open:
<<
    const plugins = usables.filter((usable) => {
      if (!(usable instanceof Plugin)) { return false; }
      if ((process.env.NODE_ENV === 'test' || process.env.JEST_WORKER_ID) &&
          (usable as Plugin).config.skipTests) { return false; }
      return true;
    });
    if (plugins.length) { super.use(...plugins); }
    const components = usables.filter((usable) => !(usable instanceof Plugin));
    if (components.length) { this.componentTree.add(...components); }
    return this;
>>
    An exception of either call leaves [use] at once. *)
Definition App_use (next : nat) (a : App) (usables : list value)
  : nat * App * completion :=
  let plugins' :=
    filter
      (fun usable =>
         if negb (instanceofPlugin extendsPlugin usable) then false
         else if test_env && truthy (getv "skipTests" (getv "config" usable))
         then false
         else true)
      usables in
  let '(n1, a1, c1) :=
    if (0 <? List.length plugins')%nat
    then super_use next a plugins'
    else (next, a, Returned) in
  match c1 with
  | Threw => (n1, a1, Threw)
  | Returned =>
      let components :=
        filter (fun usable => negb (instanceofPlugin extendsPlugin usable)) usables in
      if (0 <? List.length components)%nat
      then
        let '(n2, tree, c2) := ComponentTree_add n1 (componentTree a1) components in
        (n2, set_componentTree tree a1, c2)
      else (n1, a1, Returned)
  end.

(** [App.configure(config)], with the two calls left open. *)
Definition App_configure (next : nat) (a : App) (cfg : value)
  : nat * App * completion :=
  let src := setv "plugins" VUndef (setv "components" VUndef (spread next cfg)) in
  let '(n1, c) := merge (S next) (config a) src in
  let usables :=
    spread_or_empty (getv "plugins" cfg)
    ++ spread_or_empty (getv "components" cfg) in
  App_use n1 (set_config c a) usables.

(** Whether a usable is a plugin that asks to be skipped under test. *)
Definition flagged (usable : value) : bool :=
  instanceofPlugin extendsPlugin usable
  && truthy (getv "skipTests" (getv "config" usable)).

End Super.

(** [Extensible.use] as [Objects.Extensible_use] has it, and a
    [ComponentTree.add] that returns, in the form [App_use] takes them. *)
Definition registry_use (next : nat) (a : App) (ps : list value)
  : nat * App * completion :=
  (next, set_plugins (Extensible_use (plugins a) ps) a, Returned).

Definition returning_add (add : value -> list value -> value)
  (next : nat) (tree : value) (components : list value)
  : nat * value * completion :=
  (next, add tree components, Returned).

Section Construct.

Variable test_env : bool.
Variable extendsPlugin : string -> bool.
Variable ComponentTree_add : value -> list value -> value.

(** Constructors that are not part of these sources: [new Cls(config)]
    for a plugin class [Cls], [new ComponentTree(...components)],
    [new I18Next(options)] and [new MiddlewareCollection(...names)].  Each
    takes the first unused identity and returns the next one. *)
Variable Plugin_new : string -> nat -> value -> nat * value.
Variable ComponentTree_new : nat -> list value -> nat * value.
Variable I18Next_new : nat -> value -> nat * value.
Variable MiddlewareCollection_new : nat -> list string -> nat * value.

(** [App.initializeMiddlewareCollection()]. *)
Definition App_initializeMiddlewareCollection (next : nat) : nat * value :=
  MiddlewareCollection_new next Pipeline.APP_MIDDLEWARES.

(** Modelled from the spec: the constructors of [Plugin] and [Extensible],
    which are not part of these sources, run for an [App]; as
    [Extensible_super], with the App's default config and middleware
    collection.  The field initializer [initialized = false] runs with
    them; [componentTree] and [i18n] are not assigned yet. *)
Definition App_super (next : nat) (this : nat) (cfg : value) : nat * App :=
  let '(n1, defaultConfig) := App_getDefaultConfig next in
  let '(n2, c) := merge n1 defaultConfig cfg in
  let registry := VObj n2 KPlain [] in
  let '(n3, mc) := App_initializeMiddlewareCollection (S n2) in
  (n3, mkApp this c registry mc false VUndef VUndef None).

(** [new App(config)]:
<<
    super(config ? { ...config, components: undefined } : config);
    if (typeof this.config.logging === 'boolean' && this.config.logging) {
      this.use(new BasicLogging({ request: true, response: true }));
    } else if (typeof this.config.logging === 'object') {
      this.use(new BasicLogging(this.config.logging));
    }
    this.use(new RouterPlugin(), new HandlerPlugin(), new OutputPlugin());
    this.componentTree = new ComponentTree(...(config?.components || []));
    this.i18n = new I18Next(this.config.i18n || {});
>>
    [config] is [undefined] or an object.  The calls of [use] come before
    the component tree is assigned; they are given plugins only. *)
Definition App_new (next : nat) (config : value) : nat * App :=
  let this := next in
  let '(n0, arg) :=
    if truthy config
    then (2 + next, setv "components" VUndef (spread (S next) config))%nat
    else (S next, config) in
  let '(n1, a) := App_super n0 this arg in
  let logging := getv "logging" (Objects.config a) in
  let '(n2, a) :=
    if String.eqb (js_typeof logging) "boolean" && truthy logging then
      let '(n, p) :=
        Plugin_new "BasicLogging" (S n1)
          (VObj n1 KPlain [("request", VBool true); ("response", VBool true)]) in
      (n, use test_env extendsPlugin ComponentTree_add a [p])
    else if String.eqb (js_typeof logging) "object" then
      let '(n, p) := Plugin_new "BasicLogging" n1 logging in
      (n, use test_env extendsPlugin ComponentTree_add a [p])
    else (n1, a) in
  let '(n3, router) := Plugin_new "RouterPlugin" n2 VUndef in
  let '(n4, handler) := Plugin_new "HandlerPlugin" n3 VUndef in
  let '(n5, output) := Plugin_new "OutputPlugin" n4 VUndef in
  let a := use test_env extendsPlugin ComponentTree_add a [router; handler; output] in
  let '(n6, tree) :=
    ComponentTree_new n5 (spread_or_empty (getv "components" config)) in
  let a := set_componentTree tree a in
  let options := getv "i18n" (Objects.config a) in
  let '(n7, options) :=
    if truthy options then (n6, options) else (S n6, VObj n6 KPlain []) in
  let '(n8, i18n) := I18Next_new n7 options in
  (n8, set_i18n i18n a).

(** What is assumed of the plugin constructors, which are not part of
    these sources: given a config other than [null], they return an
    instance of their class, and none of the plugins the App constructor
    makes is skipped under test.  Nothing is assumed of a constructor
    given [null]. *)
Definition plugin_classes : Prop :=
  (forall cls n c,
     c <> VNull -> exists i ps, snd (Plugin_new cls n c) = VObj i (KInst cls) ps)
  /\ (forall cls,
        In cls ["BasicLogging"; "RouterPlugin"; "HandlerPlugin"; "OutputPlugin"] ->
        extendsPlugin cls = true)
  /\ (forall cls n c,
        c <> VNull ->
        test_env
        && truthy (getv "skipTests" (getv "config" (snd (Plugin_new cls n c))))
        = false).

End Construct.

(** The constructor's own test on [this.config.logging]. *)
Definition wants_logging (l : value) : bool :=
  if String.eqb (js_typeof l) "boolean" && truthy l then true
  else String.eqb (js_typeof l) "object".

(** The argument the constructor passes to [super]. *)
Definition super_arg (next : nat) (config : value) : value :=
  if truthy config then setv "components" VUndef (spread (S next) config)
  else config.

(** Whether the value given for [logging] at construction makes the
    constructor call [new BasicLogging]: the default does, a boolean says
    so, objects do, and so does [null], whose [typeof] is ["object"];
    anything else does not. *)
Definition logging_on (v : value) : bool :=
  match v with
  | VUndef | VNull | VObj _ _ _ => true
  | VBool b => b
  | _ => false
  end.

(** The argument of [new App(config)]: nothing, or an object literal
    without the [plugins] entry. *)
Definition init_config (config : value) : Prop :=
  config = VUndef
  \/ exists i ps, config = VObj i KPlain ps /\ NoDup (keys ps)
                  /\ lookup "plugins" ps = None.

End ObjectsMore.


(* ===================================================================== *)
(** ** More concrete objects *)
(* ===================================================================== *)

Module DemoObjects.
Import Lodash Objects ObjectsMore.

Definition isPluginClass (cls : string) : bool :=
  existsb (String.eqb cls)
    ["BasicLogging"; "RouterPlugin"; "HandlerPlugin"; "OutputPlugin"; "Alexa"].

Definition isPlatformClass (cls : string) : bool := String.eqb cls "Alexa".

(** The component tree records what it is given. *)
Definition recordTree (tree : value) (components : list value) : value :=
  setv "added" (arr 90 components) tree.

(** A logging plugin that is to be skipped under test. *)
Definition quietLogging : value :=
  VObj 30 (KInst "BasicLogging")
    [("config", VObj 31 KPlain [("skipTests", VBool true)])].

(** A component declaration. *)
Definition aComponent : value := VObj 32 KPlain [("component", VFun 5)].

(** An App with a router and a platform. *)
Definition platformApp : App :=
  mkApp 0
    (VObj 1 KPlain [("logging", VBool true)])
    (VObj 2 KPlain
       [("RouterPlugin", VObj 3 (KInst "RouterPlugin") []);
        ("Alexa", VObj 4 (KInst "Alexa") [("config", VObj 5 KPlain [])])])
    (VObj 6 (KInst "MiddlewareCollection") []) false
    (VObj 7 (KInst "ComponentTree") []) (VObj 8 (KInst "I18Next") []) None.

(** A registry whose [use] throws when given more than one plugin. *)
Definition one_at_a_time (next : nat) (a : App) (ps : list value)
  : nat * App * completion :=
  match ps with
  | [p] => registry_use next a [p]
  | _ => (next, a, Threw)
  end.

Definition demo_App_use (test_env : bool)
  : nat -> App -> list value -> nat * App * completion :=
  App_use test_env isPluginClass one_at_a_time (returning_add recordTree).

Definition demo_App_configure
  : nat -> App -> value -> nat * App * completion :=
  App_configure false isPluginClass one_at_a_time (returning_add recordTree).

(** A router plugin to register. *)
Definition aRouter : value := VObj 33 (KInst "RouterPlugin") [("config", VObj 34 KPlain [])].

Definition demo_Plugin_new (cls : string) (n : nat) (c : value) : nat * value :=
  (S n, VObj n (KInst cls) [("config", c)]).

Definition demo_ComponentTree_new (n : nat) (components : list value)
  : nat * value :=
  (2 + n, VObj n (KInst "ComponentTree") [("components", arr (S n) components)])%nat.

Definition demo_I18Next_new (n : nat) (options : value) : nat * value :=
  (S n, VObj n (KInst "I18Next") [("options", options)]).

Definition demo_MiddlewareCollection_new (n : nat) (names : list string)
  : nat * value :=
  (S n, VObj n (KInst "MiddlewareCollection") []).

Definition demo_App_new : nat -> value -> nat * App :=
  App_new false isPluginClass recordTree demo_Plugin_new demo_ComponentTree_new
    demo_I18Next_new demo_MiddlewareCollection_new.

(** [{ logging: false, components: [aComponent] }]. *)
Definition quietConfig : value :=
  VObj 40 KPlain [("logging", VBool false); ("components", arr 41 [aComponent])].

End DemoObjects.

(* ===================================================================== *)
(** ** Properties of [_cloneDeep] and [_merge] *)
(* ===================================================================== *)

Module LodashTheory.
Import Lodash.

(** Induction on values that reaches the property values of an object. *)
Lemma value_ind' (P : value -> Prop) :
  P VUndef -> P VNull -> (forall b, P (VBool b)) -> (forall n, P (VNum n)) ->
  (forall s, P (VStr s)) -> (forall f, P (VFun f)) ->
  (forall i k ps, Forall (fun kv => P (snd kv)) ps -> P (VObj i k ps)) ->
  forall v, P v.
Proof.
  intros Hu Hn Hb Hz Hs Hf Ho.
  fix IH 1. intros [| |b|n|s|f|i k ps].
  - exact Hu.
  - exact Hn.
  - apply Hb.
  - apply Hz.
  - apply Hs.
  - apply Hf.
  - apply Ho. induction ps as [|[key x] ps IHps]; constructor.
    + simpl. apply IH.
    + exact IHps.
Qed.

Lemma ids_in_obj P i k ps :
  ids_in P (VObj i k ps) <-> P i /\ props_in P ps.
Proof.
  unfold ids_in, props_in. simpl. split.
  - intros H. inversion H; subst. split; [assumption|].
    apply Forall_forall. intros kv Hkv. apply Forall_forall. intros x Hx.
    rewrite Forall_forall in H3. apply H3. apply in_flat_map. eauto.
  - intros [Hi Hps]. constructor; [assumption|].
    apply Forall_forall. intros x Hx. apply in_flat_map in Hx.
    destruct Hx as [kv [Hkv Hx]]. rewrite Forall_forall in Hps.
    specialize (Hps kv Hkv). unfold ids_in in Hps.
    rewrite Forall_forall in Hps. auto.
Qed.

Lemma ids_in_weaken (P Q : nat -> Prop) v :
  (forall i, P i -> Q i) -> ids_in P v -> ids_in Q v.
Proof. intros H. apply Forall_impl. exact H. Qed.

Lemma props_in_weaken (P Q : nat -> Prop) ps :
  (forall i, P i -> Q i) -> props_in P ps -> props_in Q ps.
Proof.
  intros H. apply Forall_impl. intros kv. apply ids_in_weaken. exact H.
Qed.

Lemma ids_in_prim P v :
  match v with VObj _ _ _ => False | _ => True end -> ids_in P v.
Proof. destruct v; simpl; intros H; try contradiction; constructor. Qed.

Lemma lookup_in P key ps v :
  props_in P ps -> lookup key ps = Some v -> ids_in P v.
Proof.
  induction ps as [|[k x] ps IH]; simpl; intros H E; [discriminate|].
  inversion H; subst. destruct (String.eqb k key).
  - inversion E; subst. assumption.
  - auto.
Qed.

Lemma get_in P key ps : props_in P ps -> ids_in P (get key ps).
Proof.
  intros H. unfold get. destruct (lookup key ps) eqn:E.
  - eapply lookup_in; eauto.
  - constructor.
Qed.

Lemma getv_in P key v : ids_in P v -> ids_in P (getv key v).
Proof.
  destruct v; simpl; intros H; try constructor.
  apply get_in. apply ids_in_obj in H. tauto.
Qed.

Lemma set_in P key v ps :
  props_in P ps -> ids_in P v -> props_in P (set key v ps).
Proof.
  induction ps as [|[k x] ps IH]; simpl; intros H Hv.
  - constructor; [assumption | constructor].
  - inversion H; subst.
    destruct (String.eqb k key); constructor; simpl; auto; apply IH; assumption.
Qed.

Lemma setv_in P key v o : ids_in P o -> ids_in P v -> ids_in P (setv key v o).
Proof.
  destruct o; simpl; auto. intros H Hv. apply ids_in_obj in H.
  apply ids_in_obj. split; [tauto|]. apply set_in; tauto.
Qed.

Lemma assignMergeValue_in P ps key v :
  props_in P ps -> ids_in P v -> props_in P (assignMergeValue ps key v).
Proof.
  intros H Hv. unfold assignMergeValue.
  destruct v; try (apply set_in; assumption).
  destruct (has key ps); [assumption | apply set_in; assumption].
Qed.

Lemma index_from_in P vs : forall s,
  Forall (ids_in P) vs -> props_in P (index_from s vs).
Proof.
  induction vs as [|v vs IH]; intros s H; simpl; [constructor|].
  inversion H; subst. constructor; [assumption | apply IH; assumption].
Qed.

Lemma copyArray_in P id v len :
  P id -> ids_in P v -> ids_in P (copyArray id v len).
Proof.
  intros Hi Hv. unfold copyArray, arr. apply ids_in_obj. split; [assumption|].
  apply index_from_in. apply Forall_forall. intros x Hx.
  apply in_map_iff in Hx. destruct Hx as [i [<- _]]. apply getv_in, Hv.
Qed.

(** **** [cloneDeep] builds new objects only *)

Lemma kept_ids_obj i k ps :
  match k with KOpaque _ => False | _ => True end ->
  kept_ids (VObj i k ps) = flat_map (fun kv => kept_ids (snd kv)) ps.
Proof. destruct k; simpl; intros H; [reflexivity..|contradiction]. Qed.

Lemma kept_ids_ids v i : In i (kept_ids v) -> In i (ids v).
Proof.
  induction v as [| | | | | |j k ps IH] using value_ind'; simpl; try tauto.
  destruct k; try (intros H; exact H);
    (intros H; right; apply in_flat_map in H; destruct H as [kv [Hkv H]];
     apply in_flat_map; exists kv; split; [exact Hkv|];
     rewrite Forall_forall in IH; apply (IH kv Hkv), H).
Qed.

(** The objects of a clone are new, or objects of an uncloneable sort of
    the original, or held by one. *)
Lemma baseClone_shared v : forall next nested n' v',
  baseClone next v nested = (n', v') ->
  next <= n' /\ ids_in (fun i => between next n' i \/ In i (kept_ids v)) v'.
Proof.
  induction v as [| | | | | |i k ps IH] using value_ind';
    intros next nested n' v' H; simpl in H;
    try (inversion H; subst; split; [lia | constructor]).
  - destruct nested; inversion H; subst.
    + split; [lia | constructor].
    + split; [lia|]. apply ids_in_obj.
      split; [left; unfold between; lia | constructor].
  - assert (G : forall s n1 ps1,
               cloneEach (fun n sub => baseClone n sub true) s ps = (n1, ps1) ->
               s <= n1
               /\ props_in (fun j => between s n1 j
                                     \/ In j (flat_map (fun kv => kept_ids (snd kv)) ps))
                    ps1).
    { clear H. induction ps as [|[key sub] ps IHps]; intros s n1 ps1 E; simpl in E.
      - inversion E; subst. split; [lia | constructor].
      - inversion IH as [|? ? H1 H2]; subst. simpl in H1.
        destruct (baseClone s sub true) as [m1 sub'] eqn:E1.
        destruct (cloneEach (fun n sub => baseClone n sub true) m1 ps)
          as [m2 rest'] eqn:E2.
        inversion E; subst. clear E.
        destruct (H1 _ _ _ _ E1) as [L1 F1].
        destruct (IHps H2 _ _ _ E2) as [L2 F2].
        split; [lia|]. constructor.
        + simpl. eapply ids_in_weaken; [|exact F1]. unfold between.
          intros j [Hj|Hj]; [left; lia | right; apply in_or_app; left; exact Hj].
        + eapply props_in_weaken; [|exact F2]. unfold between. simpl.
          intros j [Hj|Hj]; [left; lia | right; apply in_or_app; right; exact Hj]. }
    assert (C : forall k',
               match k' with KOpaque _ => False | _ => True end ->
               (let '(m, ps') :=
                  cloneEach (fun n sub => baseClone n sub true) (S next) ps in
                (m, VObj next k' ps')) = (n', v') ->
               next <= n'
               /\ ids_in (fun j => between next n' j \/ In j (kept_ids (VObj i k' ps)))
                    v').
    { intros k' Hk' E.
      destruct (cloneEach (fun n sub => baseClone n sub true) (S next) ps)
        as [n1 ps1] eqn:E1.
      inversion E; subst. destruct (G _ _ _ E1) as [L F].
      split; [lia|]. rewrite (kept_ids_obj _ _ _ Hk').
      apply ids_in_obj. split; [left; unfold between; lia|].
      eapply props_in_weaken; [|exact F]. unfold between.
      intros j [Hj|Hj]; [left; lia | right; exact Hj]. }
    destruct k as [| |cls|tag]; try (apply C; [exact I | exact H]).
    destruct nested; inversion H; subst.
    + split; [lia|]. apply Forall_forall. intros j Hj. right. exact Hj.
    + split; [lia|]. apply ids_in_obj.
      split; [left; unfold between; lia | constructor].
Qed.

Lemma baseClone_le next v nested : next <= fst (baseClone next v nested).
Proof.
  destruct (baseClone next v nested) as [n' v'] eqn:E.
  apply (baseClone_shared _ _ _ _ _ E).
Qed.

Lemma shared_none (P : nat -> Prop) (l : list nat) v :
  l = [] -> ids_in (fun i => P i \/ In i l) v -> ids_in P v.
Proof.
  intros -> H. eapply ids_in_weaken; [|exact H]. simpl. tauto.
Qed.

Lemma baseClone_fresh v next nested n' v' :
  cloneable v ->
  baseClone next v nested = (n', v') ->
  next <= n' /\ ids_in (between next n') v'.
Proof.
  intros Hc H. destruct (baseClone_shared _ _ _ _ _ H) as [L F].
  split; [exact L|]. exact (shared_none _ _ _ Hc F).
Qed.

Lemma cloneDeep_shared next v n' v' :
  cloneDeep next v = (n', v') ->
  next <= n' /\ ids_in (fun i => between next n' i \/ In i (kept_ids v)) v'.
Proof. apply baseClone_shared. Qed.

Lemma cloneDeep_fresh next v n' v' :
  cloneable v ->
  cloneDeep next v = (n', v') -> next <= n' /\ ids_in (between next n') v'.
Proof. apply baseClone_fresh. Qed.

(** **** Reading back what was assigned *)

Lemma lookup_set_eq key v ps : lookup key (set key v ps) = Some v.
Proof.
  induction ps as [|[k x] ps IH]; simpl.
  - rewrite String.eqb_refl. reflexivity.
  - destruct (String.eqb k key) eqn:E; simpl; rewrite E; auto.
Qed.

Lemma lookup_set_ne key key' v ps :
  key' <> key -> lookup key (set key' v ps) = lookup key ps.
Proof.
  intros Hne. induction ps as [|[k x] ps IH]; simpl.
  - destruct (String.eqb key' key) eqn:E; [|reflexivity].
    apply String.eqb_eq in E. contradiction.
  - destruct (String.eqb k key') eqn:E; simpl.
    + apply String.eqb_eq in E. subst k.
      destruct (String.eqb key' key) eqn:E2; [|reflexivity].
      apply String.eqb_eq in E2. contradiction.
    + destruct (String.eqb k key); auto.
Qed.

Lemma get_set_eq key v ps : get key (set key v ps) = v.
Proof. unfold get. rewrite lookup_set_eq. reflexivity. Qed.

Lemma get_set_ne key key' v ps :
  key' <> key -> get key (set key' v ps) = get key ps.
Proof. intros H. unfold get. rewrite lookup_set_ne by exact H. reflexivity. Qed.

Lemma lookup_assign_ne key key' v ps :
  key' <> key -> lookup key (assignMergeValue ps key' v) = lookup key ps.
Proof.
  intros H. unfold assignMergeValue.
  destruct v; try (apply lookup_set_ne; exact H).
  destruct (has key' ps); [reflexivity | apply lookup_set_ne; exact H].
Qed.

Lemma get_assign_ne key key' v ps :
  key' <> key -> get key (assignMergeValue ps key' v) = get key ps.
Proof. intros H. unfold get. rewrite lookup_assign_ne by exact H. reflexivity. Qed.

(** An assigned value is read back, except that [undefined] leaves an
    existing property as it was. *)
Lemma get_assign_eq key v ps :
  get key (assignMergeValue ps key v)
  = match v with VUndef => get key ps | _ => v end.
Proof.
  unfold assignMergeValue. destruct v; try apply get_set_eq.
  unfold has. destruct (lookup key ps) eqn:E; [reflexivity|].
  rewrite get_set_eq. unfold get. rewrite E. reflexivity.
Qed.

(** **** [merge] adds new objects only *)

Lemma baseMergeDeep_ok rec objValue srcValue :
  merge_ok rec srcValue ->
  forall next n1 newValue,
    baseMergeDeep rec next objValue srcValue = (n1, newValue) ->
    next <= n1
    /\ forall P : nat -> Prop,
        ids_in P objValue -> ids_in P srcValue ->
        (forall i, between next n1 i -> P i) ->
        ids_in P newValue.
Proof.
  intros Hrec next n1 newValue H.
  unfold baseMergeDeep in H.
  destruct srcValue as [| | | | | |j k sps];
    try (inversion H; subst; split; [lia | intros; assumption]).
  destruct k as [| |cls|tag];
    [| |inversion H; subst; split; [lia | intros; assumption]..].
  - (* plain object *)
    destruct objValue as [| | | | | |oi ok ops];
      try (destruct (Hrec _ _ _ _ H) as [L F]; split; [lia|];
           intros P Ho Hs Hf; apply F; auto;
           [ apply ids_in_obj; split; [apply Hf; unfold between; lia | constructor]
           | intros i Hi; apply Hf; unfold between in *; lia ]).
    destruct (Hrec _ _ _ _ H) as [L F]. split; [lia|].
    intros P Ho Hs Hf. apply F; auto.
  - (* array *)
    destruct (isArray objValue) eqn:Ea.
    + destruct (Hrec _ _ _ _ H) as [L F]. split; [lia|].
      intros P Ho Hs Hf. apply F; auto.
    + destruct (arrayLikeLength objValue) as [len|].
      * destruct (Hrec _ _ _ _ H) as [L F]. split; [lia|].
        intros P Ho Hs Hf. apply F; auto.
        { apply copyArray_in; [apply Hf; unfold between; lia | exact Ho]. }
        { intros i Hi. apply Hf. unfold between in *. lia. }
      * destruct (Hrec _ _ _ _ H) as [L F]. split; [lia|].
        intros P Ho Hs Hf. apply F; auto.
        { apply ids_in_obj. split; [apply Hf; unfold between; lia | constructor]. }
        { intros i Hi. apply Hf. unfold between in *. lia. }
Qed.

Lemma mergeEach_ok rec sps :
  Forall (fun kv => merge_ok rec (snd kv)) sps ->
  forall next ops n' ops',
    mergeEach rec next ops sps = (n', ops') ->
    next <= n'
    /\ (forall P : nat -> Prop,
          props_in P ops -> props_in P sps ->
          (forall i, between next n' i -> P i) ->
          props_in P ops')
    /\ (forall (P : nat -> Prop) key,
          ids_in P (get key ops) -> props_in P sps ->
          (forall i, between next n' i -> P i) ->
          ids_in P (get key ops')).
Proof.
  induction sps as [|[key0 srcValue] sps IH]; intros Hall next ops n' ops' H;
    simpl in H.
  - inversion H; subst. split; [lia|]. split; intros; assumption.
  - inversion Hall as [|? ? Hs Hrest]; subst. simpl in Hs.
    destruct (if isObject srcValue
              then baseMergeDeep rec next (get key0 ops) srcValue
              else (next, srcValue)) as [n1 newValue] eqn:E.
    assert (G : next <= n1
                /\ forall P : nat -> Prop,
                    ids_in P (get key0 ops) -> ids_in P srcValue ->
                    (forall i, between next n1 i -> P i) ->
                    ids_in P newValue).
    { destruct (isObject srcValue).
      - eapply baseMergeDeep_ok; eauto.
      - inversion E; subst. split; [lia | intros; assumption]. }
    destruct G as [L1 F1].
    destruct (IH Hrest _ _ _ _ H) as [L2 [F2 F3]].
    split; [lia|]. split.
    + intros P Ho Hsp Hf. inversion Hsp; subst.
      apply F2; auto.
      * apply assignMergeValue_in; auto. apply F1; auto.
        { apply get_in, Ho. }
        { intros i Hi. apply Hf. unfold between in *. lia. }
      * intros i Hi. apply Hf. unfold between in *. lia.
    + intros P key Ho Hsp Hf. inversion Hsp; subst.
      apply F3; auto.
      * destruct (String.eqb key0 key) eqn:Ek.
        { apply String.eqb_eq in Ek. subst key0. rewrite get_assign_eq.
          assert (Hn : ids_in P newValue).
          { apply F1; auto. intros i Hi. apply Hf. unfold between in *. lia. }
          destruct newValue; auto. }
        { apply String.eqb_neq in Ek. rewrite get_assign_ne by exact Ek.
          exact Ho. }
      * intros i Hi. apply Hf. unfold between in *. lia.
Qed.

Lemma baseMerge_ok s : merge_ok (fun n o x => baseMerge n o x) s.
Proof.
  induction s as [| | | | | |si sk sps IH] using value_ind';
    intros next d n' d' H;
    try (destruct d; simpl in H; inversion H; subst;
         (split; [lia | intros; assumption])).
  destruct d as [| | | | | |oi ok ops]; simpl in H;
    try (inversion H; subst; split; [lia | intros; assumption]).
  destruct (oi =? si)%nat.
  { inversion H; subst. split; [lia | intros; assumption]. }
  destruct (mergeEach (fun n o x => baseMerge n o x) next ops sps)
    as [n1 ops1] eqn:E.
  inversion H; subst. clear H.
  destruct (mergeEach_ok _ _ IH _ _ _ _ E) as [L [F _]].
  split; [exact L|]. intros P Hd Hs Hf.
  apply ids_in_obj in Hd. apply ids_in_obj in Hs.
  apply ids_in_obj. split; [tauto|]. apply F; tauto.
Qed.

Lemma merge_fresh next d s n' d' :
  merge next d s = (n', d') ->
  next <= n'
  /\ forall P : nat -> Prop,
      ids_in P d -> ids_in P s -> (forall i, between next n' i -> P i) ->
      ids_in P d'.
Proof. apply (baseMerge_ok s). Qed.

(** What [merge] leaves under one key holds only objects of the old value
    under that key, of the source, or new ones: other properties of the
    destination do not leak into it. *)
Lemma merge_key_fresh next oi ok ops si sk sps n' d' (P : nat -> Prop) key :
  merge next (VObj oi ok ops) (VObj si sk sps) = (n', d') ->
  ids_in P (get key ops) -> props_in P sps ->
  (forall i, between next n' i -> P i) ->
  ids_in P (getv key d').
Proof.
  unfold merge. simpl. intros H Ho Hs Hf.
  destruct (oi =? si)%nat.
  { inversion H; subst. exact Ho. }
  destruct (mergeEach (fun n o x => baseMerge n o x) next ops sps)
    as [n1 ops1] eqn:E.
  inversion H; subst. simpl.
  assert (IH : Forall (fun kv => merge_ok (fun n o x => baseMerge n o x) (snd kv)) sps).
  { apply Forall_forall. intros kv _. apply baseMerge_ok. }
  destruct (mergeEach_ok _ _ IH _ _ _ _ E) as [_ [_ F]].
  apply F; assumption.
Qed.

(** **** A mutation elsewhere is not seen *)

Lemma poke_absent l f v : ~ In l (ids v) -> poke l f v = v.
Proof.
  induction v as [| | | | | |i k ps IH] using value_ind'; intros H;
    try reflexivity.
  simpl in *.
  assert (Hi : (i =? l)%nat = false).
  { apply Nat.eqb_neq. intros ->. apply H. left. reflexivity. }
  rewrite Hi. f_equal.
  assert (Hps : ~ In l (flat_map (fun kv => ids (snd kv)) ps)) by tauto.
  clear H Hi. induction ps as [|[key x] ps IHps]; simpl; [reflexivity|].
  inversion IH; subst. simpl in *. f_equal.
  - f_equal. apply H1. intros Hin. apply Hps. apply in_or_app. left. exact Hin.
  - apply IHps; auto. intros Hin. apply Hps. apply in_or_app. right. exact Hin.
Qed.

Lemma ids_in_absent (P : nat -> Prop) l v : ids_in P v -> ~ P l -> ~ In l (ids v).
Proof.
  intros H Hl Hin. unfold ids_in in H. rewrite Forall_forall in H. auto.
Qed.

Lemma cloneEach_keys rec ps : forall next n' ps',
  cloneEach rec next ps = (n', ps') -> keys ps' = keys ps.
Proof.
  induction ps as [|[key sub] ps IH]; intros next n' ps' H; simpl in H.
  - inversion H; subst. reflexivity.
  - destruct (rec next sub) as [n1 sub'].
    destruct (cloneEach rec n1 ps) as [n2 rest'] eqn:E.
    inversion H; subst. simpl. f_equal. eapply IH; eauto.
Qed.

Lemma lookup_absent key ps : ~ In key (keys ps) -> lookup key ps = None.
Proof.
  induction ps as [|[k x] ps IH]; simpl; intros H; [reflexivity|].
  destruct (String.eqb k key) eqn:E.
  - apply String.eqb_eq in E. tauto.
  - apply IH. tauto.
Qed.

(** Keys that the source does not have are left alone. *)
Lemma mergeEach_other rec key sps : forall next ops n' ops',
  mergeEach rec next ops sps = (n', ops') ->
  ~ In key (keys sps) ->
  lookup key ops' = lookup key ops.
Proof.
  induction sps as [|[key0 srcValue] sps IH]; intros next ops n' ops' H Hk;
    simpl in H.
  - inversion H; subst. reflexivity.
  - simpl in Hk.
    destruct (if isObject srcValue
              then baseMergeDeep rec next (get key0 ops) srcValue
              else (next, srcValue)) as [n1 newValue].
    rewrite (IH _ _ _ _ H) by tauto.
    apply lookup_assign_ne. tauto.
Qed.

Lemma baseClone_obj next i k ps nested :
  match k with KOpaque _ => False | _ => True end ->
  baseClone next (VObj i k ps) nested
  = (let '(n', ps') :=
       cloneEach (fun n sub => baseClone n sub true) (S next) ps in
     (n', VObj next k ps')).
Proof. destruct k; intros H; [reflexivity..|contradiction]. Qed.

Lemma cloneDeep_obj next i k ps n' v' :
  match k with KOpaque _ => False | _ => True end ->
  cloneDeep next (VObj i k ps) = (n', v') ->
  exists ps', v' = VObj next k ps' /\ keys ps' = keys ps.
Proof.
  intros Hk. unfold cloneDeep. rewrite (baseClone_obj _ _ _ _ _ Hk).
  destruct (cloneEach _ _ _) as [n5 ps5] eqn:E5.
  intros H. inversion H; subst. exists ps5. split; [reflexivity|].
  eapply cloneEach_keys; eauto.
Qed.

(** **** What [merge] leaves at a path *)

Lemma unique_keys_obj i k ps :
  unique_keys (VObj i k ps)
  <-> NoDup (keys ps) /\ Forall (fun kv => unique_keys (snd kv)) ps.
Proof.
  simpl. split; intros [H1 H2]; split; auto.
  - induction ps as [|kv ps IH]; constructor; [tauto|].
    apply IH; [|tauto]. simpl in H1. inversion H1; assumption.
  - clear H1. induction H2; auto.
Qed.

Lemma path_get_undef p : path_get VUndef p = VUndef.
Proof. induction p; simpl; auto. Qed.

Lemma path_get_not_object v p :
  ~ is_object v -> p <> [] -> path_get v p = VUndef.
Proof.
  intros Hv Hp. destruct p as [|k rest]; [congruence|]. simpl.
  destruct v; simpl in *; try apply path_get_undef. tauto.
Qed.

Lemma primitive_not_undef v : primitive v -> v <> VUndef.
Proof. destruct v; simpl; intros H; congruence || contradiction. Qed.

Lemma lookup_In key v ps : lookup key ps = Some v -> In (key, v) ps.
Proof.
  induction ps as [|[k x] ps IH]; simpl; intros H; [discriminate|].
  destruct (String.eqb k key) eqn:E.
  - apply String.eqb_eq in E. inversion H; subst. left. reflexivity.
  - right. auto.
Qed.

Lemma In_ids_get key ps i :
  In i (ids (get key ps)) -> In i (flat_map (fun kv => ids (snd kv)) ps).
Proof.
  unfold get. destruct (lookup key ps) as [v|] eqn:E; [|simpl; tauto].
  intros H. apply in_flat_map. exists (key, v). split; [|exact H].
  apply lookup_In, E.
Qed.

Lemma baseMergeDeep_path srcValue objValue next rest :
  path_ok (fun n o x => baseMerge n o x) srcValue ->
  unique_keys srcValue ->
  ids_in (fun i => i < next) srcValue ->
  ids_in (fun i => ~ In i (ids srcValue)) objValue ->
  primitive (path_get srcValue rest) ->
  path_get (snd (baseMergeDeep (fun n o x => baseMerge n o x) next objValue srcValue)) rest
  = path_get srcValue rest.
Proof.
  intros Hrec Hu Hlt Hdis Hprim.
  unfold baseMergeDeep.
  destruct srcValue as [| | | | | |j k sps]; try reflexivity.
  assert (Hrest : rest <> []).
  { intros ->. simpl in Hprim. contradiction. }
  assert (Hj : forall i, In i (ids (VObj j k sps)) -> i <> next).
  { intros i Hi. unfold ids_in in Hlt. rewrite Forall_forall in Hlt.
    specialize (Hlt i Hi). lia. }
  assert (Hnew : forall kk ps,
             props_in (fun i => ~ In i (ids (VObj j k sps))) ps ->
             ids_in (fun i => ~ In i (ids (VObj j k sps))) (VObj next kk ps)).
  { intros kk ps Hps. apply ids_in_obj. split; [|exact Hps].
    intros Hin. exact (Hj _ Hin eq_refl). }
  assert (Hlt' : ids_in (fun i => i < S next) (VObj j k sps)).
  { eapply ids_in_weaken; [|exact Hlt]. simpl. lia. }
  destruct k as [| |cls|tag]; [| |reflexivity..].
  - destruct objValue as [| | | | | |oi ok ops];
      try (apply Hrec; auto; [apply Hnew; constructor | exact I]).
    apply Hrec; auto. exact I.
  - destruct (isArray objValue) eqn:Ea.
    + apply Hrec; auto. destruct objValue; try discriminate. exact I.
    + destruct (arrayLikeLength objValue) as [len|].
      * apply Hrec; auto; [|exact I].
        apply copyArray_in; [|exact Hdis].
        intros Hin. exact (Hj _ Hin eq_refl).
      * apply Hrec; auto; [apply Hnew; constructor | exact I].
Qed.

Lemma mergeEach_path sps :
  Forall (fun kv => path_ok (fun n o x => baseMerge n o x) (snd kv)) sps ->
  forall next ops key v rest,
    NoDup (keys sps) ->
    Forall (fun kv => unique_keys (snd kv)) sps ->
    (forall k x, In (k, x) sps ->
       ids_in (fun i => i < next) x
       /\ ids_in (fun i => ~ In i (ids x)) (get k ops)) ->
    lookup key sps = Some v ->
    primitive (path_get v rest) ->
    path_get (get key (snd (mergeEach (fun n o x => baseMerge n o x) next ops sps))) rest
    = path_get v rest.
Proof.
  induction sps as [|[key0 srcValue] sps IH];
    intros Hall next ops key v rest Hnd Hu Hd Hl Hp; simpl in Hl; [discriminate|].
  inversion Hall as [|? ? Hrec Hall']; subst. simpl in Hrec.
  inversion Hnd as [|? ? Hnotin Hnd']; subst.
  inversion Hu as [|? ? Hu0 Hu']; subst. simpl in Hu0.
  destruct (Hd key0 srcValue (or_introl eq_refl)) as [Hlt Hdis].
  simpl.
  destruct (if isObject srcValue
            then baseMergeDeep (fun n o x => baseMerge n o x) next (get key0 ops) srcValue
            else (next, srcValue)) as [n1 newValue] eqn:E.
  assert (Hmono : next <= n1).
  { destruct (isObject srcValue).
    - eapply baseMergeDeep_ok; [apply baseMerge_ok | exact E].
    - inversion E; subst. lia. }
  destruct (String.eqb key0 key) eqn:Ek.
  - apply String.eqb_eq in Ek. subst key0. inversion Hl; subst v. clear Hl.
    assert (Hnew : path_get newValue rest = path_get srcValue rest).
    { destruct (isObject srcValue) eqn:Eo.
      - replace newValue
          with (snd (baseMergeDeep (fun n o x => baseMerge n o x) next
                       (get key ops) srcValue)) by (rewrite E; reflexivity).
        apply baseMergeDeep_path; auto.
      - inversion E; subst. reflexivity. }
    destruct (mergeEach _ n1 _ sps) as [n2 ops2] eqn:E2. simpl.
    unfold get at 1. rewrite (mergeEach_other _ key _ _ _ _ _ E2 Hnotin).
    fold (get key (assignMergeValue ops key newValue)).
    rewrite get_assign_eq.
    destruct newValue; try exact Hnew.
    rewrite path_get_undef in Hnew. rewrite <- Hnew in Hp. contradiction.
  - apply String.eqb_neq in Ek.
    apply IH; auto.
    intros k x Hin. destruct (Hd k x (or_intror Hin)) as [Hlt' Hdis'].
    split.
    + eapply ids_in_weaken; [|exact Hlt']. simpl. lia.
    + assert (Hk : key0 <> k).
      { intros ->. apply Hnotin. unfold keys. apply in_map_iff.
        exists (k, x). auto. }
      rewrite get_assign_ne by exact Hk. exact Hdis'.
Qed.

Lemma baseMerge_path s : path_ok (fun n o x => baseMerge n o x) s.
Proof.
  induction s as [| | | | | |si sk sps IH] using value_ind';
    intros p next d Hu Hlt Hdis Hd Hp Hprim;
    try (rewrite path_get_not_object in Hprim by (simpl; tauto || exact Hp);
         contradiction).
  destruct d as [| | | | | |oi ok ops]; try contradiction.
  destruct p as [|key rest]; [congruence|].
  apply unique_keys_obj in Hu. destruct Hu as [Hnd Hu].
  assert (Hne : (oi =? si)%nat = false).
  { apply Nat.eqb_neq. intros ->. unfold ids_in in Hdis. simpl in Hdis.
    inversion Hdis; subst. tauto. }
  simpl. rewrite Hne.
  destruct (mergeEach _ next ops sps) as [n1 ops1] eqn:E. simpl.
  unfold get at 2. destruct (lookup key sps) as [v|] eqn:El.
  - replace ops1 with (snd (mergeEach (fun n o x => baseMerge n o x) next ops sps))
      by (rewrite E; reflexivity).
    simpl in Hprim. unfold get in Hprim. rewrite El in Hprim.
    apply mergeEach_path; auto.
    intros k x Hin. split.
    + apply ids_in_obj in Hlt. destruct Hlt as [_ Hlt].
      unfold props_in in Hlt. rewrite Forall_forall in Hlt.
      exact (Hlt (k, x) Hin).
    + apply Forall_forall. intros i Hi Hix.
      unfold ids_in in Hdis. rewrite Forall_forall in Hdis.
      apply (Hdis i).
      * simpl. right. eapply In_ids_get; eauto.
      * simpl. right. apply in_flat_map. exists (k, x). auto.
  - simpl in Hprim. unfold get in Hprim. rewrite El in Hprim.
    rewrite path_get_undef in Hprim. contradiction.
Qed.

(** **** What [merge] leaves at a path, for sources that share objects *)

Lemma leaf_not_undef v : leaf v -> v <> VUndef.
Proof. intros [H|H]; destruct v; simpl in H; congruence || contradiction. Qed.

Lemma merged_in_ids v i : In i (merged_in v) -> In i (ids v).
Proof.
  induction v as [| | | | | |j k ps IH] using value_ind'; simpl; try tauto.
  destruct k; simpl; try tauto;
    (intros [H|H]; [left; exact H|]; right;
     apply in_flat_map in H; destruct H as [kv [Hkv H]];
     apply in_flat_map; exists kv; split; [exact Hkv|];
     rewrite Forall_forall in IH; apply (IH kv Hkv), H).
Qed.

Lemma baseMergeDeep_leaf srcValue objValue next rest :
  leaf_ok (fun n o x => baseMerge n o x) srcValue ->
  unique_keys srcValue ->
  ids_in (fun i => i < next) srcValue ->
  ids_in (fun i => ~ In i (merged_in srcValue)) objValue ->
  leaf (path_get srcValue rest) ->
  path_get (snd (baseMergeDeep (fun n o x => baseMerge n o x) next objValue srcValue)) rest
  = path_get srcValue rest.
Proof.
  intros Hrec Hu Hlt Hdis Hleaf.
  unfold baseMergeDeep.
  destruct srcValue as [| | | | | |j k sps]; try reflexivity.
  destruct k as [| |cls|tag]; [| |reflexivity..].
  - (* plain object *)
    assert (Hrest : rest <> []).
    { intros ->. simpl in Hleaf. destruct Hleaf as [H|H]; contradiction. }
    assert (Hj : next <> j).
    { apply ids_in_obj in Hlt. destruct Hlt as [Hlt _]. lia. }
    assert (Hnext : ~ In next (merged_ids (VObj j KPlain sps))).
    { intros Hin. apply (merged_in_ids (VObj j KPlain sps)) in Hin.
      unfold ids_in in Hlt. rewrite Forall_forall in Hlt.
      specialize (Hlt _ Hin). lia. }
    assert (Hlt' : ids_in (fun i => i < S next) (VObj j KPlain sps)).
    { eapply ids_in_weaken; [|exact Hlt]. simpl. lia. }
    destruct objValue as [| | | | | |oi ok ops];
      try (apply Hrec; auto;
           [apply ids_in_obj; split; [exact Hnext | constructor] | exact I]).
    apply Hrec; auto. exact I.
  - (* array *)
    assert (Hrest : rest <> []).
    { intros ->. simpl in Hleaf. destruct Hleaf as [H|H]; contradiction. }
    assert (Hnext : ~ In next (merged_ids (VObj j KArray sps))).
    { intros Hin. apply (merged_in_ids (VObj j KArray sps)) in Hin.
      unfold ids_in in Hlt. rewrite Forall_forall in Hlt.
      specialize (Hlt _ Hin). lia. }
    assert (Hlt' : ids_in (fun i => i < S next) (VObj j KArray sps)).
    { eapply ids_in_weaken; [|exact Hlt]. simpl. lia. }
    destruct (isArray objValue) eqn:Ea.
    + apply Hrec; auto. destruct objValue; try discriminate. exact I.
    + destruct (arrayLikeLength objValue) as [len|].
      * apply Hrec; auto; [|exact I].
        apply copyArray_in; [exact Hnext | exact Hdis].
      * apply Hrec; auto;
          [apply ids_in_obj; split; [exact Hnext | constructor] | exact I].
Qed.

Lemma mergeEach_leaf sps :
  Forall (fun kv => leaf_ok (fun n o x => baseMerge n o x) (snd kv)) sps ->
  forall next ops key v rest,
    NoDup (keys sps) ->
    Forall (fun kv => unique_keys (snd kv)) sps ->
    (forall k x, In (k, x) sps ->
       ids_in (fun i => i < next) x
       /\ ids_in (fun i => ~ In i (merged_in x)) (get k ops)) ->
    lookup key sps = Some v ->
    leaf (path_get v rest) ->
    path_get (get key (snd (mergeEach (fun n o x => baseMerge n o x) next ops sps))) rest
    = path_get v rest.
Proof.
  induction sps as [|[key0 srcValue] sps IH];
    intros Hall next ops key v rest Hnd Hu Hd Hl Hp; simpl in Hl; [discriminate|].
  inversion Hall as [|? ? Hrec Hall']; subst. simpl in Hrec.
  inversion Hnd as [|? ? Hnotin Hnd']; subst.
  inversion Hu as [|? ? Hu0 Hu']; subst. simpl in Hu0.
  destruct (Hd key0 srcValue (or_introl eq_refl)) as [Hlt Hdis].
  simpl.
  destruct (if isObject srcValue
            then baseMergeDeep (fun n o x => baseMerge n o x) next (get key0 ops) srcValue
            else (next, srcValue)) as [n1 newValue] eqn:E.
  assert (Hmono : next <= n1).
  { destruct (isObject srcValue).
    - eapply baseMergeDeep_ok; [apply baseMerge_ok | exact E].
    - inversion E; subst. lia. }
  destruct (String.eqb key0 key) eqn:Ek.
  - apply String.eqb_eq in Ek. subst key0. inversion Hl; subst v. clear Hl.
    assert (Hnew : path_get newValue rest = path_get srcValue rest).
    { destruct (isObject srcValue) eqn:Eo.
      - replace newValue
          with (snd (baseMergeDeep (fun n o x => baseMerge n o x) next
                       (get key ops) srcValue)) by (rewrite E; reflexivity).
        apply baseMergeDeep_leaf; auto.
      - inversion E; subst. reflexivity. }
    destruct (mergeEach _ n1 _ sps) as [n2 ops2] eqn:E2. simpl.
    unfold get at 1. rewrite (mergeEach_other _ key _ _ _ _ _ E2 Hnotin).
    fold (get key (assignMergeValue ops key newValue)).
    rewrite get_assign_eq.
    destruct newValue; try exact Hnew.
    rewrite path_get_undef in Hnew. rewrite <- Hnew in Hp.
    exfalso. exact (leaf_not_undef _ Hp eq_refl).
  - apply String.eqb_neq in Ek.
    apply IH; auto.
    intros k x Hin. destruct (Hd k x (or_intror Hin)) as [Hlt' Hdis'].
    split.
    + eapply ids_in_weaken; [|exact Hlt']. simpl. lia.
    + assert (Hk : key0 <> k).
      { intros ->. apply Hnotin. unfold keys. apply in_map_iff.
        exists (k, x). auto. }
      rewrite get_assign_ne by exact Hk. exact Hdis'.
Qed.

Lemma baseMerge_leaf s : leaf_ok (fun n o x => baseMerge n o x) s.
Proof.
  induction s as [| | | | | |si sk sps IH] using value_ind';
    intros p next d Hu Hlt Hdis Hd Hp Hleaf;
    try (rewrite path_get_not_object in Hleaf by (simpl; tauto || exact Hp);
         exfalso; exact (leaf_not_undef _ Hleaf eq_refl)).
  destruct d as [| | | | | |oi ok ops]; try contradiction.
  destruct p as [|key rest]; [congruence|].
  apply unique_keys_obj in Hu. destruct Hu as [Hnd Hu].
  assert (Hne : (oi =? si)%nat = false).
  { apply Nat.eqb_neq. intros ->. unfold ids_in in Hdis. simpl in Hdis.
    inversion Hdis; subst. tauto. }
  simpl. rewrite Hne.
  destruct (mergeEach _ next ops sps) as [n1 ops1] eqn:E. simpl.
  unfold get at 2. destruct (lookup key sps) as [v|] eqn:El.
  - replace ops1 with (snd (mergeEach (fun n o x => baseMerge n o x) next ops sps))
      by (rewrite E; reflexivity).
    simpl in Hleaf. unfold get in Hleaf. rewrite El in Hleaf.
    apply mergeEach_leaf; auto.
    intros k x Hin. split.
    + apply ids_in_obj in Hlt. destruct Hlt as [_ Hlt].
      unfold props_in in Hlt. rewrite Forall_forall in Hlt.
      exact (Hlt (k, x) Hin).
    + apply Forall_forall. intros i Hi Hix.
      unfold ids_in in Hdis. rewrite Forall_forall in Hdis.
      apply (Hdis i).
      * simpl. right. eapply In_ids_get; eauto.
      * simpl. right. apply in_flat_map. exists (k, x). auto.
  - simpl in Hleaf. unfold get in Hleaf. rewrite El in Hleaf.
    rewrite path_get_undef in Hleaf.
    exfalso. exact (leaf_not_undef _ Hleaf eq_refl).
Qed.

(** **** A clone has the content of its original *)

Lemma lookup_map_snd (g : value -> value) key ps :
  lookup key (map (fun kv => (fst kv, g (snd kv))) ps)
  = option_map g (lookup key ps).
Proof.
  induction ps as [|[k x] ps IH]; simpl; [reflexivity|].
  destruct (String.eqb k key); [reflexivity | exact IH].
Qed.

Lemma getv_erase key v : erase (getv key v) = getv key (erase v).
Proof.
  destruct v; try reflexivity. simpl. unfold get.
  rewrite lookup_map_snd. destruct (lookup key props0); reflexivity.
Qed.

Lemma path_get_erase p : forall v, erase (path_get v p) = path_get (erase v) p.
Proof.
  induction p as [|k rest IH]; intros v; simpl; [reflexivity|].
  rewrite IH, getv_erase. reflexivity.
Qed.

Lemma erase_primitive v w : erase v = erase w -> primitive v -> w = v.
Proof.
  destruct v; simpl; intros H Hp; try contradiction;
    destruct w; simpl in H; congruence.
Qed.

Lemma cloneEach_erase ps : forall next n' ps',
  Forall (fun kv => forall next n' v',
            baseClone next (snd kv) true = (n', v') -> erase v' = erase (snd kv)) ps ->
  cloneEach (fun n sub => baseClone n sub true) next ps = (n', ps') ->
  map (fun kv => (fst kv, erase (snd kv))) ps'
  = map (fun kv => (fst kv, erase (snd kv))) ps.
Proof.
  induction ps as [|[key sub] ps IHps]; intros s n' ps1 IH E; simpl in E.
  - inversion E; subst. reflexivity.
  - inversion IH as [|? ? H1 H2]; subst. simpl in H1.
    destruct (baseClone s sub true) as [n1 sub'] eqn:E1.
    destruct (cloneEach (fun n sub => baseClone n sub true) n1 ps)
      as [n2 rest'] eqn:E2.
    inversion E; subst. simpl. f_equal.
    + f_equal. eapply H1; eauto.
    + eapply IHps; eauto.
Qed.

Lemma baseClone_erase v : forall next n' v',
  baseClone next v true = (n', v') -> erase v' = erase v.
Proof.
  induction v as [| | | | | |i k ps IH] using value_ind';
    intros next n' v' H; simpl in H; try (inversion H; subst; reflexivity).
  destruct k as [| |cls|tag]; try (inversion H; subst; reflexivity);
    (destruct (cloneEach (fun n sub => baseClone n sub true) (S next) ps)
       as [n1 ps1] eqn:E;
     inversion H; subst; clear H; simpl; f_equal;
     eapply cloneEach_erase; eauto).
Qed.

Lemma cloneDeep_erase next v n' v' :
  rebuilt v -> cloneDeep next v = (n', v') -> erase v' = erase v.
Proof.
  intros Hv H. destruct v as [| | | | | |i k ps]; try contradiction.
  unfold cloneDeep in H.
  assert (E : baseClone next (VObj i k ps) false = baseClone next (VObj i k ps) true).
  { destruct k; try reflexivity. contradiction. }
  rewrite E in H. eapply baseClone_erase; eauto.
Qed.

(** Whether keys are unique does not depend on identities. *)
Lemma unique_keys_erase v : unique_keys (erase v) <-> unique_keys v.
Proof.
  induction v as [| | | | | |i k ps IH] using value_ind'; try tauto.
  change (erase (VObj i k ps))
    with (VObj 0 k (map (fun kv => (fst kv, erase (snd kv))) ps)).
  rewrite !unique_keys_obj.
  assert (K : keys (map (fun kv => (fst kv, erase (snd kv))) ps) = keys ps).
  { unfold keys. rewrite map_map. reflexivity. }
  rewrite K. rewrite Forall_map. simpl.
  split; intros [H1 H2]; split; auto.
  - rewrite Forall_forall in *. intros kv Hkv. apply (IH kv Hkv), H2, Hkv.
  - rewrite Forall_forall in *. intros kv Hkv. apply (IH kv Hkv), H2, Hkv.
Qed.

Lemma cloneDeep_unique_keys next v n' v' :
  rebuilt v -> cloneDeep next v = (n', v') -> unique_keys v -> unique_keys v'.
Proof.
  intros Hv H Hu. apply unique_keys_erase.
  rewrite (cloneDeep_erase _ _ _ _ Hv H). apply unique_keys_erase, Hu.
Qed.

(** Every primitive of the original is in the clone, at the same path. *)
Lemma cloneDeep_path next v n' v' p :
  rebuilt v -> cloneDeep next v = (n', v') ->
  primitive (path_get v p) -> path_get v' p = path_get v p.
Proof.
  intros Hv H Hp. apply erase_primitive; [|exact Hp].
  rewrite !path_get_erase. f_equal. symmetry.
  eapply cloneDeep_erase; eauto.
Qed.

(** **** Keys under assignment *)

Lemma keys_set key v ps :
  keys (set key v ps) = if has key ps then keys ps else keys ps ++ [key].
Proof.
  unfold has. induction ps as [|[k x] ps IH]; simpl; [reflexivity|].
  destruct (String.eqb k key) eqn:E; simpl; [reflexivity|].
  rewrite IH. destruct (lookup key ps); reflexivity.
Qed.

Lemma has_false_notin key ps : has key ps = false -> ~ In key (keys ps).
Proof.
  unfold has. induction ps as [|[k x] ps IH]; simpl; intros H; [tauto|].
  destruct (String.eqb k key) eqn:E; [discriminate|].
  apply String.eqb_neq in E. intros [Hk|Hk]; [contradiction|]. exact (IH H Hk).
Qed.

Lemma NoDup_keys_set key v ps : NoDup (keys ps) -> NoDup (keys (set key v ps)).
Proof.
  intros H. rewrite keys_set. destruct (has key ps) eqn:E; [exact H|].
  apply NoDup_app; [exact H | repeat constructor; simpl; tauto |].
  intros x Hx [<-|[]]. exact (has_false_notin _ _ E Hx).
Qed.

Lemma Forall_set (Q : value -> Prop) key v ps :
  Forall (fun kv => Q (snd kv)) ps -> Q v ->
  Forall (fun kv => Q (snd kv)) (set key v ps).
Proof.
  induction ps as [|[k x] ps IH]; simpl; intros H Hv.
  - constructor; [exact Hv | constructor].
  - inversion H; subst.
    destruct (String.eqb k key); constructor; simpl; auto.
Qed.

(** **** The value a key ends with *)

(** What [merge] stores under a key of the source: the value computed from
    the old value under that key alone. *)
Lemma mergeEach_at rec sps : forall next ops n' ops' key srcValue,
  mergeEach rec next ops sps = (n', ops') ->
  NoDup (keys sps) ->
  lookup key sps = Some srcValue ->
  exists n,
    get key ops'
    = match snd (if isObject srcValue
                 then baseMergeDeep rec n (get key ops) srcValue
                 else (n, srcValue)) with
      | VUndef => get key ops
      | newValue => newValue
      end.
Proof.
  induction sps as [|[key0 v0] sps IH];
    intros next ops n' ops' key srcValue H Hnd Hl; simpl in H, Hl; [discriminate|].
  inversion Hnd as [|? ? Hnotin Hnd']; subst.
  destruct (if isObject v0
            then baseMergeDeep rec next (get key0 ops) v0
            else (next, v0)) as [n1 newValue] eqn:E.
  destruct (String.eqb key0 key) eqn:Ek.
  - apply String.eqb_eq in Ek. subst key0. inversion Hl; subst v0.
    exists next. rewrite E. simpl.
    unfold get at 1. rewrite (mergeEach_other _ key _ _ _ _ _ H Hnotin).
    fold (get key (assignMergeValue ops key newValue)).
    rewrite get_assign_eq. destruct newValue; reflexivity.
  - apply String.eqb_neq in Ek.
    destruct (IH _ _ _ _ _ _ H Hnd' Hl) as [n Hn].
    exists n. rewrite Hn. rewrite get_assign_ne by exact Ek. reflexivity.
Qed.

(** **** Arrays are merged index by index *)

Lemma idx_inj n m : idx n = idx m -> n = m.
Proof.
  unfold idx. intros H.
  assert (E : Some (Nat.to_uint n) = Some (Nat.to_uint m)).
  { rewrite <- !NilEmpty.usu. rewrite H. reflexivity. }
  inversion E as [E']. rewrite <- (Unsigned.of_to n), <- (Unsigned.of_to m).
  rewrite E'. reflexivity.
Qed.

Lemma set_index_from_hit y x post : forall pre s,
  set (idx (s + List.length pre)) y (index_from s (pre ++ x :: post))
  = index_from s (pre ++ y :: post).
Proof.
  induction pre as [|a pre IH]; intros s; simpl.
  - rewrite Nat.add_0_r, String.eqb_refl. reflexivity.
  - destruct (String.eqb (idx s) (idx (s + S (List.length pre)))) eqn:E.
    + apply String.eqb_eq, idx_inj in E. lia.
    + f_equal. rewrite <- Nat.add_succ_comm. apply IH.
Qed.

Lemma set_index_from_end y : forall pre s,
  set (idx (s + List.length pre)) y (index_from s pre)
  = index_from s (pre ++ [y]).
Proof.
  induction pre as [|a pre IH]; intros s; simpl.
  - rewrite Nat.add_0_r. reflexivity.
  - destruct (String.eqb (idx s) (idx (s + S (List.length pre)))) eqn:E.
    + apply String.eqb_eq, idx_inj in E. lia.
    + f_equal. rewrite <- Nat.add_succ_comm. apply IH.
Qed.

Lemma mergeEach_index rec ys : forall pre xs next,
  Forall primitive ys ->
  mergeEach rec next (index_from 0 (pre ++ xs)) (index_from (List.length pre) ys)
  = (next, index_from 0 (pre ++ ys ++ skipn (List.length ys) xs)).
Proof.
  induction ys as [|y ys IH]; intros pre xs next Hp; simpl.
  - reflexivity.
  - inversion Hp as [|? ? Hy Hys]; subst.
    assert (Ho : isObject y = false) by (destruct y; simpl in *; tauto).
    rewrite Ho.
    assert (Ha : forall ops, assignMergeValue ops (idx (List.length pre)) y
                             = set (idx (List.length pre)) y ops).
    { intros ops. destruct y; simpl in *; tauto. }
    rewrite Ha.
    destruct xs as [|x xs].
    + rewrite app_nil_r.
      pose proof (set_index_from_end y pre 0) as Es. simpl in Es. rewrite Es.
      specialize (IH (pre ++ [y]) [] next Hys).
      rewrite app_nil_r in IH. rewrite length_app in IH. simpl in IH.
      rewrite Nat.add_1_r in IH. rewrite IH.
      rewrite !skipn_nil. rewrite <- app_assoc. reflexivity.
    + pose proof (set_index_from_hit y x xs pre 0) as Es. simpl in Es. rewrite Es.
      specialize (IH (pre ++ [y]) xs next Hys).
      rewrite length_app in IH. simpl in IH. rewrite Nat.add_1_r in IH.
      rewrite <- app_assoc in IH. simpl in IH. rewrite IH.
      rewrite <- app_assoc. reflexivity.
Qed.

(** Merging the array [[y0, ...]] of primitives into the array
    [[x0, ...]] overwrites the first elements and keeps the others. *)
Lemma merge_arrays next i j xs ys :
  i <> j -> Forall primitive ys ->
  merge next (arr i xs) (arr j ys)
  = (next, arr i (ys ++ skipn (List.length ys) xs)).
Proof.
  intros Hij Hp. unfold merge, arr. simpl.
  apply Nat.eqb_neq in Hij. rewrite Hij.
  rewrite (mergeEach_index _ ys [] xs next Hp). reflexivity.
Qed.

Lemma baseMergeDeep_arrays next i j xs ys :
  i <> j -> Forall primitive ys ->
  baseMergeDeep (fun n o x => baseMerge n o x) next (arr i xs) (arr j ys)
  = (next, arr i (ys ++ skipn (List.length ys) xs)).
Proof.
  intros Hij Hp. unfold baseMergeDeep. cbv delta [arr isArray] beta iota.
  exact (merge_arrays next i j xs ys Hij Hp).
Qed.

(** [merge] keeps the identity and the sort of its destination. *)
Lemma baseMerge_keeps_object next i k ps s :
  exists ps', snd (baseMerge next (VObj i k ps) s) = VObj i k ps'.
Proof.
  destruct s as [| | | | | |si sk sps]; try (eexists; reflexivity).
  simpl. destruct (i =? si)%nat; [eexists; reflexivity|].
  destruct (mergeEach _ _ _ _). eexists. reflexivity.
Qed.

(** **** A registry of class instances *)

Lemma set_absent key v ps :
  ~ In key (keys ps) -> set key v ps = ps ++ [(key, v)].
Proof.
  induction ps as [|[k x] ps IH]; simpl; intros H; [reflexivity|].
  destruct (String.eqb k key) eqn:E.
  - apply String.eqb_eq in E. tauto.
  - f_equal. apply IH. tauto.
Qed.

(** Class instances are taken by reference, in order. *)
Lemma mergeEach_instances rec sps : forall pre next,
  NoDup (keys (pre ++ sps)) ->
  Forall (fun kv => is_instance (snd kv)) sps ->
  mergeEach rec next pre sps = (next, pre ++ sps).
Proof.
  induction sps as [|[key v] sps IH]; intros pre next Hnd Hi; simpl.
  - rewrite app_nil_r. reflexivity.
  - inversion Hi as [|? ? Hv Hrest]; subst. simpl in Hv.
    destruct v as [| | | | | |i k ps]; try contradiction.
    destruct k as [| |cls|tag]; try contradiction. simpl.
    rewrite set_absent.
    + rewrite IH; [rewrite <- app_assoc; reflexivity | | exact Hrest].
      rewrite <- app_assoc. exact Hnd.
    + unfold keys in Hnd. rewrite map_app in Hnd. simpl in Hnd.
      apply NoDup_remove_2 in Hnd. intros Hin. apply Hnd.
      apply in_or_app. left. exact Hin.
Qed.

Lemma cloneEach_lookup rec key ps : forall next n' ps' v,
  (forall n x, n <= fst (rec n x)) ->
  cloneEach rec next ps = (n', ps') ->
  lookup key ps = Some v ->
  exists m, next <= m /\ lookup key ps' = Some (snd (rec m v)).
Proof.
  induction ps as [|[k x] ps IH]; intros next n' ps' v Hmono H Hl; simpl in H, Hl;
    [discriminate|].
  destruct (rec next x) as [n1 x'] eqn:E1.
  destruct (cloneEach rec n1 ps) as [n2 rest'] eqn:E2.
  inversion H; subst. simpl.
  destruct (String.eqb k key).
  - inversion Hl; subst. exists next. rewrite E1. split; [lia | reflexivity].
  - destruct (IH _ _ _ _ Hmono E2 Hl) as [m [Lm Em]].
    exists m. split; [|exact Em].
    pose proof (Hmono next x) as L. rewrite E1 in L. simpl in L. lia.
Qed.

Lemma cloneEach_instances ps : forall next n' ps',
  cloneEach (fun n sub => baseClone n sub true) next ps = (n', ps') ->
  Forall (fun kv => is_instance (snd kv)) ps ->
  Forall (fun kv => is_instance (snd kv)) ps'.
Proof.
  induction ps as [|[k x] ps IH]; intros next n' ps' H Hi; simpl in H.
  - inversion H; subst. constructor.
  - destruct (baseClone next x true) as [n1 x'] eqn:E1.
    destruct (cloneEach _ n1 ps) as [n2 rest'] eqn:E2.
    inversion H; subst. inversion Hi; subst. constructor; [|eapply IH; eauto].
    simpl in *. destruct x as [| | | | | |i kk qs]; try contradiction.
    destruct kk; try contradiction.
    simpl in E1. destruct (cloneEach _ _ qs). inversion E1; subst. exact I.
Qed.

Lemma baseClone_mono n x : n <= fst (baseClone n x true).
Proof.
  destruct (baseClone n x true) as [n' x'] eqn:E.
  destruct (baseClone_shared _ _ _ _ _ E) as [L _]. exact L.
Qed.

Lemma cloneDeep_obj_each next i k ps n' v' :
  match k with KOpaque _ => False | _ => True end ->
  cloneDeep next (VObj i k ps) = (n', v') ->
  exists ps', v' = VObj next k ps'
    /\ cloneEach (fun n sub => baseClone n sub true) (S next) ps = (n', ps').
Proof.
  intros Hk. unfold cloneDeep. rewrite (baseClone_obj _ _ _ _ _ Hk).
  destruct (cloneEach _ _ _) as [n5 ps5] eqn:E5.
  intros H. inversion H; subst. exists ps5. auto.
Qed.

(** What is taken over by reference is in the clone at the same path, as
    every primitive is. *)
Lemma baseClone_path p : forall v next n' v',
  baseClone next v true = (n', v') ->
  primitive (path_get v p) \/ by_reference (path_get v p) ->
  path_get v' p = path_get v p.
Proof.
  induction p as [|key rest IH]; intros v next n' v' H Hleaf.
  - simpl in *. destruct v as [| | | | | |i k ps]; simpl in H;
      try (inversion H; subst; reflexivity);
      destruct Hleaf as [Hl|Hl]; try contradiction.
    destruct k; try contradiction. inversion H; subst. reflexivity.
  - destruct v as [| | | | | |i k ps];
      try (simpl in Hleaf; rewrite path_get_undef in Hleaf;
           destruct Hleaf as [Hl|Hl]; contradiction).
    assert (Hk : (exists tag, k = KOpaque tag)
                 \/ match k with KOpaque _ => False | _ => True end).
    { destruct k; eauto. }
    destruct Hk as [[tag ->]|Hk].
    { simpl in H. inversion H; subst. reflexivity. }
    rewrite (baseClone_obj _ _ _ _ _ Hk) in H.
    destruct (cloneEach (fun n sub => baseClone n sub true) (S next) ps)
      as [n1 ps1] eqn:E.
    inversion H; subst. simpl in *. unfold get in *.
    destruct (lookup key ps) as [x|] eqn:El.
    + destruct (cloneEach_lookup _ key _ _ _ _ x baseClone_mono E El) as [m [_ Em]].
      rewrite Em. destruct (baseClone m x true) as [m' x'] eqn:Ex. simpl.
      eapply IH; eauto.
    + rewrite path_get_undef in Hleaf. destruct Hleaf as [Hl|Hl]; contradiction.
Qed.

Lemma cloneDeep_path_kept next v n' v' p :
  rebuilt v -> cloneDeep next v = (n', v') ->
  by_reference (path_get v p) -> path_get v' p = path_get v p.
Proof.
  intros Hv H Hp. destruct v as [| | | | | |i k ps]; try contradiction.
  unfold cloneDeep in H.
  assert (E : baseClone next (VObj i k ps) false = baseClone next (VObj i k ps) true).
  { destruct k; try reflexivity. contradiction. }
  rewrite E in H. eapply baseClone_path; eauto.
Qed.

(** The objects of a clone that a later merge recurses into are new. *)
Lemma cloneEach_merged ps : forall s n1 ps1,
  Forall (fun kv => forall next nested n' v',
            baseClone next (snd kv) nested = (n', v') ->
            Forall (between next n') (merged_in v')) ps ->
  cloneEach (fun n sub => baseClone n sub true) s ps = (n1, ps1) ->
  s <= n1
  /\ Forall (between s n1) (flat_map (fun kv => merged_in (snd kv)) ps1).
Proof.
  induction ps as [|[key sub] ps IHps]; intros s n1 ps1 IH E; simpl in E.
  - inversion E; subst. split; [lia | constructor].
  - inversion IH as [|? ? H1 H2]; subst. simpl in H1.
    destruct (baseClone s sub true) as [m1 sub'] eqn:E1.
    destruct (cloneEach (fun n sub => baseClone n sub true) m1 ps)
      as [m2 rest'] eqn:E2.
    inversion E; subst. clear E.
    pose proof (H1 _ _ _ _ E1) as F1.
    pose proof (baseClone_le s sub true) as L1. rewrite E1 in L1. simpl in L1.
    destruct (IHps _ _ _ H2 E2) as [L2 F2].
    split; [lia|]. simpl. apply Forall_app. split.
    + eapply Forall_impl; [|exact F1]. unfold between. intros; lia.
    + eapply Forall_impl; [|exact F2]. unfold between. intros; lia.
Qed.

Lemma baseClone_merged v : forall next nested n' v',
  baseClone next v nested = (n', v') ->
  Forall (between next n') (merged_in v').
Proof.
  induction v as [| | | | | |i k ps IH] using value_ind';
    intros next nested n' v' H; simpl in H;
    try (inversion H; subst; constructor).
  - destruct nested; inversion H; subst; repeat constructor; unfold between; lia.
  - assert (C : forall k',
               (let '(m, ps') :=
                  cloneEach (fun n sub => baseClone n sub true) (S next) ps in
                (m, VObj next k' ps')) = (n', v') ->
               Forall (between next n') (merged_in v')).
    { intros k' E.
      destruct (cloneEach (fun n sub => baseClone n sub true) (S next) ps)
        as [n1 ps1] eqn:E1.
      inversion E; subst. destruct (cloneEach_merged _ _ _ _ IH E1) as [L F].
      assert (F' : Forall (between next n')
                     (next :: flat_map (fun kv => merged_in (snd kv)) ps1)).
      { constructor; [unfold between; lia|].
        eapply Forall_impl; [|exact F]. unfold between. intros; lia. }
      destruct k'; simpl; try exact F'; constructor. }
    destruct k as [| |cls|tag]; try exact (C _ H).
    destruct nested; inversion H; subst.
    + constructor.
    + repeat constructor; unfold between; lia.
Qed.

Lemma cloneDeep_merged next v n' v' :
  rebuilt v ->
  cloneDeep next v = (n', v') ->
  Forall (between next n') (merged_ids v').
Proof.
  intros Hv H. destruct v as [| | | | | |i k ps]; try contradiction.
  assert (Hk : match k with KOpaque _ => False | _ => True end).
  { destruct k; simpl in Hv; auto. }
  apply cloneDeep_obj_each in H; [|exact Hk].
  destruct H as [ps' [-> E]]. simpl.
  destruct (cloneEach_merged ps (S next) n' ps') as [L F]; [|exact E|].
  - apply Forall_forall. intros kv _. apply baseClone_merged.
  - constructor; [unfold between; lia|].
    eapply Forall_impl; [|exact F]. unfold between. intros; lia.
Qed.

End LodashTheory.

(* ===================================================================== *)
(** ** Properties of [configure] and of the request constructor *)
(* ===================================================================== *)

Module ObjectsTheory.
Import Lodash Objects LodashTheory.

Lemma app_obj_keys a :
  keys (match app_obj a with VObj _ _ ps => ps | _ => [] end)
  = ["config"; "plugins"; "middlewareCollection"; "initialized";
     "componentTree"; "i18n"]
    ++ match errorCallback a with Some _ => ["errorCallback"] | None => [] end.
Proof. unfold app_obj. simpl. destruct (errorCallback a); reflexivity. Qed.

Lemma kept_ids_getv key v i : In i (kept_ids (getv key v)) -> In i (kept_ids v).
Proof.
  destruct v as [| | | | | |j k ps]; simpl; try tauto.
  intros H.
  assert (G : In i (flat_map (fun kv => kept_ids (snd kv)) ps)).
  { unfold get in H. destruct (lookup key ps) as [x|] eqn:E; [|destruct H].
    apply in_flat_map. exists (key, x). split; [apply lookup_In, E | exact H]. }
  destruct k; try exact G.
  right. apply in_flat_map in G. destruct G as [kv [Hkv G]].
  apply in_flat_map. exists kv. split; [exact Hkv | apply kept_ids_ids, G].
Qed.

(** The objects a new request holds under [config], [plugins],
    [middlewareCollection], [componentTree] and [i18n] are created by the
    constructor, or are objects of an uncloneable sort of the App (or held
    by one); its [app] property is the App itself, as it was. *)
Lemma HandleRequest_new_shared (a : App) (server : value) (next n' : nat) (hr : value) :
  HandleRequest_new next (app_obj a) server = (n', hr) ->
  next <= n'
  /\ (forall key,
        In key ["config"; "plugins"; "middlewareCollection"; "componentTree"; "i18n"] ->
        ids_in (fun i => between next n' i \/ In i (kept_ids (app_obj a)))
          (getv key hr))
  /\ getv "app" hr = app_obj a.
Proof.
  unfold HandleRequest_new, Extensible_super, HandleRequest_getDefaultConfig,
    HandleRequest_initializeMiddlewareCollection, MiddlewareCollection_empty,
    ComponentTree_empty.
  destruct (cloneDeep (S next) (getv "config" (app_obj a))) as [n1 cfg] eqn:E1.
  destruct (merge (3 + n1) _ cfg) as [n2 c] eqn:E2.
  destruct (cloneDeep (2 + (2 + S n2)) (app_obj a)) as [n4 copy] eqn:E4.
  intros H.
  destruct (cloneDeep_shared _ _ _ _ E1) as [L1 F1].
  destruct (merge_fresh _ _ _ _ _ E2) as [L2 F2].
  destruct (cloneDeep_shared _ _ _ _ E4) as [L4 F4].
  assert (Hcopy : exists cid sps, copy = VObj cid (KInst "App") sps
                    /\ keys sps = keys (match app_obj a with VObj _ _ ps => ps | _ => [] end)).
  { unfold app_obj in E4. apply cloneDeep_obj in E4; [|exact I].
    destruct E4 as [ps' [-> K]]. eexists _, _. split; [reflexivity|].
    exact K. }
  destruct Hcopy as [cid [sps [-> Hkeys]]].
  simpl setv in H.
  destruct (merge_fresh _ _ _ _ _ H) as [L5 _].
  set (P := fun i => between next n' i \/ In i (kept_ids (app_obj a))).
  assert (Pnew : forall i, between next n' i -> P i) by (intros i Hi; left; exact Hi).
  assert (Hc : ids_in P c).
  { apply F2.
    - apply (ids_in_weaken (between next n')); [exact Pnew|].
      apply ids_in_obj. split; [unfold between; lia|].
      repeat constructor; unfold between; simpl; lia.
    - eapply ids_in_weaken; [|exact F1]. unfold between.
      intros i [Hi|Hi]; [apply Pnew; unfold between; lia
                        | right; eapply kept_ids_getv; exact Hi].
    - unfold between. intros i Hi. apply Pnew. unfold between. lia. }
  assert (Hs : props_in P sps).
  { apply ids_in_obj in F4. destruct F4 as [_ F4].
    eapply props_in_weaken; [|exact F4]. unfold between.
    intros i [Hi|Hi]; [apply Pnew; unfold between; lia | right; exact Hi]. }
  assert (Hb : forall i, between n4 n' i -> P i).
  { unfold between. intros i Hi. apply Pnew. unfold between. lia. }
  split; [lia|]. split.
  - intros key Hkey.
    apply (merge_key_fresh _ _ _ _ _ _ _ _ _ P key H); auto.
    simpl in Hkey.
    destruct Hkey as [<-|[<-|[<-|[<-|[<-|[]]]]]]; simpl;
      [exact Hc | apply (ids_in_weaken (between next n')); [exact Pnew|]..].
    + apply ids_in_obj. split; [unfold between; lia | constructor].
    + apply ids_in_obj. split; [unfold between; lia|].
      repeat constructor; unfold between; simpl; lia.
    + apply ids_in_obj. split; [unfold between; lia|].
      repeat constructor; unfold between; simpl; lia.
    + constructor.
  - unfold merge in H. simpl in H.
    destruct (next =? cid)%nat.
    { inversion H; subst. reflexivity. }
    destruct (mergeEach _ _ _ _) as [n6 ops6] eqn:E6 in H.
    inversion H; subst. simpl. unfold get.
    rewrite (mergeEach_other _ "app" _ _ _ _ _ E6).
    + reflexivity.
    + rewrite Hkeys, app_obj_keys. simpl.
      destruct (errorCallback a); simpl; intuition discriminate.
Qed.

(** For an App that holds no object of an uncloneable sort, they are all
    created by the constructor. *)
Lemma HandleRequest_new_fresh (a : App) (server : value) (next n' : nat) (hr : value) :
  cloneable (app_obj a) ->
  HandleRequest_new next (app_obj a) server = (n', hr) ->
  next <= n'
  /\ ids_in (between next n') (request_config hr)
  /\ ids_in (between next n') (request_plugins hr)
  /\ ids_in (between next n') (request_middlewareCollection hr)
  /\ getv "app" hr = app_obj a.
Proof.
  intros Hc H. destruct (HandleRequest_new_shared _ _ _ _ _ H) as [L [F Happ]].
  split; [exact L|].
  split; [apply (shared_none _ _ _ Hc), F; simpl; tauto|].
  split; [apply (shared_none _ _ _ Hc), F; simpl; tauto|].
  split; [apply (shared_none _ _ _ Hc), F; simpl; tauto|].
  exact Happ.
Qed.

Lemma between_absent lo hi l v :
  ids_in (between lo hi) v -> ~ between lo hi l -> ~ In l (ids v).
Proof. apply ids_in_absent. Qed.

(** Every primitive the App object holds is in the new request at the
    same path. *)
Lemma cloneable_getv key v : cloneable v -> cloneable (getv key v).
Proof.
  unfold cloneable. intros H.
  destruct (kept_ids (getv key v)) as [|i l] eqn:E; [reflexivity|].
  assert (Hin : In i (kept_ids v)).
  { apply (kept_ids_getv key). rewrite E. left. reflexivity. }
  rewrite H in Hin. destruct Hin.
Qed.

(** Every leaf the App object holds is in the new request at the same
    path: every primitive, and every function and object of an
    uncloneable sort, which is the App's own. *)
Lemma HandleRequest_new_content (a : App) (server : value) (next n' : nat)
  (hr : value) (p : list string) :
  unique_keys (app_obj a) ->
  ids_in (fun i => i < next) (app_obj a) ->
  ids_in (fun i => i < next) server ->
  HandleRequest_new next (app_obj a) server = (n', hr) ->
  p <> [] ->
  leaf (path_get (app_obj a) p) ->
  path_get hr p = path_get (app_obj a) p.
Proof.
  intros Hu Ha Hsrv H Hp Hleaf. revert H.
  unfold HandleRequest_new, Extensible_super, HandleRequest_getDefaultConfig,
    HandleRequest_initializeMiddlewareCollection, MiddlewareCollection_empty,
    ComponentTree_empty.
  destruct (cloneDeep (S next) (getv "config" (app_obj a))) as [n1 cfg] eqn:E1.
  destruct (merge (3 + n1) _ cfg) as [n2 c] eqn:E2.
  destruct (cloneDeep (2 + (2 + S n2)) (app_obj a)) as [n4 copy] eqn:E4.
  intros H.
  destruct (cloneDeep_shared _ _ _ _ E1) as [L1 F1].
  destruct (merge_fresh _ _ _ _ _ E2) as [L2 F2].
  destruct (cloneDeep_shared _ _ _ _ E4) as [L4 F4].
  assert (Hobj : rebuilt (app_obj a)) by exact I.
  assert (Hold : forall i, In i (kept_ids (app_obj a)) -> i < next).
  { intros i Hi. apply kept_ids_ids in Hi.
    unfold ids_in in Ha. rewrite Forall_forall in Ha. auto. }
  assert (Hc : ids_in (fun i => i < 2 + (2 + S n2)) c).
  { apply F2.
    - apply ids_in_obj. split; [lia|]. repeat constructor; simpl; lia.
    - eapply ids_in_weaken; [|exact F1]. unfold between.
      intros i [Hi|Hi]; [lia|].
      apply kept_ids_getv in Hi. apply Hold in Hi. lia.
    - unfold between. lia. }
  match type of H with
  | merge _ ?d _ = _ => set (self := d) in *
  end.
  assert (Hhr : hr = snd (baseMerge n4 self copy)).
  { unfold merge in H. rewrite H. reflexivity. }
  assert (Hcopy : path_get copy p = path_get (app_obj a) p).
  { destruct Hleaf as [Hl|Hl].
    - apply (cloneDeep_path _ _ _ _ p Hobj E4 Hl).
    - apply (cloneDeep_path_kept _ _ _ _ p Hobj E4 Hl). }
  rewrite Hhr. rewrite <- Hcopy.
  apply baseMerge_leaf; auto.
  - eapply cloneDeep_unique_keys; eauto.
  - eapply ids_in_weaken; [|exact F4]. unfold between. simpl.
    intros i [Hi|Hi]; [lia|]. apply Hold in Hi. lia.
  - apply ids_in_weaken with (P := fun i => i < 2 + (2 + S n2)).
    { intros i Hi Hin.
      pose proof (cloneDeep_merged _ _ _ _ Hobj E4) as Fm.
      rewrite Forall_forall in Fm. specialize (Fm i Hin).
      unfold between in Fm. lia. }
    unfold self. apply setv_in; [apply setv_in; [apply setv_in|]|].
    + apply ids_in_obj. split; [lia|].
      constructor; [exact Hc|]. constructor.
      { simpl. apply ids_in_obj. split; [lia | constructor]. }
      constructor; [|constructor]. simpl. apply ids_in_obj. split; [lia|].
      repeat constructor; simpl; lia.
    + eapply ids_in_weaken; [|exact Ha]. simpl. lia.
    + eapply ids_in_weaken; [|exact Hsrv]. simpl. lia.
    + apply ids_in_obj. split; [lia|]. repeat constructor; simpl; lia.
  - rewrite Hcopy. exact Hleaf.
Qed.

Lemma app_obj_nodup a : NoDup (keys (props_of (app_obj a))).
Proof.
  unfold app_obj. simpl. destruct (errorCallback a); simpl;
    repeat constructor; simpl; intuition discriminate.
Qed.

(** The request's registry is the App's registry, object for object, with
    new identities. *)
Lemma HandleRequest_new_registry (a : App) (server : value) (next n' : nat)
  (hr : value) (pid : nat) (pps : props) :
  plugins a = VObj pid KPlain pps ->
  NoDup (keys pps) ->
  Forall (fun kv => is_instance (snd kv)) pps ->
  HandleRequest_new next (app_obj a) server = (n', hr) ->
  erase (request_plugins hr) = erase (plugins a).
Proof.
  intros Hp Hnd Hinst.
  unfold HandleRequest_new, Extensible_super, HandleRequest_getDefaultConfig,
    HandleRequest_initializeMiddlewareCollection, MiddlewareCollection_empty,
    ComponentTree_empty.
  destruct (cloneDeep (S next) (getv "config" (app_obj a))) as [n1 cfg] eqn:E1.
  destruct (merge (3 + n1) _ cfg) as [n2 c] eqn:E2.
  destruct (cloneDeep (2 + (2 + S n2)) (app_obj a)) as [n4 copy] eqn:E4.
  intros H.
  destruct (cloneDeep_shared _ _ _ _ E1) as [L1 _].
  destruct (merge_fresh _ _ _ _ _ E2) as [L2 _].
  unfold app_obj in E4. apply cloneDeep_obj_each in E4; [|exact I].
  destruct E4 as [sps [-> E5]]. fold (app_obj a) in E5.
  destruct (cloneEach_lookup _ "plugins" _ _ _ _ (plugins a) baseClone_mono E5)
    as [m [Lm El]]; [reflexivity|].
  rewrite Hp in El.
  destruct (baseClone m (VObj pid KPlain pps) true) as [m' p1] eqn:Ec.
  pose proof (baseClone_erase _ _ _ _ Ec) as Her.
  simpl in Ec.
  destruct (cloneEach (fun n sub => baseClone n sub true) (S m) pps)
    as [m2 pps1] eqn:Ep.
  inversion Ec; subst m' p1. clear Ec. simpl in El.
  assert (Hk : NoDup (keys sps)).
  { rewrite (cloneEach_keys _ _ _ _ _ E5). apply (app_obj_nodup a). }
  unfold merge in H. simpl in H.
  assert (Hne : (next =? 2 + (2 + S n2))%nat = false) by (apply Nat.eqb_neq; lia).
  simpl in Hne. rewrite Hne in H.
  destruct (mergeEach _ n4 _ sps) as [n6 ops6] eqn:E6.
  inversion H; subst. clear H.
  destruct (mergeEach_at _ _ _ _ _ _ _ _ E6 Hk El) as [n Hn].
  unfold request_plugins. simpl getv. rewrite Hn.
  simpl get. simpl.
  assert (Hnm : (n2 =? m)%nat = false) by (apply Nat.eqb_neq; lia).
  rewrite Hnm.
  rewrite (mergeEach_instances _ pps1 [] n).
  - simpl. rewrite Hp. simpl in Her. exact Her.
  - simpl. rewrite (cloneEach_keys _ _ _ _ _ Ep). exact Hnd.
  - eapply cloneEach_instances; eauto.
Qed.
(** C1, as the code has it.  A request constructed from an App holds,
    under [config] and [plugins], the clone [_cloneDeep] makes at
    construction.  Every primitive of the App's config and registry is
    there at the same path, and a registry of plugin instances is
    reproduced object for object.  Every plain object, array and class
    instance in it is created by the constructor.  What [_cloneDeep] does
    not clone, a function or an object of an uncloneable sort (an [Error],
    a [WeakMap]) held anywhere in the App's config or registry, is the
    very same in the request, at the same path.  So a mutation of an
    object of the App leaves the request's registry and config as they
    are, and conversely, and between two requests, for every object but
    those shared ones; for an App that holds no object of an uncloneable
    sort, for every object.  (A function has no properties here: what is
    proved of mutations is proved of objects that are not functions.) *)
Theorem request_holds_isolated_deep_clone
  (a : App) (server server' : value) (next : nat) :
  unique_keys (app_obj a) ->
  ids_in (fun i => i < next) (app_obj a) ->
  ids_in (fun i => i < next) server ->
  ids_in (fun i => i < next) server' ->
  let r1 := HandleRequest_new next (app_obj a) server in
  let r2 := HandleRequest_new (fst r1) (app_obj a) server' in
  let shared := kept_ids (app_obj a) in
  (forall p, primitive (path_get (config a) p) ->
             path_get (request_config (snd r1)) p = path_get (config a) p)
  /\ (forall p, primitive (path_get (plugins a) p) ->
                path_get (request_plugins (snd r1)) p = path_get (plugins a) p)
  /\ (forall pid pps,
        plugins a = VObj pid KPlain pps ->
        Forall (fun kv => is_instance (snd kv)) pps ->
        erase (request_plugins (snd r1)) = erase (plugins a))
  /\ (forall p, by_reference (path_get (config a) p) ->
                path_get (request_config (snd r1)) p = path_get (config a) p)
  /\ (forall p, by_reference (path_get (plugins a) p) ->
                path_get (request_plugins (snd r1)) p = path_get (plugins a) p)
  /\ ids_in (fun i => between next (fst r1) i \/ In i shared)
       (request_config (snd r1))
  /\ ids_in (fun i => between next (fst r1) i \/ In i shared)
       (request_plugins (snd r1))
  /\ (forall l, In l (ids (app_obj a)) -> ~ In l shared ->
                ~ In l (ids (request_config (snd r1)))
                /\ ~ In l (ids (request_plugins (snd r1))))
  /\ (forall l f, In l (ids (app_obj a)) -> ~ In l shared ->
                  poke l f (request_config (snd r1)) = request_config (snd r1)
                  /\ poke l f (request_plugins (snd r1)) = request_plugins (snd r1))
  /\ (forall l f, In l (ids (request_config (snd r1)))
                  \/ In l (ids (request_plugins (snd r1))) ->
                  ~ In l shared ->
                  poke l f (app_obj a) = app_obj a)
  /\ (forall l f, In l (ids (request_config (snd r1)))
                  \/ In l (ids (request_plugins (snd r1))) ->
                  ~ In l shared ->
                  poke l f (request_config (snd r2)) = request_config (snd r2)
                  /\ poke l f (request_plugins (snd r2)) = request_plugins (snd r2))
  /\ (forall l f, In l (ids (request_config (snd r2)))
                  \/ In l (ids (request_plugins (snd r2))) ->
                  ~ In l shared ->
                  poke l f (request_config (snd r1)) = request_config (snd r1)
                  /\ poke l f (request_plugins (snd r1)) = request_plugins (snd r1))
  /\ (cloneable (app_obj a) ->
      forall l f, In l (ids (app_obj a)) ->
                  poke l f (request_config (snd r1)) = request_config (snd r1)
                  /\ poke l f (request_plugins (snd r1)) = request_plugins (snd r1)).
Proof.
  intros Hu Ha Hs Hs' r1 r2 shared.
  destruct r1 as [n1 R1] eqn:E1. unfold r1 in E1.
  destruct r2 as [n2 R2] eqn:E2. unfold r2 in E2. cbn [fst snd] in E2 |- *.
  destruct (HandleRequest_new_shared _ _ _ _ _ E1) as [L1 [F1 _]].
  destruct (HandleRequest_new_shared _ _ _ _ _ E2) as [L2 [F2 _]].
  assert (C1 := F1 "config" ltac:(simpl; tauto)).
  assert (P1 := F1 "plugins" ltac:(simpl; tauto)).
  assert (C2 := F2 "config" ltac:(simpl; tauto)).
  assert (P2 := F2 "plugins" ltac:(simpl; tauto)).
  fold (request_config R1) in C1. fold (request_plugins R1) in P1.
  fold (request_config R2) in C2. fold (request_plugins R2) in P2.
  fold shared in C1, P1, C2, P2.
  assert (Hold : forall l, In l (ids (app_obj a)) -> l < next).
  { intros l Hl. unfold ids_in in Ha. rewrite Forall_forall in Ha. auto. }
  assert (Hsh : forall l, In l shared -> l < next).
  { intros l Hl. apply Hold. apply kept_ids_ids. exact Hl. }
  assert (Hin : forall lo hi v l,
             ids_in (fun i => between lo hi i \/ In i shared) v ->
             In l (ids v) -> ~ In l shared -> between lo hi l).
  { intros lo hi v l Hv Hl Hn. unfold ids_in in Hv. rewrite Forall_forall in Hv.
    destruct (Hv l Hl); [assumption | contradiction]. }
  assert (Hout : forall lo hi v l,
             ids_in (fun i => between lo hi i \/ In i shared) v ->
             ~ between lo hi l -> ~ In l shared -> ~ In l (ids v)).
  { intros lo hi v l Hv Hb Hn Hl. apply Hb. eapply Hin; eauto. }
  assert (Iso : forall l f, In l (ids (app_obj a)) -> ~ In l shared ->
                  poke l f (request_config R1) = request_config R1
                  /\ poke l f (request_plugins R1) = request_plugins R1).
  { intros l f Hl Hn. specialize (Hold l Hl).
    split; apply poke_absent; eapply Hout; eauto; unfold between; lia. }
  repeat match goal with |- _ /\ _ => split end.
  - intros p Hp.
    apply (HandleRequest_new_content a server next n1 R1 ("config" :: p)); auto.
    + discriminate.
    + left. exact Hp.
  - intros p Hp.
    apply (HandleRequest_new_content a server next n1 R1 ("plugins" :: p)); auto.
    + discriminate.
    + left. exact Hp.
  - intros pid pps Hp Hinst.
    apply (HandleRequest_new_registry a server next n1 R1 pid pps); auto.
    unfold app_obj in Hu. apply unique_keys_obj in Hu. destruct Hu as [_ Hu].
    inversion Hu as [|? ? _ Hu']; subst. inversion Hu' as [|? ? Hpl _]; subst.
    simpl in Hpl. rewrite Hp in Hpl. apply unique_keys_obj in Hpl. tauto.
  - intros p Hp.
    apply (HandleRequest_new_content a server next n1 R1 ("config" :: p)); auto.
    + discriminate.
    + right. exact Hp.
  - intros p Hp.
    apply (HandleRequest_new_content a server next n1 R1 ("plugins" :: p)); auto.
    + discriminate.
    + right. exact Hp.
  - exact C1.
  - exact P1.
  - intros l Hl Hn. specialize (Hold l Hl).
    split; eapply Hout; eauto; unfold between; lia.
  - exact Iso.
  - intros l f Hl Hn. apply poke_absent. intros Habs. specialize (Hold l Habs).
    destruct Hl as [Hl|Hl]; eapply Hin in Hl; eauto; unfold between in Hl; lia.
  - intros l f Hl Hn.
    assert (B : between next n1 l)
      by (destruct Hl as [Hl|Hl]; (eapply Hin; [|exact Hl|exact Hn]); assumption).
    split; apply poke_absent; eapply Hout; eauto; unfold between in *; lia.
  - intros l f Hl Hn.
    assert (B : between n1 n2 l)
      by (destruct Hl as [Hl|Hl]; (eapply Hin; [|exact Hl|exact Hn]); assumption).
    split; apply poke_absent; eapply Hout; eauto; unfold between in *; lia.
  - intros Hc l f Hl. apply Iso; [exact Hl|].
    unfold shared. rewrite Hc. simpl. tauto.
Qed.

Section ConfigureTheory.
Variable test_env : bool.
Variable extendsPlugin : string -> bool.
Variable ComponentTree_add : value -> list value -> value.

Local Abbreviation configure := (configure test_env extendsPlugin ComponentTree_add).
Local Abbreviation use := (use test_env extendsPlugin ComponentTree_add).

Lemma use_config a usables : config (use a usables) = config a.
Proof.
  unfold Objects.use.
  destruct (0 <? List.length _)%nat; destruct (0 <? List.length _)%nat; reflexivity.
Qed.

Lemma configure_config next a cfg :
  config (snd (configure next a cfg))
  = snd (merge (S next) (config a) (configure_source next cfg)).
Proof.
  unfold Objects.configure, configure_source.
  destruct (merge (S next) (config a) _) as [n1 c]. simpl.
  rewrite use_config. reflexivity.
Qed.

Lemma configure_next next a cfg :
  fst (configure next a cfg)
  = fst (merge (S next) (config a) (configure_source next cfg)).
Proof.
  unfold Objects.configure, configure_source.
  destruct (merge (S next) (config a) _) as [n1 c]. reflexivity.
Qed.

Lemma configure_source_shape next cfg :
  configure_source next cfg
  = VObj next KPlain (set "plugins" VUndef (set "components" VUndef (props_of cfg))).
Proof. destruct cfg; reflexivity. Qed.

Lemma configure_source_get next cfg key :
  key <> "components" -> key <> "plugins" ->
  getv key (configure_source next cfg) = getv key cfg.
Proof.
  intros H1 H2. rewrite configure_source_shape. simpl.
  rewrite !get_set_ne by congruence. destruct cfg; reflexivity.
Qed.

Lemma configure_source_lookup next cfg key :
  key <> "components" -> key <> "plugins" ->
  lookup key (props_of (configure_source next cfg)) = lookup key (props_of cfg).
Proof.
  intros H1 H2. rewrite configure_source_shape. simpl.
  rewrite !lookup_set_ne by congruence. reflexivity.
Qed.

Lemma configure_source_unique next cfg :
  unique_keys cfg -> unique_keys (configure_source next cfg).
Proof.
  intros H. rewrite configure_source_shape. apply unique_keys_obj.
  assert (G : NoDup (keys (props_of cfg))
              /\ Forall (fun kv => unique_keys (snd kv)) (props_of cfg)).
  { destruct cfg; simpl; try (split; constructor).
    apply unique_keys_obj in H. exact H. }
  destruct G as [G1 G2]. split.
  - apply NoDup_keys_set, NoDup_keys_set, G1.
  - apply Forall_set; [apply Forall_set|]; simpl; auto.
Qed.

Lemma configure_source_in (P : nat -> Prop) next cfg :
  P next -> ids_in P cfg -> ids_in P (configure_source next cfg).
Proof.
  intros Hn H. rewrite configure_source_shape. apply ids_in_obj.
  split; [exact Hn|].
  apply set_in; [apply set_in|]; try constructor.
  destruct cfg; simpl; try constructor. apply ids_in_obj in H. tauto.
Qed.

Lemma configure_source_ids next cfg i :
  In i (ids (configure_source next cfg)) -> i = next \/ In i (ids cfg).
Proof.
  intros H.
  assert (G : ids_in (fun i => i = next \/ In i (ids cfg)) (configure_source next cfg)).
  { apply configure_source_in; [left; reflexivity|].
    apply Forall_forall. intros x Hx. right. exact Hx. }
  unfold ids_in in G. rewrite Forall_forall in G. auto.
Qed.

(** What [configure] leaves under each key. *)
Lemma configure_key_by_key (next : nat) (a : App) (cfg : value) :
  is_object (config a) ->
  unique_keys cfg ->
  ids_in (fun i => i < next) cfg ->
  ids_in (fun i => i < next /\ ~ In i (ids cfg)) (config a) ->
  let a' := snd (configure next a cfg) in
  (forall key p,
      key <> "components" -> key <> "plugins" ->
      primitive (path_get cfg (key :: p)) ->
      path_get (config a') (key :: p) = path_get cfg (key :: p))
  /\ (forall key srcValue,
      key <> "components" -> key <> "plugins" ->
      lookup key (props_of cfg) = Some srcValue ->
      match srcValue with
      | VUndef => getv key (config a') = getv key (config a)
      | VObj _ KPlain _ =>
          exists n,
            getv key (config a')
            = snd (merge
                     (match getv key (config a) with VObj _ _ _ => n | _ => S n end)
                     (match getv key (config a) with
                      | VObj _ _ _ => getv key (config a)
                      | _ => VObj n KPlain []
                      end)
                     srcValue)
      | VObj _ KArray _ =>
          isArray (getv key (config a)) = true ->
          exists n, getv key (config a') = snd (merge n (getv key (config a)) srcValue)
      | _ => getv key (config a') = srcValue
      end)
  /\ (forall key i j xs ys,
      key <> "components" -> key <> "plugins" ->
      lookup key (props_of cfg) = Some (arr j ys) ->
      getv key (config a) = arr i xs ->
      Forall primitive ys ->
      getv key (config a') = arr i (ys ++ skipn (List.length ys) xs))
  /\ (forall key,
      lookup key (props_of cfg) = None \/ key = "components" \/ key = "plugins" ->
      getv key (config a') = getv key (config a)).
Proof.
  intros Hobj Hu Hlt Hdis a'. unfold a'. rewrite configure_config.
  destruct (config a) as [| | | | | |ci ck cps] eqn:Ec; try contradiction.
  assert (Hci : ci <> next).
  { apply ids_in_obj in Hdis. destruct Hdis as [[H _] _]. lia. }
  pose proof (configure_source_shape next cfg) as Hshape.
  set (sps := set "plugins" VUndef (set "components" VUndef (props_of cfg))) in Hshape.
  assert (Hnd : NoDup (keys sps)).
  { pose proof (configure_source_unique next cfg Hu) as G.
    rewrite Hshape in G. apply unique_keys_obj in G. tauto. }
  assert (Hm : forall key srcValue,
             lookup key sps = Some srcValue ->
             exists n,
               getv key (snd (merge (S next) (VObj ci ck cps) (configure_source next cfg)))
               = match snd (if isObject srcValue
                            then baseMergeDeep (fun n o x => baseMerge n o x) n
                                   (get key cps) srcValue
                            else (n, srcValue)) with
                 | VUndef => get key cps
                 | newValue => newValue
                 end).
  { intros key srcValue Hl. rewrite Hshape. unfold merge. simpl.
    apply Nat.eqb_neq in Hci. rewrite Hci.
    destruct (mergeEach _ (S next) cps sps) as [n1 ops1] eqn:E. simpl.
    eapply mergeEach_at; eauto. }
  split; [|split; [|split]].
  - intros key p H1 H2 Hp.
    transitivity (path_get (configure_source next cfg) (key :: p));
      [|simpl; rewrite (configure_source_get next cfg key H1 H2); reflexivity].
    apply (baseMerge_path (configure_source next cfg)); auto.
    + apply configure_source_unique, Hu.
    + apply configure_source_in; [lia|].
      eapply ids_in_weaken; [|exact Hlt]. simpl. lia.
    + eapply ids_in_weaken; [|exact Hdis]. simpl.
      intros i [Hi Hn] Hin. apply configure_source_ids in Hin.
      destruct Hin as [->|Hin]; [lia | contradiction].
    + discriminate.
    + simpl. rewrite (configure_source_get next cfg key H1 H2). exact Hp.
  - intros key srcValue H1 H2 Hl.
    destruct (Hm key srcValue) as [n Hn].
    { unfold sps. rewrite !lookup_set_ne by congruence. exact Hl. }
    change (getv key (VObj ci ck cps)) with (get key cps).
    destruct srcValue as [| | | | | |j k ps]; try (simpl in Hn; exact Hn).
    change (isObject (VObj j k ps)) with true in Hn. cbv iota in Hn.
    unfold baseMergeDeep in Hn.
    destruct k as [| |cls|tag]; [| |exact Hn..].
    + exists n. rewrite Hn. unfold merge.
      destruct (get key cps) as [| | | | | |oi ok ops]; cbv beta iota zeta;
        match goal with
        | |- context [baseMerge ?m (VObj ?i ?kk ?qs) ?src] =>
            destruct (baseMerge_keeps_object m i kk qs src) as [ps' Hps];
            rewrite Hps; reflexivity
        end.
    + intros Harr. exists n. rewrite Hn. unfold merge. simpl in Harr.
      rewrite Harr. cbv beta iota zeta.
      destruct (get key cps) as [| | | | | |oi ok ops]; try discriminate.
      destruct (baseMerge_keeps_object n oi ok ops (VObj j KArray ps)) as [ps' Hps].
      rewrite Hps. reflexivity.
  - intros key i j xs ys H1 H2 Hl Hg Hp.
    destruct (Hm key (arr j ys)) as [n Hn].
    { unfold sps. rewrite !lookup_set_ne by congruence. exact Hl. }
    change (getv key (VObj ci ck cps)) with (get key cps) in Hg.
    rewrite Hn, Hg.
    assert (Hij : i <> j).
    { intros ->. apply ids_in_obj in Hdis. destruct Hdis as [_ Hdis].
      pose proof (get_in _ key _ Hdis) as G. rewrite Hg in G.
      unfold arr in G. apply ids_in_obj in G. destruct G as [[_ G] _].
      apply G. apply lookup_In in Hl.
      destruct cfg; simpl in Hl; try contradiction.
      simpl. right. apply in_flat_map. exists (key, arr j ys).
      split; [exact Hl | left; reflexivity]. }
    change (isObject (arr j ys)) with true. cbv iota.
    rewrite (baseMergeDeep_arrays n i j xs ys Hij Hp). reflexivity.
  - intros key Hk. rewrite Hshape. unfold merge. simpl.
    apply Nat.eqb_neq in Hci. rewrite Hci.
    destruct (mergeEach _ (S next) cps sps) as [n1 ops1] eqn:E. simpl.
    destruct (lookup key sps) as [v|] eqn:El.
    + assert (Hv : v = VUndef).
      { unfold sps in El. destruct Hk as [Hk|[->| ->]].
        - destruct (String.eqb key "plugins") eqn:E1.
          { apply String.eqb_eq in E1. subst key.
            rewrite lookup_set_eq in El. congruence. }
          apply String.eqb_neq in E1.
          rewrite lookup_set_ne in El by congruence.
          destruct (String.eqb key "components") eqn:E2.
          { apply String.eqb_eq in E2. subst key.
            rewrite lookup_set_eq in El. congruence. }
          apply String.eqb_neq in E2.
          rewrite lookup_set_ne in El by congruence. congruence.
        - rewrite lookup_set_ne in El by discriminate.
          rewrite lookup_set_eq in El. congruence.
        - rewrite lookup_set_eq in El. congruence. }
      subst v. destruct (mergeEach_at _ _ _ _ _ _ _ _ E Hnd El) as [n Hn].
      rewrite Hn. reflexivity.
    + unfold get. rewrite (mergeEach_other _ key _ _ _ _ _ E); [reflexivity|].
      intros Hin. apply in_map_iff in Hin. destruct Hin as [[k x] [Hk1 Hk2]].
      simpl in Hk1. subst k.
      assert (G : lookup key sps <> None).
      { clear -Hk2. induction sps as [|[k0 x0] l IH]; simpl in *; [tauto|].
        destruct (String.eqb k0 key) eqn:E0; [discriminate|].
        destruct Hk2 as [Hk2|Hk2]; [|apply IH; exact Hk2].
        inversion Hk2; subst. rewrite String.eqb_refl in E0. discriminate. }
      contradiction.
Qed.

Lemma merge_keeps_object_below next d s (P : nat -> Prop) :
  is_object d -> ids_in P d -> ids_in P s ->
  (forall i, between next (fst (merge next d s)) i -> P i) ->
  is_object (snd (merge next d s)) /\ ids_in P (snd (merge next d s)).
Proof.
  intros Hd HPd HPs Hf. split.
  - destruct d; try contradiction. unfold merge.
    destruct (baseMerge_keeps_object next id k props0 s) as [ps' ->]. exact I.
  - destruct (merge next d s) as [n' d'] eqn:E.
    destruct (merge_fresh _ _ _ _ _ E) as [_ F]. simpl in *. apply F; auto.
Qed.

Lemma merge_next_le next d s : next <= fst (merge next d s).
Proof.
  destruct (merge next d s) as [n' d'] eqn:E.
  destruct (merge_fresh _ _ _ _ _ E) as [L _]. exact L.
Qed.

(** [configure({a: {x: 1}})] followed by [configure({a: {y: 2}})]. *)
Lemma configure_a_x_then_a_y (a : App) (next : nat) :
  is_object (config a) ->
  ids_in (fun i => i < next) (config a) ->
  let s1 := configure (2 + next) a (Demo.literal_a next "x" 1) in
  let s2 := configure (2 + fst s1) (snd s1) (Demo.literal_a (fst s1) "y" 2) in
  path_get (config (snd s2)) ["a"; "x"] = VNum 1
  /\ path_get (config (snd s2)) ["a"; "y"] = VNum 2.
Proof.
  intros Hobj Hlt s1 s2.
  assert (Hlit : forall n k v, unique_keys (Demo.literal_a n k v)).
  { intros n k v. unfold Demo.literal_a. simpl.
    repeat split; repeat constructor; simpl; tauto. }
  assert (Hlitlt : forall n k v, ids_in (fun i => i < 2 + n) (Demo.literal_a n k v)).
  { intros n k v. unfold Demo.literal_a, ids_in. simpl. repeat constructor; lia. }
  assert (Hdisj : forall n k v c,
             ids_in (fun i => i < n) c ->
             ids_in (fun i => i < 2 + n /\ ~ In i (ids (Demo.literal_a n k v))) c).
  { intros n k v c Hc. eapply ids_in_weaken; [|exact Hc]. simpl.
    intros i Hi. split; [lia|]. intros [H|[H|[]]]; lia. }
  (* first call *)
  destruct (configure_key_by_key (2 + next) a (Demo.literal_a next "x" 1)
              Hobj (Hlit _ _ _) (Hlitlt _ _ _) (Hdisj _ _ _ _ Hlt))
    as [P1 _].
  fold s1 in P1.
  assert (X1 : path_get (config (snd s1)) ["a"; "x"] = VNum 1).
  { apply (P1 "a" ["x"]); try discriminate. exact I. }
  (* the config after the first call *)
  assert (Hc1 : is_object (config (snd s1))
                /\ ids_in (fun i => i < fst s1) (config (snd s1))).
  { unfold s1. rewrite configure_config, configure_next.
    apply merge_keeps_object_below; auto.
    - eapply ids_in_weaken; [|exact Hlt]. simpl. intros i Hi.
      pose proof (merge_next_le (S (S (S next))) (config a)
                    (configure_source (2 + next) (Demo.literal_a next "x" 1))).
      simpl in *. lia.
    - pose proof (merge_next_le (S (S (S next))) (config a)
                    (configure_source (2 + next) (Demo.literal_a next "x" 1))).
      apply configure_source_in; [simpl in *; lia|].
      eapply ids_in_weaken; [|apply Hlitlt]. simpl in *. intros i Hi. lia.
    - unfold between. lia. }
  destruct Hc1 as [Hobj1 Hlt1].
  (* second call *)
  destruct (configure_key_by_key (2 + fst s1) (snd s1) (Demo.literal_a (fst s1) "y" 2)
              Hobj1 (Hlit _ _ _) (Hlitlt _ _ _) (Hdisj _ _ _ _ Hlt1))
    as [P2 [Q2 _]].
  fold s2 in P2, Q2.
  split.
  - specialize (Q2 "a" (VObj (S (fst s1)) KPlain [("y", VNum 2)])).
    destruct Q2 as [n Hn]; try discriminate; [reflexivity|].
    simpl in X1. simpl. rewrite Hn.
    destruct (getv "a" (config (snd s1))) as [| | | | | |i k ops];
      try discriminate.
    unfold merge. simpl.
    destruct (i =? S (fst s1))%nat; simpl; [exact X1|].
    simpl in X1. rewrite get_set_ne by discriminate. exact X1.
  - apply (P2 "a" ["y"]); try discriminate. exact I.
Qed.

(** C6, as the code has it.  [configure(config)] merges the supplied
    object, without its [components] and [plugins] entries, into the
    current config key by key.
    - A supplied primitive other than [undefined], at any depth, ends up
      in the config at the same path; a supplied function or class
      instance is stored as it is.
    - A supplied plain object is merged recursively into the current
      value when that is an object, and into a new object otherwise.
    - A supplied array is merged into the current array index by index,
      as an object with its indices for keys: with primitive elements, the
      supplied ones overwrite the first elements and the elements beyond
      the supplied length are kept.
    - A supplied [undefined], and a key that is not supplied, leave the
      current value as it is; so do [components] and [plugins].
    In particular [configure({a: {x: 1}})] followed by
    [configure({a: {y: 2}})] yields a config with [a.x = 1] and
    [a.y = 2]. *)
Theorem configure_deep_merges (next : nat) (a : App) (cfg : value) :
  is_object (config a) ->
  unique_keys cfg ->
  ids_in (fun i => i < next) cfg ->
  ids_in (fun i => i < next /\ ~ In i (ids cfg)) (config a) ->
  let a' := snd (configure next a cfg) in
  (forall key p,
      key <> "components" -> key <> "plugins" ->
      primitive (path_get cfg (key :: p)) ->
      path_get (config a') (key :: p) = path_get cfg (key :: p))
  /\ (forall key srcValue,
      key <> "components" -> key <> "plugins" ->
      lookup key (props_of cfg) = Some srcValue ->
      match srcValue with
      | VUndef => getv key (config a') = getv key (config a)
      | VObj _ KPlain _ =>
          exists n,
            getv key (config a')
            = snd (merge
                     (match getv key (config a) with VObj _ _ _ => n | _ => S n end)
                     (match getv key (config a) with
                      | VObj _ _ _ => getv key (config a)
                      | _ => VObj n KPlain []
                      end)
                     srcValue)
      | VObj _ KArray _ =>
          isArray (getv key (config a)) = true ->
          exists n, getv key (config a') = snd (merge n (getv key (config a)) srcValue)
      | _ => getv key (config a') = srcValue
      end)
  /\ (forall key i j xs ys,
      key <> "components" -> key <> "plugins" ->
      lookup key (props_of cfg) = Some (arr j ys) ->
      getv key (config a) = arr i xs ->
      Forall primitive ys ->
      getv key (config a') = arr i (ys ++ skipn (List.length ys) xs))
  /\ (forall key,
      lookup key (props_of cfg) = None \/ key = "components" \/ key = "plugins" ->
      getv key (config a') = getv key (config a))
  /\ (let s1 := configure (2 + next) a (Demo.literal_a next "x" 1) in
      let s2 := configure (2 + fst s1) (snd s1) (Demo.literal_a (fst s1) "y" 2) in
      path_get (config (snd s2)) ["a"; "x"] = VNum 1
      /\ path_get (config (snd s2)) ["a"; "y"] = VNum 2).
Proof.
  intros Hobj Hu Hlt Hdis a'.
  destruct (configure_key_by_key next a cfg Hobj Hu Hlt Hdis) as [H1 [H2 [H3 H4]]].
  repeat split; auto.
  - apply configure_a_x_then_a_y; auto.
    eapply ids_in_weaken; [|exact Hdis]. simpl. tauto.
  - apply configure_a_x_then_a_y; auto.
    eapply ids_in_weaken; [|exact Hdis]. simpl. tauto.
Qed.

End ConfigureTheory.

(** C6, as stated, fails: [configure({l: [1, 2, 3]})] followed by
    [configure({l: [4]})] leaves [l] as [[4, 2, 3]], not as [[4]]. *)
Lemma configure_does_not_replace_arrays :
  erase (getv "l" (config Demo.configured_lists))
  = erase (arr 0 [VNum 4; VNum 2; VNum 3])
  /\ erase (getv "l" (config Demo.configured_lists))
     <> erase (arr 0 [VNum 4]).
Proof. split; [reflexivity | discriminate]. Qed.

Lemma configure_deep_merges_witness :
  is_object (config Demo.demoApp)
  /\ unique_keys Demo.demoPartial
  /\ path_get
       (config (snd (Demo.demo_configure 23 Demo.demoApp Demo.demoPartial)))
       ["routing"; "intentMap"; "B"] = VStr "C"
  /\ path_get
       (config (snd (Demo.demo_configure 23 Demo.demoApp Demo.demoPartial)))
       ["routing"; "intentMap"; "A"] = VStr "B".
Proof.
  assert (Hu : unique_keys Demo.demoPartial).
  { simpl. repeat split; repeat constructor; simpl; intuition discriminate. }
  assert (Hlt : ids_in (fun i => i < 23) Demo.demoPartial).
  { unfold ids_in. simpl. repeat constructor. }
  assert (Hdis : ids_in (fun i => i < 23 /\ ~ In i (ids Demo.demoPartial))
                   (config Demo.demoApp)).
  { unfold ids_in. simpl.
    repeat constructor; simpl; intuition discriminate. }
  split; [exact I|]. split; [exact Hu|].
  destruct (configure_deep_merges false Demo.noPlugin Demo.keepTree 23
              Demo.demoApp Demo.demoPartial I Hu Hlt Hdis) as [H1 _].
  split.
  - apply (H1 "routing" ["intentMap"; "B"]); try discriminate. exact I.
  - reflexivity.
Defined.

(** C1, as stated, fails for an App whose config holds an object that
    [_cloneDeep] does not clone: the request's config holds the App's own
    [Error] object, and a change made to it through the App shows in the
    request's config. *)
Lemma request_shares_uncloneable_objects :
  getv "lastError" (config Demo.errorApp)
  = VObj 15 (KOpaque "Error") [("message", VStr "boom")]
  /\ getv "lastError"
       (request_config
          (snd (HandleRequest_new 20 (app_obj Demo.errorApp) Demo.demoServer)))
     = getv "lastError" (config Demo.errorApp)
  /\ poke 15 (set "message" (VStr "changed")) (app_obj Demo.errorApp)
     <> app_obj Demo.errorApp
  /\ poke 15 (set "message" (VStr "changed"))
       (request_config
          (snd (HandleRequest_new 20 (app_obj Demo.errorApp) Demo.demoServer)))
     <> request_config
          (snd (HandleRequest_new 20 (app_obj Demo.errorApp) Demo.demoServer)).
Proof.
  split; [reflexivity|]. split; [reflexivity|]. split.
  - intros H.
    apply (f_equal (fun v => path_get v ["config"; "lastError"; "message"])) in H.
    vm_compute in H. discriminate.
  - intros H.
    apply (f_equal (fun v => path_get v ["lastError"; "message"])) in H.
    vm_compute in H. discriminate.
Qed.

Lemma request_holds_isolated_deep_clone_witness :
  unique_keys (app_obj Demo.demoApp)
  /\ ids_in (fun i => i < 20) (app_obj Demo.demoApp)
  /\ cloneable (app_obj Demo.demoApp)
  /\ path_get (request_config
                 (snd (HandleRequest_new 20 (app_obj Demo.demoApp) Demo.demoServer)))
       ["routing"; "intentMap"; "A"] = VStr "B"
  /\ (forall f,
       poke 3 f (request_config
                   (snd (HandleRequest_new 20 (app_obj Demo.demoApp) Demo.demoServer)))
       = request_config
           (snd (HandleRequest_new 20 (app_obj Demo.demoApp) Demo.demoServer)))
  /\ path_get (request_config
                 (snd (HandleRequest_new 20 (app_obj Demo.errorApp) Demo.demoServer)))
       ["lastError"]
     = VObj 15 (KOpaque "Error") [("message", VStr "boom")].
Proof.
  assert (Hu : unique_keys (app_obj Demo.demoApp)).
  { simpl. repeat split; repeat constructor; simpl; intuition discriminate. }
  assert (Ha : ids_in (fun i => i < 20) (app_obj Demo.demoApp)).
  { unfold ids_in. simpl. repeat constructor. }
  assert (Hs : ids_in (fun i => i < 20) Demo.demoServer).
  { unfold ids_in. simpl. repeat constructor. }
  assert (Hue : unique_keys (app_obj Demo.errorApp)).
  { simpl. repeat split; repeat constructor; simpl; intuition discriminate. }
  assert (Hae : ids_in (fun i => i < 20) (app_obj Demo.errorApp)).
  { unfold ids_in. simpl. repeat constructor. }
  split; [exact Hu|]. split; [exact Ha|]. split; [reflexivity|].
  destruct (request_holds_isolated_deep_clone Demo.demoApp Demo.demoServer
              Demo.demoServer 20 Hu Ha Hs Hs)
    as [H1 [_ [_ [_ [_ [_ [_ [_ [_ [_ [_ [_ H13]]]]]]]]]]]].
  destruct (request_holds_isolated_deep_clone Demo.errorApp Demo.demoServer
              Demo.demoServer 20 Hue Hae Hs Hs)
    as [_ [_ [_ [H4 _]]]].
  split; [|split].
  - apply (H1 ["routing"; "intentMap"; "A"]). exact I.
  - intros f. apply (H13 eq_refl 3 f). simpl. tauto.
  - apply (H4 ["lastError"]). exact I.
Defined.

End ObjectsTheory.

(* ===================================================================== *)
(** ** Properties of [initialize], [handle] and [handleError] *)
(* ===================================================================== *)

Module PipelineTheory.
Import Lodash Pipeline.
Local Open Scope m_scope.

Lemma appends_ret {A} P (a : A) : appends P (ret a).
Proof.
  intros m m' r H. inversion H; subst. split; [reflexivity|].
  exists []. rewrite app_nil_r. auto.
Qed.

Lemma appends_throw {A} P e : appends P (@throw A e).
Proof.
  intros m m' r H. inversion H; subst. split; [reflexivity|].
  exists []. rewrite app_nil_r. auto.
Qed.

Lemma appends_lift {A} P (x : result A) : appends P (lift x).
Proof.
  intros m m' r H. inversion H; subst. split; [reflexivity|].
  exists []. rewrite app_nil_r. auto.
Qed.

Lemma appends_get_trace P : appends P get_trace.
Proof.
  intros m m' r H. inversion H; subst. split; [reflexivity|].
  exists []. rewrite app_nil_r. auto.
Qed.

Lemma appends_get_this P : appends P get_this.
Proof.
  intros m m' r H. inversion H; subst. split; [reflexivity|].
  exists []. rewrite app_nil_r. auto.
Qed.

Lemma appends_emit (P : event -> Prop) e : P e -> appends P (emit e).
Proof.
  intros He m m' r H. inversion H; subst. simpl. split; [reflexivity|].
  exists [e]. auto.
Qed.

Lemma appends_bind {A B} P (c : M A) (f : A -> M B) :
  appends P c -> (forall a, appends P (f a)) -> appends P (bind c f).
Proof.
  intros Hc Hf m m' r H. unfold bind in H.
  destruct (c m) as [m1 [a|e]] eqn:E.
  - destruct (Hc _ _ _ E) as [T1 [evs1 [Tr1 F1]]].
    destruct (Hf a _ _ _ H) as [T2 [evs2 [Tr2 F2]]].
    split; [congruence|].
    exists (evs1 ++ evs2). rewrite Tr2, Tr1, app_assoc.
    split; [reflexivity | apply Forall_app; auto].
  - inversion H; subst.
    destruct (Hc _ _ _ E) as [T1 [evs1 [Tr1 F1]]]. eauto.
Qed.

Lemma appends_try_catch {A} P (c : M A) (h : error -> M A) :
  appends P c -> (forall e, appends P (h e)) -> appends P (try_catch c h).
Proof.
  intros Hc Hh m m' r H. unfold try_catch in H.
  destruct (c m) as [m1 [a|e]] eqn:E.
  - inversion H; subst. eapply Hc; eauto.
  - destruct (Hc _ _ _ E) as [T1 [evs1 [Tr1 F1]]].
    destruct (Hh e _ _ _ H) as [T2 [evs2 [Tr2 F2]]].
    split; [congruence|].
    exists (evs1 ++ evs2). rewrite Tr2, Tr1, app_assoc.
    split; [reflexivity | apply Forall_app; auto].
Qed.

Lemma appends_weaken {A} (P Q : event -> Prop) (c : M A) :
  (forall e, P e -> Q e) -> appends P c -> appends Q c.
Proof.
  intros HPQ Hc m m' r H. destruct (Hc _ _ _ H) as [T [evs [Tr F]]].
  split; [assumption|]. exists evs. split; [assumption|].
  eapply Forall_impl; eauto.
Qed.

Ltac appends_step :=
  first [ apply appends_ret | apply appends_throw | apply appends_lift
        | apply appends_get_trace | apply appends_get_this
        | apply appends_bind; [ | intros ? ]
        | apply appends_try_catch; [ | intros ? ] ].

Section Frames.
Context {B : Behaviour}.

Lemma run_fns_appends stage fs : forall ctx, appends is_run (run_fns stage fs ctx).
Proof.
  induction fs as [|f fs IH]; intros ctx; simpl.
  - apply appends_ret.
  - repeat appends_step; auto. apply appends_emit. exact I.
Qed.

Lemma run_appends names : forall ctx, appends is_run (run names ctx).
Proof.
  induction names as [|n names IH]; intros ctx; simpl.
  - apply appends_ret.
  - appends_step; auto. apply run_fns_appends.
Qed.

Lemma mountPlugins_appends ps : forall hr, appends is_mount (mountPlugins ps hr).
Proof.
  induction ps as [|p ps IH]; intros hr; simpl.
  - apply appends_ret.
  - repeat appends_step; auto. apply appends_emit. exact I.
Qed.

Lemma dismountPlugins_appends ps : forall hr, appends is_dismount (dismountPlugins ps hr).
Proof.
  induction ps as [|p ps IH]; intros hr; simpl.
  - apply appends_ret.
  - repeat appends_step; auto. apply appends_emit. exact I.
Qed.

Lemma find_related_appends ps req : appends is_query (find_related ps req).
Proof.
  induction ps as [|p ps IH]; simpl.
  - apply appends_ret.
  - appends_step. { apply appends_emit. exact I. }
    destruct (isRequestRelated (name p) req); auto. apply appends_ret.
Qed.

Lemma initializePlugins_appends ps : appends is_setup (initializePlugins ps).
Proof.
  induction ps as [|p ps IH]; simpl.
  - apply appends_ret.
  - repeat appends_step; auto. apply appends_emit. exact I.
Qed.

Lemma handleError_appends e j : appends is_callback (handleError e j).
Proof.
  unfold handleError. appends_step. { apply appends_get_this. }
  destruct (errorCallback a).
  - repeat appends_step. apply appends_emit. exact I.
  - apply appends_throw.
Qed.

(** **** Exact traces of the loops *)

Lemma logged_nil m : logged m [] = m.
Proof. destruct m. unfold logged. simpl. rewrite app_nil_r. reflexivity. Qed.

Lemma logged_logged m a b : logged (logged m a) b = logged m (a ++ b).
Proof. unfold logged. simpl. rewrite app_assoc. reflexivity. Qed.

Lemma emit_logged e m : emit e m = (logged m [e], Ok tt).
Proof. reflexivity. Qed.

Lemma mountPlugins_ok ps : forall hr m m' hr',
  mountPlugins ps hr m = (m', Ok hr') ->
  m' = logged m (map (fun p => EvMount (name p)) ps).
Proof.
  induction ps as [|p ps IH]; intros hr m m' hr' H; simpl in H.
  - inversion H; subst. symmetry. apply logged_nil.
  - unfold bind, lift in H. rewrite emit_logged in H.
    destruct (plugin_mount (name p) hr) as [hr1|e]; [|discriminate].
    apply IH in H. rewrite H, logged_logged. reflexivity.
Qed.

Lemma dismountPlugins_ok ps : forall hr m m' hr',
  dismountPlugins ps hr m = (m', Ok hr') ->
  m' = logged m (map (fun p => EvDismount (name p)) ps).
Proof.
  induction ps as [|p ps IH]; intros hr m m' hr' H; simpl in H.
  - inversion H; subst. symmetry. apply logged_nil.
  - unfold bind, lift in H. rewrite emit_logged in H.
    destruct (plugin_dismount (name p) hr) as [hr1|e]; [|discriminate].
    apply IH in H. rewrite H, logged_logged. reflexivity.
Qed.

Lemma initializePlugins_ok ps : forall m m',
  initializePlugins ps m = (m', Ok tt) ->
  m' = logged m (map (fun p => EvInitialize (name p)) ps).
Proof.
  induction ps as [|p ps IH]; intros m m' H; simpl in H.
  - inversion H; subst. symmetry. apply logged_nil.
  - unfold bind, lift, get_trace in H. rewrite emit_logged in H.
    destruct (plugin_initialize (name p) (trace (logged m [EvInitialize (name p)])))
      as [u|e]; [|discriminate].
    apply IH in H. rewrite H, logged_logged. reflexivity.
Qed.

Lemma find_related_none ps req : forall m,
  (forall q, In q ps -> isRequestRelated (name q) req = false) ->
  find_related ps req m = (logged m (map (query req) ps), Ok None).
Proof.
  induction ps as [|p ps IH]; intros m H; simpl.
  - rewrite logged_nil. reflexivity.
  - unfold bind. rewrite emit_logged. rewrite (H p (or_introl eq_refl)).
    rewrite IH by (intros q Hq; apply H; right; exact Hq).
    rewrite logged_logged. reflexivity.
Qed.

Lemma find_related_first before p after req : forall m,
  (forall q, In q before -> isRequestRelated (name q) req = false) ->
  isRequestRelated (name p) req = true ->
  find_related (before ++ p :: after) req m
  = (logged m (map (query req) (before ++ [p])), Ok (Some p)).
Proof.
  induction before as [|b before IH]; intros m Hb Hp; simpl.
  - unfold bind. rewrite emit_logged, Hp. reflexivity.
  - unfold bind. rewrite emit_logged. rewrite (Hb b (or_introl eq_refl)).
    rewrite IH by (auto; intros q Hq; apply Hb; right; exact Hq).
    rewrite logged_logged. reflexivity.
Qed.

(** [find_related] never throws and answers as [List.find]. *)
Lemma find_related_find ps req : forall m,
  snd (find_related ps req m)
  = Ok (find (fun p => isRequestRelated (name p) req) ps).
Proof.
  induction ps as [|p ps IH]; intros m; simpl; [reflexivity|].
  unfold bind. rewrite emit_logged.
  destruct (isRequestRelated (name p) req); [reflexivity | apply IH].
Qed.

(** **** The three phases of [handle_body] *)

Lemma handle_body_phases server m :
  handle_body server m
  = (ctx0 <- resolve server ;;
     ctx <- run APP_MIDDLEWARES ctx0 ;;
     _ <- dismount (fst ctx) ;;
     respond (snd ctx)) m.
Proof.
  unfold handle_body, resolve, respond, bind, get_this.
  destruct (mount (HandleRequest_new (this m) server) m) as [m1 [hr1|e]]; [|reflexivity].
  destruct (find_related (hr_platforms hr1) (requestObject server) m1)
    as [m2 [[p|]|e]]; try reflexivity.
  rewrite emit_logged. unfold ret.
  destruct (run APP_MIDDLEWARES _ _) as [m3 [[hr3 j3]|e]]; reflexivity.
Qed.

Lemma mount_this hr m m' r : mount hr m = (m', r) -> this m' = this m.
Proof. intros H. apply (mountPlugins_appends _ _ _ _ _ H). Qed.

Lemma handleError_callback e j m cb :
  errorCallback (this m) = Some cb ->
  handleError e j m = (logged m [EvErrorCallback cb e], call_errorCallback cb e j).
Proof. intros H. unfold handleError, bind, get_this. rewrite H. reflexivity. Qed.

Lemma handleError_rethrow e j m :
  errorCallback (this m) = None -> handleError e j m = (m, Throw e).
Proof. intros H. unfold handleError, bind, get_this. rewrite H. reflexivity. Qed.

Lemma resolve_appends server :
  appends (fun e => ~ is_write e /\ ~ is_dismount e /\ ~ is_run e) (resolve server).
Proof.
  unfold resolve. appends_step. { apply appends_get_this. }
  appends_step.
  { eapply appends_weaken; [|apply mountPlugins_appends].
    intros [] H; simpl in *; tauto. }
  appends_step.
  { eapply appends_weaken; [|apply find_related_appends].
    intros [] H; simpl in *; tauto. }
  destruct a1 as [p|]; [|apply appends_throw].
  appends_step; [|apply appends_ret].
  apply appends_emit. simpl. tauto.
Qed.

Lemma no_new_event (P : event -> Prop) m m' evs e :
  trace m' = trace m ++ evs -> Forall (fun x => ~ P x) evs ->
  P e -> In e (trace m') -> In e (trace m).
Proof.
  intros Tr F Pe Hin. rewrite Tr in Hin. apply in_app_or in Hin.
  destruct Hin as [Hin|Hin]; [exact Hin|].
  rewrite Forall_forall in F. exfalso. exact (F _ Hin Pe).
Qed.

(** What [handle] does once a platform is bound adds no query of a
    platform and creates no further state object. *)
Lemma bound_request_appends (ctx0 : HandleRequest * Jovo) :
  appends
    (fun e => match e with
              | EvIsRequestRelated _ _ | EvCreateJovoInstance _ => False
              | _ => True
              end)
    (try_catch
       (ctx <- run APP_MIDDLEWARES ctx0 ;;
        _ <- dismount (fst ctx) ;;
        if negb (truthy (response (snd ctx))) then ret tt
        else
          emit (EvSetResponse (response (snd ctx))) ;;
          lift (setResponse (response (snd ctx))))
       (fun e => handleError e None)).
Proof.
  apply appends_try_catch.
  - apply appends_bind.
    { eapply appends_weaken; [|apply run_appends]. intros [] H; simpl in *; tauto. }
    intros ctx. apply appends_bind.
    { eapply appends_weaken; [|apply dismountPlugins_appends].
      intros [] H; simpl in *; tauto. }
    intros _. destruct (negb _); [apply appends_ret|].
    apply appends_bind; [apply appends_emit; exact I | intros _; apply appends_lift].
  - intros e. eapply appends_weaken; [|apply handleError_appends].
    intros [] H; simpl in *; tauto.
Qed.


Lemma handle_body_pipeline server m :
  handle_body server m
  = (ctx <- pipeline server ;; _ <- dismount (fst ctx) ;; respond (snd ctx)) m.
Proof.
  rewrite handle_body_phases. unfold pipeline, bind.
  destruct (resolve server m) as [m1 [c|e]]; reflexivity.
Qed.

Lemma pipeline_appends server :
  appends (fun e => ~ is_write e /\ ~ is_dismount e) (pipeline server).
Proof.
  unfold pipeline. appends_step.
  - eapply appends_weaken; [|apply resolve_appends]. intros e H; simpl in *; tauto.
  - eapply appends_weaken; [|apply run_appends].
    intros [] H; simpl in *; tauto.
Qed.

(** C4, as the code has it.  When the request reaches the end of the
    pipeline, the plugins are dismounted before the response is looked
    at.  When the dismount hooks return: if the conversational state
    object carries no response ([$response] is falsy, as [undefined] is),
    [handle] returns normally and has not called [setResponse]; if it
    carries one, [setResponse] is called with it, and [handle] returns
    when the write does (a failed write goes to [handleError]).  When a
    dismount hook throws, [setResponse] is not called, whether there is a
    response or not: the error goes to [handleError], and without an error
    callback [handle] throws it. *)
Theorem handle_writes_response_only_if_present
  (server : Server) (m m3 : machine) (hr3 : HandleRequest) (jovo : Jovo) :
  pipeline server m = (m3, Ok (hr3, jovo)) ->
  match dismount hr3 m3 with
  | (m4, Ok _) =>
      (truthy (response jovo) = false ->
       handle server m = (m4, Ok tt)
       /\ forall r, In (EvSetResponse r) (trace m4) -> In (EvSetResponse r) (trace m))
      /\ (truthy (response jovo) = true ->
          let m5 := logged m4 [EvSetResponse (response jovo)] in
          handle server m
          = match setResponse (response jovo) with
            | Ok _ => (m5, Ok tt)
            | Throw e => handleError e None m5
            end)
  | (m4, Throw e) =>
      handle server m = handleError e None m4
      /\ (forall r, In (EvSetResponse r) (trace (fst (handle server m))) ->
                    In (EvSetResponse r) (trace m))
      /\ (errorCallback (this m) = None -> handle server m = (m4, Throw e))
  end.
Proof.
  intros Hp.
  destruct (pipeline_appends _ _ _ _ Hp) as [T1 [evs1 [Tr1 F1]]].
  destruct (dismount hr3 m3) as [m4 [hr4|e]] eqn:Hd;
    destruct (dismountPlugins_appends _ _ _ _ _ Hd) as [T2 [evs2 [Tr2 F2]]].
  - assert (Hb : handle_body server m = respond jovo m4).
    { rewrite handle_body_pipeline. unfold bind. rewrite Hp. simpl.
      rewrite Hd. reflexivity. }
    split; intros Ht.
    + split.
      * unfold handle, try_catch. rewrite Hb. unfold respond. rewrite Ht. reflexivity.
      * intros r Hin.
        eapply (no_new_event is_write m m4 (evs1 ++ evs2)); eauto.
        -- rewrite Tr2, Tr1, app_assoc. reflexivity.
        -- apply Forall_app. split.
           { eapply Forall_impl; [|exact F1]. intros a H; simpl in *; tauto. }
           { eapply Forall_impl; [|exact F2]. intros [] H; simpl in *; tauto. }
        -- exact I.
    + cbv zeta. unfold handle, try_catch. rewrite Hb. unfold respond. rewrite Ht.
      simpl. unfold bind, lift, emit, logged.
      destruct (setResponse (response jovo)) as [[]|e]; reflexivity.
  - assert (Hh : handle server m = handleError e None m4).
    { unfold handle, try_catch. rewrite handle_body_pipeline. unfold bind.
      rewrite Hp. simpl. rewrite Hd. reflexivity. }
    split; [exact Hh|]. split.
    + rewrite Hh. intros r Hin.
      destruct (handleError e None m4) as [m5 r5] eqn:E5.
      destruct (handleError_appends _ _ _ _ _ E5) as [_ [evs3 [Tr3 F3]]].
      eapply (no_new_event is_write m m5 (evs1 ++ evs2 ++ evs3)); eauto.
      * rewrite Tr3, Tr2, Tr1, <- !app_assoc. reflexivity.
      * repeat (apply Forall_app; split).
        { eapply Forall_impl; [|exact F1]. simpl. tauto. }
        { eapply Forall_impl; [|exact F2]. intros [] H; simpl in *; tauto. }
        { eapply Forall_impl; [|exact F3]. intros [] H; simpl in *; tauto. }
      * exact I.
    + intros Hn. rewrite Hh. apply handleError_rethrow. congruence.
Qed.

(** C5, as the code has it.  [dismount] is reached only when the request
    was mounted, a platform was found and the pipeline ran to its end: it
    then runs the dismount hooks of the request's plugins in registration
    order, directly after the last stage, and no dismount hook runs before
    that.  When a mount hook or a stage handler throws, or no platform
    matches, [handle] runs no dismount hook. *)
Theorem dismount_runs_only_after_completed_pipeline (server : Server) (m : machine) :
  (forall m3 hr3 jovo m4 hr4,
      pipeline server m = (m3, Ok (hr3, jovo)) ->
      dismount hr3 m3 = (m4, Ok hr4) ->
      trace m4 = trace m3 ++ dismounted (hr_plugins hr3)
      /\ (forall p, In (EvDismount p) (trace m3) -> In (EvDismount p) (trace m))
      /\ exists post, trace (fst (handle server m)) = trace m4 ++ post
                      /\ Forall (fun e => ~ is_dismount e) post)
  /\ (forall m3 e,
      pipeline server m = (m3, Throw e) ->
      forall p, In (EvDismount p) (trace (fst (handle server m))) ->
                In (EvDismount p) (trace m)).
Proof.
  split.
  - intros m3 hr3 jovo m4 hr4 Hp Hd. split; [|split].
    + apply dismountPlugins_ok in Hd. subst m4. reflexivity.
    + intros p Hin.
      destruct (pipeline_appends _ _ _ _ Hp) as [_ [evs1 [Tr1 F1]]].
      eapply (no_new_event is_dismount m m3 evs1); eauto.
      * eapply Forall_impl; [|exact F1]. intros a H; simpl in *; tauto.
      * exact I.
    + unfold handle, try_catch. rewrite handle_body_pipeline. unfold bind.
      rewrite Hp. simpl. rewrite Hd. unfold respond.
      destruct (truthy (response jovo)); simpl.
      * unfold emit, lift. fold (logged m4 [EvSetResponse (response jovo)]).
        destruct (setResponse (response jovo)) as [[]|e].
        { exists [EvSetResponse (response jovo)]. simpl. split; [reflexivity|].
          repeat constructor. simpl. tauto. }
        { destruct (handleError e None (logged m4 [EvSetResponse (response jovo)]))
            as [m6 r6] eqn:E.
          destruct (handleError_appends _ _ _ _ _ E) as [_ [evs [Tr F]]].
          exists (EvSetResponse (response jovo) :: evs). simpl. rewrite Tr. simpl.
          rewrite <- app_assoc. split; [reflexivity|].
          constructor; [simpl; tauto|].
          eapply Forall_impl; [|exact F]. intros [] H; simpl in *; tauto. }
      * exists []. simpl. rewrite app_nil_r. auto.
  - intros m3 e Hp p Hin.
    unfold handle, try_catch in Hin. rewrite handle_body_pipeline in Hin.
    unfold bind in Hin. rewrite Hp in Hin.
    destruct (handleError e None m3) as [m6 r6] eqn:E. simpl in Hin.
    destruct (handleError_appends _ _ _ _ _ E) as [_ [evs [Tr F]]].
    destruct (pipeline_appends _ _ _ _ Hp) as [_ [evs1 [Tr1 F1]]].
    eapply (no_new_event is_dismount m m6 (evs1 ++ evs)); eauto.
    + rewrite Tr, Tr1, app_assoc. reflexivity.
    + apply Forall_app. split.
      * eapply Forall_impl; [|exact F1]. intros a H; simpl in *; tauto.
      * eapply Forall_impl; [|exact F]. intros [] H; simpl in *; tauto.
    + exact I.
Qed.

Lemma initialize_body_ok m m' :
  initialize_body m = (m', Ok tt) ->
  m' = mkMachine (set_initialized (this m)) (trace m ++ setup (plugins (this m))).
Proof.
  unfold initialize_body, bind, get_trace, get_this, set_this, lift.
  rewrite emit_logged.
  destruct (i18n_initialize (trace (logged m [EvI18nInitialize]))) as [u|e];
    [|discriminate].
  destruct (initializePlugins (plugins (this (logged m [EvI18nInitialize])))
              (logged m [EvI18nInitialize])) as [m1 [[]|e]] eqn:E; [|discriminate].
  apply initializePlugins_ok in E. subst m1. intros H. inversion H; subst.
  simpl. unfold set_initialized. simpl. rewrite <- app_assoc. reflexivity.
Qed.

Lemma initialize_body_throw m m' e :
  initialize_body m = (m', Throw e) ->
  this m' = this m /\ exists evs, trace m' = trace m ++ EvI18nInitialize :: evs.
Proof.
  unfold initialize_body, bind, get_trace, get_this, set_this, lift.
  rewrite emit_logged.
  destruct (i18n_initialize (trace (logged m [EvI18nInitialize]))) as [u|e1].
  - destruct (initializePlugins (plugins (this (logged m [EvI18nInitialize])))
                (logged m [EvI18nInitialize])) as [m1 [[]|e2]] eqn:E; [discriminate|].
    intros H. inversion H; subst.
    destruct (initializePlugins_appends _ _ _ _ E) as [T [evs [Tr _]]].
    split; [exact T|]. exists evs. rewrite Tr. simpl. rewrite <- app_assoc.
    reflexivity.
  - intros H. inversion H; subst. split; [reflexivity|]. exists []. reflexivity.
Qed.

Lemma initialize_done m : initialized (this m) = true -> initialize m = (m, Ok tt).
Proof. intros H. unfold initialize, bind, get_this. rewrite H. reflexivity. Qed.

Lemma initialize_todo m :
  initialized (this m) = false ->
  initialize m = try_catch initialize_body (fun e => handleError e None) m.
Proof. intros H. unfold initialize, bind, get_this. rewrite H. reflexivity. Qed.

Lemma handle_appends server : appends (fun _ => True) (handle server).
Proof.
  unfold handle. apply appends_try_catch.
  - intros m m' r H. rewrite handle_body_pipeline in H. revert m m' r H.
    change (appends (fun _ => True)
              (ctx <- pipeline server ;; _ <- dismount (fst ctx) ;; respond (snd ctx))).
    appends_step.
    { eapply appends_weaken; [|apply pipeline_appends]. auto. }
    appends_step.
    { eapply appends_weaken; [|apply dismountPlugins_appends]. auto. }
    unfold respond. destruct (negb _); repeat appends_step.
    apply appends_emit. exact I.
  - intros e. eapply appends_weaken; [|apply handleError_appends]. auto.
Qed.

(** C7.  [initialize] is idempotent once it has succeeded.  A call whose
    [try] block completes on an App that is not initialized performs the
    localization setup once, then the initialization of each registered
    plugin once, in registration order, and marks the App initialized.  On
    an initialized App, [initialize] returns at once: no setup step, no
    change of state, a normal return; and this stays so after any number
    of calls and after requests handled in between. *)
Theorem initialize_idempotent_once_succeeded (m : machine) :
  (initialized (this m) = true -> initialize m = (m, Ok tt))
  /\ (forall m',
      initialized (this m) = false ->
      initialize_body m = (m', Ok tt) ->
      initialize m = (m', Ok tt)
      /\ isInitialized (this m') = true
      /\ trace m' = trace m ++ setup (plugins (this m))
      /\ initialize m' = (m', Ok tt)
      /\ (forall n, Nat.iter n (fun x => fst (initialize x)) m' = m')
      /\ (forall server,
            let m'' := fst (handle server m') in
            initialize m'' = (m'', Ok tt))).
Proof.
  split; [apply initialize_done|].
  intros m' Hf Hb.
  pose proof (initialize_body_ok _ _ Hb) as E.
  assert (Hi : initialized (this m') = true) by (subst m'; reflexivity).
  split; [|split; [|split; [|split; [|split]]]].
  - rewrite (initialize_todo _ Hf). unfold try_catch. rewrite Hb. reflexivity.
  - exact Hi.
  - subst m'. reflexivity.
  - apply initialize_done, Hi.
  - induction n as [|n IH]; simpl; [reflexivity|].
    rewrite IH, (initialize_done _ Hi). reflexivity.
  - intros server m''. apply initialize_done.
    unfold m''. destruct (handle server m') as [m2 r] eqn:E2. simpl.
    destruct (handle_appends _ _ _ _ E2) as [T _]. rewrite T. exact Hi.
Qed.

(** C8.  [handleError] calls the registered error callback with the error
    and returns what it returns; with no callback it throws the error
    again.  [onError] keeps one callback, the last one set.  A failure of
    the [try] block of [initialize] or of [handle] never leaves the method
    directly: the method's outcome is that of [handleError] on that
    failure.  So with a callback that returns, neither method throws. *)
Theorem handleError_is_the_only_error_sink
  (server : Server) (m : machine) (e : error) (jovo : option Jovo) :
  (forall cb, errorCallback (this m) = Some cb ->
     handleError e jovo m
     = (logged m [EvErrorCallback cb e], call_errorCallback cb e jovo))
  /\ (errorCallback (this m) = None -> handleError e jovo m = (m, Throw e))
  /\ (forall cb, errorCallback (this (fst (onError cb m))) = Some cb)
  /\ (forall m' e',
        initialized (this m) = false ->
        initialize_body m = (m', Throw e') ->
        initialize m = handleError e' None m')
  /\ (forall m' e',
        handle_body server m = (m', Throw e') ->
        handle server m = handleError e' None m')
  /\ (forall cb,
        errorCallback (this m) = Some cb ->
        (forall e' j, call_errorCallback cb e' j = Ok tt) ->
        snd (initialize m) = Ok tt /\ snd (handle server m) = Ok tt).
Proof.
  split; [intros cb H; apply handleError_callback, H|].
  split; [apply handleError_rethrow|].
  split; [reflexivity|].
  split.
  { intros m' e' Hf Hb. rewrite (initialize_todo _ Hf).
    unfold try_catch. rewrite Hb. reflexivity. }
  split.
  { intros m' e' Hb. unfold handle, try_catch. rewrite Hb. reflexivity. }
  intros cb Hcb Hret. split.
  - destruct (initialized (this m)) eqn:Hi.
    + rewrite (initialize_done _ Hi). reflexivity.
    + rewrite (initialize_todo _ Hi). unfold try_catch.
      destruct (initialize_body m) as [m1 [[]|e1]] eqn:E; [reflexivity|].
      rewrite (handleError_callback e1 None m1 cb).
      * simpl. apply Hret.
      * destruct (initialize_body_throw _ _ _ E) as [T _]. rewrite T. exact Hcb.
  - unfold handle, try_catch.
    destruct (handle_body server m) as [m1 [[]|e1]] eqn:E; [reflexivity|].
    rewrite (handleError_callback e1 None m1 cb).
    + simpl. apply Hret.
    + assert (A : appends (fun _ => True) (handle_body server)).
      { intros x x' r H. rewrite handle_body_pipeline in H. revert x x' r H.
        change (appends (fun _ => True)
              (ctx <- pipeline server ;; _ <- dismount (fst ctx) ;; respond (snd ctx))).
        appends_step.
        { eapply appends_weaken; [|apply pipeline_appends]. auto. }
        appends_step.
        { eapply appends_weaken; [|apply dismountPlugins_appends]. auto. }
        unfold respond. destruct (negb _); repeat appends_step.
        apply appends_emit. exact I. }
      destruct (A _ _ _ E) as [T _]. rewrite T. exact Hcb.
Qed.

(** C10.  When the [try] block of [initialize] fails, the App is still not
    initialized, and the failure is the one [handleError] receives.  The
    next call is therefore not a no-op: it runs the [try] block again,
    starting with the localization setup, and if that attempt completes it
    has set up localization and every registered plugin and marks the App
    initialized. *)
Theorem initialize_failure_leaves_app_retryable (m m1 : machine) (e : error) :
  initialized (this m) = false ->
  initialize_body m = (m1, Throw e) ->
  initialized (this m1) = false
  /\ initialize m = handleError e None m1
  /\ let m2 := fst (initialize m) in
     initialized (this m2) = false
     /\ initialize m2 = try_catch initialize_body (fun e => handleError e None) m2
     /\ (exists evs, trace (fst (initialize m2)) = trace m2 ++ EvI18nInitialize :: evs)
     /\ (forall m3,
           initialize_body m2 = (m3, Ok tt) ->
           initialize m2 = (m3, Ok tt)
           /\ initialized (this m3) = true
           /\ trace m3 = trace m2 ++ setup (plugins (this m))).
Proof.
  intros Hf Hb.
  destruct (initialize_body_throw _ _ _ Hb) as [T1 _].
  assert (H1 : initialized (this m1) = false) by (rewrite T1; exact Hf).
  assert (Hi : initialize m = handleError e None m1).
  { rewrite (initialize_todo _ Hf). unfold try_catch. rewrite Hb. reflexivity. }
  split; [exact H1|]. split; [exact Hi|]. cbv zeta.
  assert (T2 : this (fst (initialize m)) = this m).
  { rewrite Hi. destruct (handleError e None m1) as [m2 r2] eqn:E. simpl.
    destruct (handleError_appends _ _ _ _ _ E) as [T _]. congruence. }
  set (m2 := fst (initialize m)) in *.
  assert (H2 : initialized (this m2) = false) by (rewrite T2; exact Hf).
  split; [exact H2|]. split; [apply initialize_todo, H2|]. split.
  - rewrite (initialize_todo _ H2). unfold try_catch.
    destruct (initialize_body m2) as [m3 [[]|e3]] eqn:E.
    + apply initialize_body_ok in E. subst m3. simpl. eexists. reflexivity.
    + destruct (initialize_body_throw _ _ _ E) as [_ [evs Tr]].
      destruct (handleError e3 None m3) as [m4 r4] eqn:E4. simpl.
      destruct (handleError_appends _ _ _ _ _ E4) as [_ [evs4 [Tr4 _]]].
      exists (evs ++ evs4). rewrite Tr4, Tr, <- app_assoc. reflexivity.
  - intros m3 Hb3. pose proof (initialize_body_ok _ _ Hb3) as E3.
    split; [|split].
    + rewrite (initialize_todo _ H2). unfold try_catch. rewrite Hb3. reflexivity.
    + subst m3. reflexivity.
    + subst m3. simpl. rewrite T2. reflexivity.
Qed.

(** **** Stopping the pipeline *)

Lemma mc_fns_remove names : forall mc n,
  (forall mw, In mw mc -> In (mw_name mw) names) ->
  mc_fns n (mc_remove names mc) = [].
Proof.
  unfold mc_fns. induction mc as [|mw mc IH]; intros n H; simpl; [reflexivity|].
  assert (Hin : existsb (String.eqb (mw_name mw)) names = true).
  { apply existsb_exists. exists (mw_name mw). split.
    - apply H. left. reflexivity.
    - apply String.eqb_refl. }
  rewrite Hin. simpl.
  destruct (String.eqb (mw_name mw) n); [reflexivity|].
  apply IH. intros x Hx. apply H. right. exact Hx.
Qed.

Lemma stop_clears hr n :
  mc_fns n (hr_middlewareCollection (stopMiddlewareExecution hr)) = [].
Proof.
  simpl. apply mc_fns_remove. intros mw H. unfold mc_names.
  apply in_map. exact H.
Qed.

Lemma run_cleared names : forall hr jovo m,
  (forall n, mc_fns n (hr_middlewareCollection hr) = []) ->
  run names (hr, jovo) m = (m, Ok (hr, jovo)).
Proof.
  induction names as [|n names IH]; intros hr jovo m H; simpl; [reflexivity|].
  unfold bind. simpl. rewrite (H n). simpl. apply IH, H.
Qed.

Lemma run_fns_app stage fs gs ctx m :
  run_fns stage (fs ++ gs) ctx m
  = (ctx' <- run_fns stage fs ctx ;; run_fns stage gs ctx') m.
Proof.
  revert ctx m. induction fs as [|f fs IH]; intros ctx m; simpl.
  - reflexivity.
  - unfold bind at 1 2 3 4. simpl. unfold lift.
    destruct (call_fn f ctx) as [ctx1|e]; [|reflexivity].
    rewrite IH. reflexivity.
Qed.

(** C9.  [stopMiddlewareExecution] empties the handler list of every stage
    of the request's middleware collection.  Running any stages on the
    request after that invokes no handler and does not throw.  So when a
    stage ends with the request stopped, as when its last handler calls
    [stopMiddlewareExecution], no handler of a later stage runs and the
    run returns normally. *)
Theorem stopMiddlewareExecution_skips_remaining_stages :
  (forall hr n,
      mc_fns n (hr_middlewareCollection (stopMiddlewareExecution hr)) = [])
  /\ (forall names hr jovo m,
      run names (stopMiddlewareExecution hr, jovo) m
      = (m, Ok (stopMiddlewareExecution hr, jovo)))
  /\ (forall stage later ctx m m' hr' jovo',
      run_fns stage (mc_fns stage (hr_middlewareCollection (fst ctx))) ctx m
      = (m', Ok (hr', jovo')) ->
      (forall n, mc_fns n (hr_middlewareCollection hr') = []) ->
      run (stage :: later) ctx m = (m', Ok (hr', jovo')))
  /\ (forall stage later before f hr jovo m m1 ctx1 hr2 jovo2,
      mc_fns stage (hr_middlewareCollection hr) = before ++ [f] ->
      run_fns stage before (hr, jovo) m = (m1, Ok ctx1) ->
      call_fn f ctx1 = Ok (stopMiddlewareExecution hr2, jovo2) ->
      run (stage :: later) (hr, jovo) m
      = (logged m1 [EvRun stage f], Ok (stopMiddlewareExecution hr2, jovo2))).
Proof.
  split; [apply stop_clears|].
  split; [intros; apply run_cleared; intros; apply stop_clears|].
  split.
  - intros stage later ctx m m' hr' jovo' Hs Hc. simpl. unfold bind.
    rewrite Hs. apply run_cleared, Hc.
  - intros stage later before f hr jovo m m1 ctx1 hr2 jovo2 Hfs Hb Hf.
    simpl. unfold bind at 1. simpl. rewrite Hfs, run_fns_app. unfold bind at 1.
    rewrite Hb. simpl. unfold bind, lift. rewrite Hf. simpl. unfold ret.
    apply run_cleared. intros n. apply stop_clears.
Qed.

(** **** The stage catalog *)

Lemma run_fns_plain stage fs : forall ctx m,
  (forall f, In f fs -> plain_handler f) ->
  exists ctx',
    run_fns stage fs ctx m = (logged m (map (EvRun stage) fs), Ok ctx')
    /\ hr_middlewareCollection (fst ctx') = hr_middlewareCollection (fst ctx).
Proof.
  induction fs as [|f fs IH]; intros [hr jovo] m H; simpl.
  - exists (hr, jovo). rewrite logged_nil. auto.
  - destruct (H f (or_introl eq_refl) hr jovo) as [hr1 [j1 [E1 K1]]].
    destruct (IH (hr1, j1) (logged m [EvRun stage f])) as [ctx' [E2 K2]].
    { intros g Hg. apply H. right. exact Hg. }
    exists ctx'. unfold bind, lift. rewrite emit_logged, E1, E2, logged_logged.
    split; [reflexivity|]. simpl in *. congruence.
Qed.

Lemma run_plain names : forall ctx m,
  (forall f, plain_handler f) ->
  exists ctx',
    run names ctx m
    = (logged m (stage_events (hr_middlewareCollection (fst ctx)) names), Ok ctx')
    /\ hr_middlewareCollection (fst ctx') = hr_middlewareCollection (fst ctx).
Proof.
  induction names as [|n names IH]; intros ctx m H; simpl.
  - exists ctx. rewrite logged_nil. auto.
  - destruct (run_fns_plain n (mc_fns n (hr_middlewareCollection (fst ctx))) ctx m)
      as [ctx1 [E1 K1]]; [intros; apply H|].
    destruct (IH ctx1 (logged m (map (EvRun n) (mc_fns n (hr_middlewareCollection (fst ctx))))) H)
      as [ctx2 [E2 K2]].
    exists ctx2. unfold bind. rewrite E1, E2, logged_logged, K1.
    split; [reflexivity | congruence].
Qed.


End Frames.

(** **** The theorems at concrete requests *)



(** C4, as stated, fails when a dismount hook throws.  The pipeline has
    completed in both requests.  In the first the state object carries the
    response ["hello"], and [handle] returns, through the error callback,
    without having written it.  In the second there is no response and no
    error callback, and [handle] does not return normally: it throws. *)
Lemma response_dropped_when_dismount_throws :
  (exists m3 hr3 jovo,
     pipeline (B := DemoMore.dismount_fails) Demo.google_request
       (Demo.start Demo.answering_app) = (m3, Ok (hr3, jovo))
     /\ response jovo = VStr "hello")
  /\ handle (B := DemoMore.dismount_fails) Demo.google_request
       (Demo.start Demo.answering_app)
     = (mkMachine Demo.answering_app
          [EvMount "RouterPlugin"; EvMount "Alexa"; EvMount "GoogleAssistant";
           EvIsRequestRelated "Alexa" (VStr "GoogleAssistant");
           EvIsRequestRelated "GoogleAssistant" (VStr "GoogleAssistant");
           EvCreateJovoInstance "GoogleAssistant";
           EvRun "request" 0; EvRun "response.output" 1;
           EvDismount "RouterPlugin"; EvDismount "Alexa";
           EvErrorCallback 7 (Thrown (VStr "dismount"))],
        Ok tt)
  /\ (exists m3 hr3 jovo,
        pipeline (B := DemoMore.dismount_fails) Demo.google_request
          (Demo.start DemoMore.unguarded_app) = (m3, Ok (hr3, jovo))
        /\ response jovo = VUndef)
  /\ snd (handle (B := DemoMore.dismount_fails) Demo.google_request
            (Demo.start DemoMore.unguarded_app))
     = Throw (Thrown (VStr "dismount")).
Proof.
  split; [eexists _, _, _; split; reflexivity|].
  split; [reflexivity|].
  split; [eexists _, _, _; split; reflexivity|].
  reflexivity.
Qed.

Lemma handle_writes_response_only_if_present_witness :
  snd (handle (B := Demo.steady) Demo.google_request (Demo.start Demo.silent_app))
  = Ok tt
  /\ (forall r,
        ~ In (EvSetResponse r)
            (trace (fst (handle (B := Demo.steady) Demo.google_request
                           (Demo.start Demo.silent_app)))))
  /\ In (EvSetResponse (VStr "hello"))
       (trace (fst (handle (B := Demo.steady) Demo.google_request
                      (Demo.start Demo.answering_app))))
  /\ (forall r,
        ~ In (EvSetResponse r)
            (trace (fst (handle (B := DemoMore.dismount_fails) Demo.google_request
                           (Demo.start Demo.answering_app))))).
Proof.
  split; [|split; [|split]].
  - assert (H := handle_writes_response_only_if_present (B := Demo.steady)
                   Demo.google_request (Demo.start Demo.silent_app) _ _ _ eq_refl).
    match type of H with
    | match ?d with _ => _ end =>
        let v := eval vm_compute in d in change d with v in H
    end.
    cbv beta iota in H. destruct H as [H _]. destruct (H eq_refl) as [E _].
    rewrite E. reflexivity.
  - assert (H := handle_writes_response_only_if_present (B := Demo.steady)
                   Demo.google_request (Demo.start Demo.silent_app) _ _ _ eq_refl).
    match type of H with
    | match ?d with _ => _ end =>
        let v := eval vm_compute in d in change d with v in H
    end.
    cbv beta iota in H. destruct H as [H _]. destruct (H eq_refl) as [E N].
    intros r Hin. rewrite E in Hin. exact (N r Hin).
  - assert (H := handle_writes_response_only_if_present (B := Demo.steady)
                   Demo.google_request (Demo.start Demo.answering_app) _ _ _ eq_refl).
    match type of H with
    | match ?d with _ => _ end =>
        let v := eval vm_compute in d in change d with v in H
    end.
    cbv beta iota in H. destruct H as [_ H]. rewrite (H eq_refl). simpl. tauto.
  - assert (H := handle_writes_response_only_if_present (B := DemoMore.dismount_fails)
                   Demo.google_request (Demo.start Demo.answering_app) _ _ _ eq_refl).
    match type of H with
    | match ?d with _ => _ end =>
        let v := eval vm_compute in d in change d with v in H
    end.
    cbv beta iota in H. destruct H as [_ [N _]].
    intros r Hin. exact (N r Hin).
Defined.

(** C5, as stated, fails: a handler of the [request] stage throws, the
    three plugins were mounted, and [handle] returns (through the error
    callback) without having run any dismount hook. *)
Lemma dismount_skipped_when_a_handler_throws :
  trace (fst (handle (B := Demo.steady) Demo.google_request
                (Demo.start Demo.failing_app)))
  = [EvMount "RouterPlugin"; EvMount "Alexa"; EvMount "GoogleAssistant";
     EvIsRequestRelated "Alexa" (VStr "GoogleAssistant");
     EvIsRequestRelated "GoogleAssistant" (VStr "GoogleAssistant");
     EvCreateJovoInstance "GoogleAssistant";
     EvRun "request" 3;
     EvErrorCallback 7 (Thrown (VStr "boom"))]
  /\ In Demo.RouterPlugin (plugins Demo.failing_app)
  /\ ~ In (EvDismount "RouterPlugin")
         (trace (fst (handle (B := Demo.steady) Demo.google_request
                        (Demo.start Demo.failing_app)))).
Proof.
  split; [reflexivity|]. split; [left; reflexivity|].
  simpl. intuition discriminate.
Qed.

Lemma dismount_runs_only_after_completed_pipeline_witness :
  (exists post,
     trace (fst (handle (B := Demo.steady) Demo.google_request
                   (Demo.start Demo.answering_app)))
     = [EvMount "RouterPlugin"; EvMount "Alexa"; EvMount "GoogleAssistant";
        EvIsRequestRelated "Alexa" (VStr "GoogleAssistant");
        EvIsRequestRelated "GoogleAssistant" (VStr "GoogleAssistant");
        EvCreateJovoInstance "GoogleAssistant";
        EvRun "request" 0; EvRun "response.output" 1]
       ++ dismounted Demo.demo_plugins ++ post)
  /\ forall p,
       ~ In (EvDismount p)
           (trace (fst (handle (B := Demo.steady) Demo.google_request
                          (Demo.start Demo.failing_app)))).
Proof.
  destruct (dismount_runs_only_after_completed_pipeline (B := Demo.steady)
              Demo.google_request (Demo.start Demo.answering_app)) as [H _].
  destruct (H _ _ _ _ _ eq_refl eq_refl) as [E [_ [post [Ep _]]]].
  split.
  - exists post. rewrite Ep, E. rewrite <- app_assoc. reflexivity.
  - destruct (dismount_runs_only_after_completed_pipeline (B := Demo.steady)
                Demo.google_request (Demo.start Demo.failing_app)) as [_ H2].
    intros p Hin. exact (H2 _ _ eq_refl p Hin).
Defined.

Lemma initialize_idempotent_once_succeeded_witness :
  initialized (this (Demo.start Demo.silent_app)) = false
  /\ initialize (B := Demo.steady) (Demo.start Demo.silent_app)
     = (mkMachine (set_initialized Demo.silent_app)
          [EvI18nInitialize; EvInitialize "RouterPlugin"; EvInitialize "Alexa";
           EvInitialize "GoogleAssistant"],
        Ok tt)
  /\ initialize (B := Demo.steady)
       (fst (initialize (B := Demo.steady) (Demo.start Demo.silent_app)))
     = (fst (initialize (B := Demo.steady) (Demo.start Demo.silent_app)), Ok tt).
Proof.
  split; [reflexivity|].
  destruct (initialize_idempotent_once_succeeded (B := Demo.steady)
              (Demo.start Demo.silent_app)) as [_ H].
  destruct (H _ eq_refl eq_refl) as [E [_ [_ [E2 _]]]].
  split; [exact E|]. rewrite E. exact E2.
Defined.

Lemma handleError_is_the_only_error_sink_witness :
  handle_body (B := Demo.steady) Demo.google_request (Demo.start Demo.failing_app)
  = (logged (Demo.start Demo.failing_app)
       [EvMount "RouterPlugin"; EvMount "Alexa"; EvMount "GoogleAssistant";
        EvIsRequestRelated "Alexa" (VStr "GoogleAssistant");
        EvIsRequestRelated "GoogleAssistant" (VStr "GoogleAssistant");
        EvCreateJovoInstance "GoogleAssistant";
        EvRun "request" 3],
     Throw (Thrown (VStr "boom")))
  /\ snd (handle (B := Demo.steady) Demo.google_request (Demo.start Demo.failing_app))
     = Ok tt
  /\ In (EvErrorCallback 7 (Thrown (VStr "boom")))
       (trace (fst (handle (B := Demo.steady) Demo.google_request
                      (Demo.start Demo.failing_app)))).
Proof.
  split; [reflexivity|].
  destruct (handleError_is_the_only_error_sink (B := Demo.steady)
              Demo.google_request (Demo.start Demo.failing_app)
              (Thrown (VStr "boom")) None) as [Hcb [_ [_ [_ [Hh Hall]]]]].
  split.
  - destruct (Hall 7 eq_refl) as [_ E]; [intros; reflexivity | exact E].
  - rewrite (Hh _ _ eq_refl). simpl. tauto.
Defined.

Lemma stopMiddlewareExecution_skips_remaining_stages_witness :
  mc_fns "dialogue.router" (middlewareCollection Demo.stopping_app) = [2]
  /\ run (B := Demo.steady)
       ["dialogue.router"; "dialogue.logic"; "dialogue.end"; "response.start";
        "response.output"; "response.tts"; "response.end"]
       (HandleRequest_new Demo.stopping_app Demo.google_request,
        mkJovo (VStr "request") VUndef)
       (Demo.start Demo.stopping_app)
     = (logged (Demo.start Demo.stopping_app) [EvRun "dialogue.router" 2],
        Ok (stopMiddlewareExecution
              (HandleRequest_new Demo.stopping_app Demo.google_request),
            mkJovo (VStr "request") VUndef)).
Proof.
  split; [reflexivity|].
  destruct (stopMiddlewareExecution_skips_remaining_stages (B := Demo.steady))
    as [_ [_ [_ H]]].
  apply (H "dialogue.router" _ [] 2 _ _ _ (Demo.start Demo.stopping_app)
           (HandleRequest_new Demo.stopping_app Demo.google_request,
            mkJovo (VStr "request") VUndef)); reflexivity.
Defined.

Lemma initialize_failure_leaves_app_retryable_witness :
  initialized (this (Demo.start Demo.silent_app)) = false
  /\ initialize_body (B := Demo.flaky) (Demo.start Demo.silent_app)
     = (logged (Demo.start Demo.silent_app) [EvI18nInitialize],
        Throw (Thrown (VStr "i18n")))
  /\ initialized
       (this (fst (initialize (B := Demo.flaky) (Demo.start Demo.silent_app))))
     = false
  /\ initialize (B := Demo.flaky)
       (fst (initialize (B := Demo.flaky) (Demo.start Demo.silent_app)))
     = (mkMachine (set_initialized Demo.silent_app)
          [EvI18nInitialize; EvErrorCallback 7 (Thrown (VStr "i18n"));
           EvI18nInitialize; EvInitialize "RouterPlugin"; EvInitialize "Alexa";
           EvInitialize "GoogleAssistant"],
        Ok tt).
Proof.
  split; [reflexivity|]. split; [reflexivity|].
  destruct (initialize_failure_leaves_app_retryable (B := Demo.flaky)
              (Demo.start Demo.silent_app) _ _ eq_refl eq_refl)
    as [_ [_ [Hf [_ [_ Hretry]]]]].
  split; [exact Hf|].
  destruct (Hretry _ eq_refl) as [E _]. exact E.
Defined.

End PipelineTheory.

(* ===================================================================== *)
(** ** More properties of [initialize], [handle] and [onError] *)
(* ===================================================================== *)

Module PipelineMoreTheory.
Import Lodash Pipeline PipelineTheory PipelineMore.
Local Open Scope m_scope.

Lemma same_phase_sorted k evs :
  Forall (fun e => phase e = k /\ repeatable e) evs -> StronglySorted before evs.
Proof.
  induction evs as [|a evs IH]; intros H; constructor; inversion H; subst; auto.
  apply Forall_forall. intros b Hb. rewrite Forall_forall in H3.
  right. destruct H2 as [Ha Hr]. destruct (H3 b Hb) as [Hb' _].
  split; [congruence | exact Hr].
Qed.

Lemma sorted_app (l1 l2 : list event) :
  StronglySorted before l1 -> StronglySorted before l2 ->
  (forall a b, In a l1 -> In b l2 -> before a b) ->
  StronglySorted before (l1 ++ l2).
Proof.
  induction l1 as [|x l1 IH]; simpl; intros H1 H2 H; [exact H2|].
  inversion H1; subst. constructor.
  - apply IH; auto.
  - apply Forall_app. split; [assumption|].
    apply Forall_forall. intros b Hb. apply H; auto.
Qed.

Lemma ranked_nil {A} lo hi (c : M A) :
  (forall m, fst (c m) = m) -> ranked lo hi c.
Proof.
  intros H m m' r E. exists []. rewrite app_nil_r.
  specialize (H m). rewrite E in H. simpl in H. subst m'.
  repeat split; constructor.
Qed.

Lemma ranked_emit lo hi e : lo <= phase e <= hi -> ranked lo hi (emit e).
Proof.
  intros H m m' r E. inversion E; subst. exists [e]. simpl.
  repeat split; repeat constructor; lia.
Qed.

Lemma ranked_weaken {A} lo hi lo' hi' (c : M A) :
  lo' <= lo -> hi <= hi' -> ranked lo hi c -> ranked lo' hi' c.
Proof.
  intros Hl Hh Hc m m' r E. destruct (Hc _ _ _ E) as [evs [Tr [S F]]].
  exists evs. repeat split; auto. eapply Forall_impl; [|exact F].
  simpl. intros. lia.
Qed.

Lemma ranked_of_appends {A} (P : event -> Prop) k (c : M A) :
  appends P c -> (forall e, P e -> phase e = k /\ repeatable e) -> ranked k k c.
Proof.
  intros Hc HP m m' r E. destruct (Hc _ _ _ E) as [_ [evs [Tr F]]].
  exists evs. split; [exact Tr|]. split.
  - apply (same_phase_sorted k). eapply Forall_impl; [|exact F]. exact HP.
  - eapply Forall_impl; [|exact F]. intros e He. destruct (HP e He). lia.
Qed.

Lemma ranked_bind {A C} lo k k' hi (c : M A) (f : A -> M C) :
  ranked lo k c -> (forall a, ranked k' hi (f a)) -> k < k' -> k <= hi -> lo <= k' ->
  ranked lo hi (bind c f).
Proof.
  intros Hc Hf Hk Hkh Hlk m m' r E. unfold bind in E.
  destruct (c m) as [m1 [a|e]] eqn:E1.
  - destruct (Hc _ _ _ E1) as [evs1 [Tr1 [S1 F1]]].
    destruct (Hf a _ _ _ E) as [evs2 [Tr2 [S2 F2]]].
    exists (evs1 ++ evs2). rewrite Tr2, Tr1, app_assoc.
    split; [reflexivity|]. split.
    + apply sorted_app; auto. intros x y Hx Hy. left.
      rewrite Forall_forall in F1, F2. specialize (F1 x Hx). specialize (F2 y Hy).
      lia.
    + apply Forall_app. split.
      * eapply Forall_impl; [|exact F1]. simpl. intros. lia.
      * eapply Forall_impl; [|exact F2]. simpl. intros. lia.
  - inversion E; subst. destruct (Hc _ _ _ E1) as [evs1 [Tr1 [S1 F1]]].
    exists evs1. repeat split; auto.
    eapply Forall_impl; [|exact F1]. simpl. intros. lia.
Qed.

Lemma ranked_try_catch {A} lo k k' hi (c : M A) (h : error -> M A) :
  ranked lo k c -> (forall e, ranked k' hi (h e)) -> k < k' -> k <= hi -> lo <= k' ->
  ranked lo hi (try_catch c h).
Proof.
  intros Hc Hh Hk Hkh Hlk m m' r E. unfold try_catch in E.
  destruct (c m) as [m1 [a|e]] eqn:E1.
  - inversion E; subst. destruct (Hc _ _ _ E1) as [evs1 [Tr1 [S1 F1]]].
    exists evs1. repeat split; auto.
    eapply Forall_impl; [|exact F1]. simpl. intros. lia.
  - destruct (Hc _ _ _ E1) as [evs1 [Tr1 [S1 F1]]].
    destruct (Hh e _ _ _ E) as [evs2 [Tr2 [S2 F2]]].
    exists (evs1 ++ evs2). rewrite Tr2, Tr1, app_assoc.
    split; [reflexivity|]. split.
    + apply sorted_app; auto. intros x y Hx Hy. left.
      rewrite Forall_forall in F1, F2. specialize (F1 x Hx). specialize (F2 y Hy).
      lia.
    + apply Forall_app. split.
      * eapply Forall_impl; [|exact F1]. simpl. intros. lia.
      * eapply Forall_impl; [|exact F2]. simpl. intros. lia.
Qed.

Lemma ranked_ext {A} lo hi (c c' : M A) :
  (forall m, c m = c' m) -> ranked lo hi c' -> ranked lo hi c.
Proof. intros H Hc m m' r E. rewrite H in E. eapply Hc; eauto. Qed.

Lemma ranked_bind_pure {A C} lo hi (c : M A) (f : A -> M C) :
  (forall m, exists a, c m = (m, Ok a)) -> (forall a, ranked lo hi (f a)) ->
  ranked lo hi (bind c f).
Proof.
  intros Hc Hf m m' r E. unfold bind in E. destruct (Hc m) as [a Ea].
  rewrite Ea in E. eapply Hf; eauto.
Qed.

Lemma ranked_this {A} lo hi (f : App -> M A) :
  (forall a, ranked lo hi (f a)) -> ranked lo hi (bind get_this f).
Proof. apply ranked_bind_pure. intros m. exists (this m). reflexivity. Qed.

Lemma ranked_no_setup lo evs :
  Forall (fun e => lo <= phase e <= 6) evs -> Forall (fun e => ~ is_setup e) evs.
Proof.
  intros F. eapply Forall_impl; [|exact F]. intros [] H; simpl in *; try tauto; lia.
Qed.

Section Phases.
Context {B : Behaviour}.

Lemma resolve_ranked server : ranked 0 2 (resolve server).
Proof.
  unfold resolve. apply ranked_this. intros a.
  apply (ranked_bind 0 0 1 2); try lia.
  { apply (ranked_of_appends is_mount); [apply mountPlugins_appends|].
    intros [] H; simpl in *; try contradiction; auto. }
  intros hr. apply (ranked_bind 1 1 2 2); try lia.
  { apply (ranked_of_appends is_query); [apply find_related_appends|].
    intros [] H; simpl in *; try contradiction; auto. }
  intros [p|].
  - apply (ranked_bind 2 2 3 2); try lia.
    + apply ranked_emit. simpl. lia.
    + intros _. apply ranked_nil. reflexivity.
  - apply ranked_nil. reflexivity.
Qed.

Lemma respond_ranked jovo : ranked 5 5 (respond jovo).
Proof.
  unfold respond. destruct (negb _).
  - apply ranked_nil. reflexivity.
  - apply (ranked_bind 5 5 6 5); try lia.
    + apply ranked_emit. simpl. lia.
    + intros _. apply ranked_nil. reflexivity.
Qed.

Lemma handleError_ranked e j : ranked 6 6 (handleError e j).
Proof.
  unfold handleError. apply ranked_this. intros a.
  destruct (errorCallback a).
  - apply (ranked_bind 6 6 7 6); try lia.
    + apply ranked_emit. simpl. lia.
    + intros _. apply ranked_nil. reflexivity.
  - apply ranked_nil. reflexivity.
Qed.

Lemma handle_body_ranked server : ranked 0 5 (handle_body server).
Proof.
  eapply ranked_ext; [intros m; apply handle_body_phases|].
  apply (ranked_bind 0 2 3 5); try lia; [apply resolve_ranked|]. intros ctx0.
  apply (ranked_bind 3 3 4 5); try lia.
  { apply (ranked_of_appends is_run); [apply run_appends|].
    intros [] H; simpl in *; try contradiction; auto. }
  intros ctx. apply (ranked_bind 4 4 5 5); try lia.
  { apply (ranked_of_appends is_dismount); [apply dismountPlugins_appends|].
    intros [] H; simpl in *; try contradiction; auto. }
  intros _. apply respond_ranked.
Qed.

Lemma handle_ranked server : ranked 0 6 (handle server).
Proof.
  unfold handle. apply (ranked_try_catch 0 5 6 6); try lia.
  - apply handle_body_ranked.
  - intros e. apply handleError_ranked.
Qed.

Lemma handle_body_this server m m' r :
  handle_body server m = (m', r) -> this m' = this m.
Proof.
  intros H. rewrite handle_body_pipeline in H. revert m m' r H.
  assert (A : appends (fun _ => True)
            (ctx <- pipeline server ;; _ <- dismount (fst ctx) ;; respond (snd ctx))).
  { appends_step.
    { eapply appends_weaken; [|apply pipeline_appends]. auto. }
    appends_step.
    { eapply appends_weaken; [|apply dismountPlugins_appends]. auto. }
    unfold respond. destruct (negb _); repeat appends_step.
    apply appends_emit. exact I. }
  intros m m' r H. apply (A _ _ _ H).
Qed.

(** X1.  The steps of one call of [handle] happen in the order of the
    statements of its [try] block: the mount hooks, then the platforms
    asked, then the creation of the conversational state object, then the
    stage handlers, then the dismount hooks, then the write of the
    response, and last the error callback.  No step of an earlier phase
    follows one of a later phase, so the state object is created at most
    once, the response is written at most once and the error callback is
    called at most once; and no setup step of [initialize] is taken. *)
Theorem handle_steps_follow_the_try_block (server : Server) (m : machine) :
  exists evs,
    trace (fst (handle server m)) = trace m ++ evs
    /\ StronglySorted before evs
    /\ Forall (fun e => phase e <= 6) evs
    /\ (forall l1 a l2 b l3,
          evs = l1 ++ a :: l2 ++ b :: l3 -> phase a <= phase b)
    /\ (forall l1 a l2 b l3,
          evs = l1 ++ a :: l2 ++ b :: l3 -> phase a = phase b -> repeatable a).
Proof.
  destruct (handle server m) as [m' r] eqn:E.
  destruct (handle_ranked _ _ _ _ E) as [evs [Tr [S F]]].
  exists evs. simpl. split; [exact Tr|]. split; [exact S|]. split.
  { eapply Forall_impl; [|exact F]. simpl. intros. lia. }
  assert (P : forall l1 a l2 b l3, evs = l1 ++ a :: l2 ++ b :: l3 -> before a b).
  { clear - S. induction evs as [|x evs IH]; intros l1 a l2 b l3 H.
    - destruct l1; discriminate.
    - apply StronglySorted_inv in S. destruct S as [S1 S2].
      destruct l1 as [|y l1]; simpl in H; inversion H; subst.
      + rewrite Forall_forall in S2. apply S2. apply in_or_app. right. left.
        reflexivity.
      + eapply IH; eauto. }
  split.
  - intros l1 a l2 b l3 H. destruct (P _ _ _ _ _ H) as [L|[L _]]; lia.
  - intros l1 a l2 b l3 H Hp. destruct (P _ _ _ _ _ H) as [L|[_ L]]; [lia|exact L].
Qed.

(** X2.  When a mount hook throws, [handle] goes straight to
    [handleError] with that error: no platform is asked, no state object
    is created, no stage handler and no dismount hook runs and no response
    is written. *)
Theorem failed_mount_ends_the_request
  (server : Server) (m m1 : machine) (e : error) :
  mount (HandleRequest_new (this m) server) m = (m1, Throw e) ->
  handle server m = handleError e None m1
  /\ exists evs,
       trace (fst (handle server m)) = trace m ++ evs
       /\ Forall (fun x => is_mount x \/ is_callback x) evs.
Proof.
  intros Hm.
  assert (Hh : handle server m = handleError e None m1).
  { unfold handle, try_catch, handle_body, bind, get_this. rewrite Hm. reflexivity. }
  split; [exact Hh|]. rewrite Hh.
  destruct (mountPlugins_appends _ _ _ _ _ Hm) as [_ [evs1 [Tr1 F1]]].
  destruct (handleError e None m1) as [m2 r2] eqn:E2.
  destruct (handleError_appends _ _ _ _ _ E2) as [_ [evs2 [Tr2 F2]]].
  exists (evs1 ++ evs2). simpl. rewrite Tr2, Tr1, app_assoc.
  split; [reflexivity|]. apply Forall_app. split.
  - eapply Forall_impl; [|exact F1]. simpl. tauto.
  - eapply Forall_impl; [|exact F2]. simpl. tauto.
Qed.

(** X3.  When the pipeline has run to its end and a dismount hook throws,
    [handle] goes to [handleError] with that error and the response is not
    written, whatever the state object carries. *)
Theorem failed_dismount_drops_the_response
  (server : Server) (m m3 m4 : machine) (hr3 : HandleRequest) (jovo : Jovo)
  (e : error) :
  pipeline server m = (m3, Ok (hr3, jovo)) ->
  dismount hr3 m3 = (m4, Throw e) ->
  handle server m = handleError e None m4
  /\ exists evs,
       trace (fst (handle server m)) = trace m ++ evs
       /\ Forall (fun x => ~ is_write x) evs.
Proof.
  intros Hp Hd.
  assert (Hh : handle server m = handleError e None m4).
  { unfold handle, try_catch. rewrite handle_body_pipeline. unfold bind.
    rewrite Hp. simpl. rewrite Hd. reflexivity. }
  split; [exact Hh|]. rewrite Hh.
  destruct (pipeline_appends _ _ _ _ Hp) as [_ [evs1 [Tr1 F1]]].
  destruct (dismountPlugins_appends _ _ _ _ _ Hd) as [_ [evs2 [Tr2 F2]]].
  destruct (handleError e None m4) as [m5 r5] eqn:E5.
  destruct (handleError_appends _ _ _ _ _ E5) as [_ [evs3 [Tr3 F3]]].
  exists (evs1 ++ evs2 ++ evs3). simpl. rewrite Tr3, Tr2, Tr1, <- !app_assoc.
  split; [reflexivity|]. repeat (apply Forall_app; split).
  - eapply Forall_impl; [|exact F1]. simpl. tauto.
  - eapply Forall_impl; [|exact F2]. intros [] H; simpl in *; tauto.
  - eapply Forall_impl; [|exact F3]. intros [] H; simpl in *; tauto.
Qed.

(** X4.  [initialize] sets up localization before any plugin: when the
    localization setup throws, no plugin is initialized, the error goes to
    [handleError], and the App stays uninitialized. *)
Theorem failed_i18n_skips_the_plugins (m : machine) (e : error) :
  initialized (this m) = false ->
  i18n_initialize (trace m ++ [EvI18nInitialize]) = Throw e ->
  initialize m = handleError e None (logged m [EvI18nInitialize])
  /\ initialized (this (fst (initialize m))) = false
  /\ exists evs,
       trace (fst (initialize m)) = trace m ++ EvI18nInitialize :: evs
       /\ Forall is_callback evs.
Proof.
  intros Hf Hi.
  assert (Hh : initialize m = handleError e None (logged m [EvI18nInitialize])).
  { rewrite (initialize_todo _ Hf).
    unfold try_catch, initialize_body, bind, get_trace, lift.
    rewrite emit_logged. simpl. rewrite Hi. reflexivity. }
  split; [exact Hh|]. rewrite Hh.
  destruct (handleError e None (logged m [EvI18nInitialize])) as [m2 r2] eqn:E2.
  destruct (handleError_appends _ _ _ _ _ E2) as [T [evs [Tr F]]]. simpl.
  split; [rewrite T; exact Hf|].
  exists evs. rewrite Tr. simpl. rewrite <- app_assoc. split; [reflexivity|exact F].
Qed.

Lemma do_call_initialized c m :
  initialized (this m) = true ->
  initialized (this (fst (do_call c m))) = true
  /\ exists evs, trace (fst (do_call c m)) = trace m ++ evs
                 /\ Forall (fun e => ~ is_setup e) evs.
Proof.
  intros Hi. destruct c as [|server|cb]; simpl.
  - rewrite (initialize_done _ Hi). simpl. split; [exact Hi|].
    exists []. rewrite app_nil_r. auto.
  - destruct (handle server m) as [m' r] eqn:E. simpl.
    destruct (handle_appends _ _ _ _ E) as [T _].
    destruct (handle_ranked _ _ _ _ E) as [evs [Tr [_ F]]].
    split; [rewrite T; exact Hi|]. exists evs. split; [exact Tr|].
    eapply ranked_no_setup; eauto.
  - split; [exact Hi|]. exists []. rewrite app_nil_r. auto.
Qed.

(** X5.  Once the App is initialized it stays so: whatever calls of
    [initialize], [handle] and [onError] follow, in any order and whatever
    they throw, the flag is never cleared and neither the localization
    setup nor a plugin's initialization is run again. *)
Theorem initialized_is_final (cs : list call) (m : machine) :
  initialized (this m) = true ->
  initialized (this (do_calls cs m)) = true
  /\ exists evs, trace (do_calls cs m) = trace m ++ evs
                 /\ Forall (fun e => ~ is_setup e) evs.
Proof.
  revert m. induction cs as [|c cs IH]; intros m Hi; simpl.
  - split; [exact Hi|]. exists []. rewrite app_nil_r. auto.
  - destruct (do_call_initialized c m Hi) as [Hi1 [evs1 [Tr1 F1]]].
    destruct (IH _ Hi1) as [Hi2 [evs2 [Tr2 F2]]].
    split; [exact Hi2|]. exists (evs1 ++ evs2).
    unfold do_calls in *. simpl. rewrite Tr2, Tr1, app_assoc.
    split; [reflexivity|]. apply Forall_app. auto.
Qed.

(** X6.  [onError] replaces the callback: after [onError(cb1)] and
    [onError(cb2)], a request whose [try] block throws is reported to
    [cb2] and to [cb2] only, and [handle] returns what [cb2] returns.
    [onError] itself changes nothing else of the App and takes no step. *)
Theorem onError_last_callback_wins
  (cb1 cb2 : nat) (server : Server) (m m3 : machine) (e : error) :
  let m2 := fst (onError cb2 (fst (onError cb1 m))) in
  handle_body server m2 = (m3, Throw e) ->
  plugins (this m2) = plugins (this m)
  /\ middlewareCollection (this m2) = middlewareCollection (this m)
  /\ initialized (this m2) = initialized (this m)
  /\ trace m2 = trace m
  /\ handle server m2
     = (logged m3 [EvErrorCallback cb2 e], call_errorCallback cb2 e None)
  /\ exists evs,
       trace (fst (handle server m2)) = trace m ++ evs ++ [EvErrorCallback cb2 e]
       /\ Forall (fun x => ~ is_callback x) evs.
Proof.
  intros m2 Hb. repeat (split; [reflexivity|]).
  assert (Hh : handle server m2
               = (logged m3 [EvErrorCallback cb2 e], call_errorCallback cb2 e None)).
  { unfold handle, try_catch. rewrite Hb. apply handleError_callback.
    rewrite (handle_body_this _ _ _ _ Hb). reflexivity. }
  split; [exact Hh|]. rewrite Hh. simpl.
  destruct (handle_body_ranked _ _ _ _ Hb) as [evs [Tr [_ F]]].
  exists evs. rewrite Tr. rewrite <- app_assoc. split; [reflexivity|].
  eapply Forall_impl; [|exact F]. intros [] H; simpl in *; try tauto; lia.
Qed.

End Phases.

Lemma handle_steps_follow_the_try_block_witness :
  exists evs,
    trace (fst (handle (B := Demo.steady) Demo.google_request
                  (Demo.start Demo.answering_app))) = evs
    /\ StronglySorted before evs
    /\ List.length evs = 12.
Proof.
  destruct (handle_steps_follow_the_try_block (B := Demo.steady)
              Demo.google_request (Demo.start Demo.answering_app))
    as [evs [Tr [S _]]].
  exists evs. split; [exact Tr|]. split; [exact S|].
  simpl in Tr. rewrite <- Tr. reflexivity.
Defined.

Lemma failed_mount_ends_the_request_witness :
  handle (B := DemoMore.mount_fails) Demo.google_request
    (Demo.start Demo.answering_app)
  = (mkMachine Demo.answering_app
       [EvMount "RouterPlugin"; EvMount "Alexa";
        EvErrorCallback 7 (Thrown (VStr "mount"))],
     Ok tt).
Proof.
  destruct (failed_mount_ends_the_request (B := DemoMore.mount_fails)
              Demo.google_request (Demo.start Demo.answering_app) _ _ eq_refl)
    as [E _].
  rewrite E. reflexivity.
Defined.

Lemma failed_dismount_drops_the_response_witness :
  handle (B := DemoMore.dismount_fails) Demo.google_request
    (Demo.start Demo.answering_app)
  = (mkMachine Demo.answering_app
       [EvMount "RouterPlugin"; EvMount "Alexa"; EvMount "GoogleAssistant";
        EvIsRequestRelated "Alexa" (VStr "GoogleAssistant");
        EvIsRequestRelated "GoogleAssistant" (VStr "GoogleAssistant");
        EvCreateJovoInstance "GoogleAssistant";
        EvRun "request" 0; EvRun "response.output" 1;
        EvDismount "RouterPlugin"; EvDismount "Alexa";
        EvErrorCallback 7 (Thrown (VStr "dismount"))],
     Ok tt).
Proof.
  destruct (failed_dismount_drops_the_response (B := DemoMore.dismount_fails)
              Demo.google_request (Demo.start Demo.answering_app)
              _ _ _ _ _ eq_refl eq_refl) as [E _].
  rewrite E. reflexivity.
Defined.

Lemma failed_i18n_skips_the_plugins_witness :
  initialize (B := Demo.flaky) (Demo.start Demo.silent_app)
  = (mkMachine Demo.silent_app
       [EvI18nInitialize; EvErrorCallback 7 (Thrown (VStr "i18n"))],
     Ok tt)
  /\ plugins Demo.silent_app = Demo.demo_plugins.
Proof.
  destruct (failed_i18n_skips_the_plugins (B := Demo.flaky)
              (Demo.start Demo.silent_app) _ eq_refl eq_refl) as [E _].
  rewrite E. split; reflexivity.
Defined.

Lemma initialized_is_final_witness :
  initialized
    (this (do_calls (B := Demo.steady)
             [CallHandle Demo.google_request; CallInitialize; CallOnError 9;
              CallHandle Demo.unknown_request; CallInitialize]
             (Demo.start (set_initialized Demo.failing_app))))
  = true.
Proof.
  destruct (initialized_is_final (B := Demo.steady)
              [CallHandle Demo.google_request; CallInitialize; CallOnError 9;
               CallHandle Demo.unknown_request; CallInitialize]
              (Demo.start (set_initialized Demo.failing_app)) eq_refl) as [E _].
  exact E.
Defined.

Lemma onError_last_callback_wins_witness :
  handle (B := Demo.steady) Demo.google_request
    (fst (onError 9 (fst (onError 8 (Demo.start Demo.failing_app)))))
  = (mkMachine
       (mkApp Demo.demo_plugins (middlewareCollection Demo.failing_app) false (Some 9))
       [EvMount "RouterPlugin"; EvMount "Alexa"; EvMount "GoogleAssistant";
        EvIsRequestRelated "Alexa" (VStr "GoogleAssistant");
        EvIsRequestRelated "GoogleAssistant" (VStr "GoogleAssistant");
        EvCreateJovoInstance "GoogleAssistant";
        EvRun "request" 3;
        EvErrorCallback 9 (Thrown (VStr "boom"))],
     Ok tt).
Proof.
  destruct (onError_last_callback_wins (B := Demo.steady) 8 9 Demo.google_request
              (Demo.start Demo.failing_app) _ _ eq_refl)
    as [_ [_ [_ [_ [E _]]]]].
  rewrite E. reflexivity.
Defined.

End PipelineMoreTheory.

(* ===================================================================== *)
(** ** More properties of the request constructor, [use] and [configure] *)
(* ===================================================================== *)

Module ObjectsMoreTheory.
Import Lodash Objects LodashTheory ObjectsTheory ObjectsMore.

Lemma lookup_none_notin key ps : lookup key ps = None -> ~ In key (keys ps).
Proof.
  intros H. apply has_false_notin. unfold has. rewrite H. reflexivity.
Qed.

(** What the constructor leaves under a key of the App that holds a class
    instance, a function or a primitive: the clone of that value. *)
Lemma HandleRequest_new_field (a : App) (server : value) (next n' : nat)
  (hr : value) (key : string) (v : value) :
  HandleRequest_new next (app_obj a) server = (n', hr) ->
  lookup key (props_of (app_obj a)) = Some v ->
  is_instance v \/ (exists f, v = VFun f) \/ primitive v ->
  exists m, getv key hr = snd (baseClone m v true).
Proof.
  intros H Hl Hv. revert H.
  unfold HandleRequest_new, Extensible_super, HandleRequest_getDefaultConfig,
    HandleRequest_initializeMiddlewareCollection, MiddlewareCollection_empty,
    ComponentTree_empty.
  destruct (cloneDeep (S next) (getv "config" (app_obj a))) as [n1 cfg] eqn:E1.
  destruct (merge (3 + n1) _ cfg) as [n2 c] eqn:E2.
  destruct (cloneDeep (2 + (2 + S n2)) (app_obj a)) as [n4 copy] eqn:E4.
  intros H.
  destruct (cloneDeep_shared _ _ _ _ E1) as [L1 _].
  destruct (merge_fresh _ _ _ _ _ E2) as [L2 _].
  unfold app_obj in E4. apply cloneDeep_obj_each in E4; [|exact I].
  destruct E4 as [sps [-> E5]]. fold (app_obj a) in E5.
  destruct (cloneEach_lookup _ key _ _ _ _ v baseClone_mono E5) as [m [Lm El]].
  { exact Hl. }
  assert (Hk : NoDup (keys sps)).
  { rewrite (cloneEach_keys _ _ _ _ _ E5). apply (app_obj_nodup a). }
  unfold merge in H. simpl in H.
  assert (Hne : (next =? 2 + (2 + S n2))%nat = false) by (apply Nat.eqb_neq; lia).
  simpl in Hne. rewrite Hne in H.
  destruct (mergeEach _ n4 _ sps) as [n6 ops6] eqn:E6.
  inversion H; subst. clear H.
  destruct (mergeEach_at _ _ _ _ _ _ _ _ E6 Hk El) as [n Hn].
  exists m. simpl getv. rewrite Hn.
  destruct Hv as [Hv|[[f ->]|Hv]].
  - destruct v as [| | | | | |vi [| |cls|tag] vps]; try contradiction.
    simpl. destruct (cloneEach _ (S m) vps) as [m2 vps1]. reflexivity.
  - reflexivity.
  - destruct v; try contradiction; reflexivity.
Qed.

Lemma app_obj_errorCallback a :
  lookup "errorCallback" (props_of (app_obj a))
  = option_map VFun (errorCallback a).
Proof. unfold app_obj. simpl. destruct (errorCallback a); reflexivity. Qed.

Lemma HandleRequest_new_server (a : App) (server : value) (next n' : nat)
  (hr : value) :
  HandleRequest_new next (app_obj a) server = (n', hr) ->
  getv "server" hr = server.
Proof.
  unfold HandleRequest_new, Extensible_super, HandleRequest_getDefaultConfig,
    HandleRequest_initializeMiddlewareCollection, MiddlewareCollection_empty,
    ComponentTree_empty.
  destruct (cloneDeep (S next) (getv "config" (app_obj a))) as [n1 cfg] eqn:E1.
  destruct (merge (3 + n1) _ cfg) as [n2 c] eqn:E2.
  destruct (cloneDeep (2 + (2 + S n2)) (app_obj a)) as [n4 copy] eqn:E4.
  intros H.
  apply cloneDeep_obj in E4; [|exact I]. destruct E4 as [sps [-> Hkeys]].
  unfold merge in H. simpl in H.
  destruct (next =? _)%nat.
  { inversion H; subst. reflexivity. }
  destruct (mergeEach _ _ _ _) as [n6 ops6] eqn:E6 in H.
  inversion H; subst. simpl. unfold get.
  rewrite (mergeEach_other _ "server" _ _ _ _ _ E6).
  - reflexivity.
  - rewrite Hkeys. change (~ In "server" (keys (props_of (app_obj a)))).
    unfold app_obj. simpl.
    destruct (errorCallback a); simpl; intuition discriminate.
Qed.

(** X7.  Besides [config] and [plugins], a new request takes over the
    other fields of the App: its middleware collection, component tree and
    localization object are copies of the App's with the same content (the
    empty collection and the empty tree its own constructor made are
    overwritten).  Every object in them is created by the constructor,
    unless it is an object of an uncloneable sort of the App or held by
    one; functions, as the stage handlers are, are the App's own.  The
    [initialized] flag is copied; the error callback is the App's function
    itself.  The [app] and [server] properties are the constructor's
    arguments, not copies. *)
Theorem request_takes_over_app_fields
  (a : App) (server : value) (next : nat) :
  is_instance (middlewareCollection a) ->
  is_instance (componentTree a) ->
  is_instance (i18n a) ->
  let r := HandleRequest_new next (app_obj a) server in
  let new_or_shared := fun i => between next (fst r) i \/ In i (kept_ids (app_obj a)) in
  erase (request_middlewareCollection (snd r)) = erase (middlewareCollection a)
  /\ erase (getv "componentTree" (snd r)) = erase (componentTree a)
  /\ erase (getv "i18n" (snd r)) = erase (i18n a)
  /\ ids_in new_or_shared (request_middlewareCollection (snd r))
  /\ ids_in new_or_shared (getv "componentTree" (snd r))
  /\ ids_in new_or_shared (getv "i18n" (snd r))
  /\ (cloneable (app_obj a) ->
      ids_in (between next (fst r)) (request_middlewareCollection (snd r))
      /\ ids_in (between next (fst r)) (getv "componentTree" (snd r))
      /\ ids_in (between next (fst r)) (getv "i18n" (snd r)))
  /\ getv "initialized" (snd r) = VBool (initialized a)
  /\ getv "errorCallback" (snd r)
     = match errorCallback a with Some f => VFun f | None => VUndef end
  /\ getv "app" (snd r) = app_obj a
  /\ getv "server" (snd r) = server.
Proof.
  intros Hm Ht Hi r new_or_shared. unfold new_or_shared. clear new_or_shared.
  destruct r as [n' hr] eqn:E. unfold r in E. cbn [fst snd].
  assert (F : forall key v, lookup key (props_of (app_obj a)) = Some v ->
                is_instance v -> erase (getv key hr) = erase v).
  { intros key v Hl Hv.
    destruct (HandleRequest_new_field a server next n' hr key v E Hl) as [m Hg];
      [left; exact Hv|].
    rewrite Hg. destruct (baseClone m v true) as [m' v'] eqn:Ec.
    apply (baseClone_erase _ _ _ _ Ec). }
  destruct (HandleRequest_new_shared _ _ _ _ _ E) as [_ [Fs Happ]].
  split; [apply F; [reflexivity | exact Hm]|].
  split; [apply F; [reflexivity | exact Ht]|].
  split; [apply F; [reflexivity | exact Hi]|].
  split; [apply Fs; simpl; tauto|].
  split; [apply Fs; simpl; tauto|].
  split; [apply Fs; simpl; tauto|].
  split.
  { intros Hc. repeat split; apply (shared_none _ _ _ Hc), Fs; simpl; tauto. }
  split.
  { destruct (HandleRequest_new_field a server next n' hr "initialized"
                (VBool (initialized a)) E) as [m Hg];
      [reflexivity | right; right; exact I | exact Hg]. }
  split.
  { destruct (errorCallback a) as [f|] eqn:Ecb.
    - destruct (HandleRequest_new_field a server next n' hr "errorCallback"
                  (VFun f) E) as [m Hg].
      + rewrite app_obj_errorCallback, Ecb. reflexivity.
      + right; left. eexists. reflexivity.
      + exact Hg.
    - revert E. unfold HandleRequest_new, Extensible_super,
        HandleRequest_getDefaultConfig,
        HandleRequest_initializeMiddlewareCollection, MiddlewareCollection_empty,
        ComponentTree_empty.
      destruct (cloneDeep (S next) (getv "config" (app_obj a))) as [n1 cfg] eqn:E1.
      destruct (merge (3 + n1) _ cfg) as [n2 c] eqn:E2.
      destruct (cloneDeep (2 + (2 + S n2)) (app_obj a)) as [n4 copy] eqn:E4.
      intros H.
      apply cloneDeep_obj in E4; [|exact I]. destruct E4 as [sps [-> Hkeys]].
      unfold merge in H. simpl in H.
      destruct (next =? _)%nat.
      { inversion H; subst. reflexivity. }
      destruct (mergeEach _ _ _ _) as [n6 ops6] eqn:E6 in H.
      inversion H; subst. simpl. unfold get.
      rewrite (mergeEach_other _ "errorCallback" _ _ _ _ _ E6).
      + reflexivity.
      + rewrite Hkeys. change (~ In "errorCallback" (keys (props_of (app_obj a)))).
        unfold app_obj. rewrite Ecb. simpl. intuition discriminate. }
  split; [exact Happ|].
  apply (HandleRequest_new_server a server next n' hr E).
Qed.

Section PlatformsTheory.
Variable extendsPlatform : string -> bool.

Lemma instanceofPlatform_erase v :
  instanceofPlatform extendsPlatform (erase v) = instanceofPlatform extendsPlatform v.
Proof. destruct v as [| | | | | |i [| |cls|tag] ps]; reflexivity. Qed.

Lemma platforms_erase registry :
  platforms extendsPlatform (erase registry)
  = map erase (platforms extendsPlatform registry).
Proof.
  unfold platforms. destruct registry as [| | | | | |i k ps]; try reflexivity.
  simpl. unfold elems. induction ps as [|[key v] ps IH]; simpl; [reflexivity|].
  rewrite instanceofPlatform_erase.
  destruct (instanceofPlatform extendsPlatform v); simpl; rewrite IH; reflexivity.
Qed.

(** X8.  The platforms of a request are the platforms of the App it was
    built from: as many, of the same classes, in the same order
    (registration order), with the same content.  Each is a copy: its
    objects are created by the constructor, unless they are objects of an
    uncloneable sort of the App or held by one. *)
Theorem request_platforms_are_the_apps
  (a : App) (server : value) (next : nat) (pid : nat) (pps : props) :
  plugins a = VObj pid KPlain pps ->
  NoDup (keys pps) ->
  Forall (fun kv => is_instance (snd kv)) pps ->
  let r := HandleRequest_new next (app_obj a) server in
  map erase (platforms extendsPlatform (request_plugins (snd r)))
  = map erase (platforms extendsPlatform (plugins a))
  /\ map class_of (platforms extendsPlatform (request_plugins (snd r)))
     = map class_of (platforms extendsPlatform (plugins a))
  /\ Forall (ids_in (fun i => between next (fst r) i
                              \/ In i (kept_ids (app_obj a))))
       (platforms extendsPlatform (request_plugins (snd r)))
  /\ (cloneable (app_obj a) ->
      Forall (ids_in (between next (fst r)))
        (platforms extendsPlatform (request_plugins (snd r)))).
Proof.
  intros Hp Hnd Hinst r. destruct r as [n' hr] eqn:E. unfold r in E. cbn [fst snd].
  pose proof (HandleRequest_new_registry a server next n' hr pid pps Hp Hnd Hinst E)
    as Her.
  assert (Hmap : map erase (platforms extendsPlatform (request_plugins hr))
                 = map erase (platforms extendsPlatform (plugins a))).
  { rewrite <- !platforms_erase. rewrite Her. reflexivity. }
  assert (Hall : forall P : nat -> Prop,
             ids_in P (request_plugins hr) ->
             Forall (ids_in P) (platforms extendsPlatform (request_plugins hr))).
  { intros P Fp. unfold platforms. apply Forall_forall. intros x Hx.
    apply filter_In in Hx. destruct Hx as [Hx _].
    destruct (request_plugins hr) as [| | | | | |i k ps]; simpl in Hx;
      try contradiction.
    apply ids_in_obj in Fp. destruct Fp as [_ Fp].
    unfold elems in Hx. apply in_map_iff in Hx. destruct Hx as [[key v] [<- Hin]].
    unfold props_in in Fp. rewrite Forall_forall in Fp. apply (Fp _ Hin). }
  destruct (HandleRequest_new_shared _ _ _ _ _ E) as [_ [Fs _]].
  split; [exact Hmap|]. split; [|split].
  - assert (C : forall l, map class_of l = map class_of (map erase l)).
    { induction l as [|x l IH]; simpl; [reflexivity|]. rewrite IH. f_equal.
      destruct x as [| | | | | |i [| |cls|tag] ps]; reflexivity. }
    rewrite C, Hmap, <- C. reflexivity.
  - apply Hall. apply Fs. simpl. tauto.
  - intros Hc. apply Hall. apply (shared_none _ _ _ Hc). apply Fs. simpl. tauto.
Qed.

End PlatformsTheory.

(** X9.  The request's own defaults fill the gaps of the App's config:
    when the App's config has no [intentMap], the request's config holds
    an empty object there, and likewise for [logging]; they are new
    objects of this request. *)
Theorem request_config_has_request_defaults
  (a : App) (server : value) (next : nat) (ci : nat) (cps : props) (key : string) :
  config a = VObj ci KPlain cps ->
  key = "intentMap" \/ key = "logging" ->
  lookup key cps = None ->
  let r := HandleRequest_new next (app_obj a) server in
  exists i, getv key (request_config (snd r)) = VObj i KPlain []
            /\ between next (fst r) i.
Proof.
  intros Hc Hkey Hno r. destruct r as [n' hr] eqn:E. unfold r in E. cbn [fst snd].
  pose proof (lookup_none_notin _ _ Hno) as Hnotin.
  revert E.
  unfold HandleRequest_new, Extensible_super, HandleRequest_getDefaultConfig,
    HandleRequest_initializeMiddlewareCollection, MiddlewareCollection_empty,
    ComponentTree_empty.
  change (getv "config" (app_obj a)) with (config a). rewrite Hc.
  destruct (cloneDeep (S next) (VObj ci KPlain cps)) as [n1 cfg] eqn:E1.
  destruct (merge (3 + n1) _ cfg) as [n2 c] eqn:E2.
  destruct (cloneDeep (2 + (2 + S n2)) (app_obj a)) as [n4 copy] eqn:E4.
  intros H.
  destruct (cloneDeep_shared _ _ _ _ E1) as [L1 F1].
  destruct (merge_fresh _ _ _ _ _ E2) as [L2 _].
  destruct (cloneDeep_shared _ _ _ _ E4) as [L4 _].
  destruct (merge_fresh _ _ _ _ _ H) as [L5 _].
  (* the config built by the super constructor *)
  pose proof (cloneDeep_merged (S next) (VObj ci KPlain cps) _ _ I E1) as Fm.
  apply cloneDeep_obj in E1; [|exact I]. destruct E1 as [cps1 [-> K1]].
  simpl in Fm. apply Forall_inv in Fm. unfold between in Fm.
  unfold merge in E2. simpl in E2.
  assert (N1 : (n1 =? S next)%nat = false) by (apply Nat.eqb_neq; lia).
  rewrite N1 in E2.
  destruct (mergeEach _ (S (S (S n1))) _ cps1) as [n2' ops2] eqn:M2.
  inversion E2; subst n2' c. clear E2.
  assert (D2 : lookup key ops2
               = Some (VObj (match key with "intentMap" => 1 | _ => 2 end + n1)
                         KPlain [])).
  { rewrite (mergeEach_other _ key _ _ _ _ _ M2); [|rewrite K1; exact Hnotin].
    destruct Hkey as [-> | ->]; reflexivity. }
  (* the merge of the cloned App *)
  unfold app_obj in E4. apply cloneDeep_obj_each in E4; [|exact I].
  destruct E4 as [sps [-> E5]]. fold (app_obj a) in E5.
  destruct (cloneEach_lookup _ "config" _ _ _ _ (config a) baseClone_mono E5)
    as [m [Lm El]]; [reflexivity|].
  rewrite Hc in El.
  destruct (baseClone m (VObj ci KPlain cps) true) as [m' c1] eqn:Ec.
  simpl in Ec.
  destruct (cloneEach (fun n sub => baseClone n sub true) (S m) cps)
    as [m2 cps2] eqn:Ep.
  inversion Ec; subst m' c1. clear Ec. simpl in El.
  assert (Hk : NoDup (keys sps)).
  { rewrite (cloneEach_keys _ _ _ _ _ E5). apply (app_obj_nodup a). }
  unfold merge in H. simpl in H.
  assert (Hne : (next =? 2 + (2 + S n2))%nat = false) by (apply Nat.eqb_neq; lia).
  simpl in Hne. rewrite Hne in H.
  destruct (mergeEach _ n4 _ sps) as [n6 ops6] eqn:E6.
  inversion H; subst. clear H.
  destruct (mergeEach_at _ _ _ _ _ _ _ _ E6 Hk El) as [n Hn].
  unfold request_config. simpl getv at 2. rewrite Hn.
  simpl get. simpl.
  assert (Hnm : (n1 =? m)%nat = false) by (apply Nat.eqb_neq; lia).
  rewrite Hnm.
  destruct (mergeEach _ n ops2 cps2) as [n7 ops7] eqn:M7. simpl.
  unfold get. rewrite (mergeEach_other _ key _ _ _ _ _ M7).
  - rewrite D2. eexists. split; [reflexivity|].
    unfold between. destruct Hkey as [-> | ->]; simpl; lia.
  - rewrite (cloneEach_keys _ _ _ _ _ Ep). exact Hnotin.
Qed.


(** X17.  A request owns its middleware collection, component tree and
    localization object: every object in them, unless it is an object of
    an uncloneable sort taken over from the App or held by one, is no
    object of the App and no object of a request built later.  So
    clearing the stages of one request, as [stopMiddlewareExecution] does,
    or any other change made to such an object through the request,
    leaves the App and the later requests as they are; for an App that
    holds no object of an uncloneable sort this is every object of the
    three. *)
Theorem request_owns_its_collections
  (a : App) (server server' : value) (next : nat) :
  ids_in (fun i => i < next) (app_obj a) ->
  let r1 := HandleRequest_new next (app_obj a) server in
  let r2 := HandleRequest_new (fst r1) (app_obj a) server' in
  forall l f,
    In l (ids (request_middlewareCollection (snd r1)))
    \/ In l (ids (getv "componentTree" (snd r1)))
    \/ In l (ids (getv "i18n" (snd r1))) ->
    cloneable (app_obj a) \/ ~ In l (kept_ids (app_obj a)) ->
    poke l f (app_obj a) = app_obj a
    /\ poke l f (request_middlewareCollection (snd r2))
       = request_middlewareCollection (snd r2)
    /\ poke l f (getv "componentTree" (snd r2)) = getv "componentTree" (snd r2)
    /\ poke l f (getv "i18n" (snd r2)) = getv "i18n" (snd r2)
    /\ poke l f (request_config (snd r2)) = request_config (snd r2)
    /\ poke l f (request_plugins (snd r2)) = request_plugins (snd r2).
Proof.
  intros Ha r1 r2 l f Hl Hn.
  assert (Hn' : ~ In l (kept_ids (app_obj a))).
  { destruct Hn as [Hc|Hn]; [|exact Hn]. rewrite Hc. simpl. tauto. }
  clear Hn.
  destruct r1 as [n1 R1] eqn:E1. unfold r1 in E1.
  destruct r2 as [n2 R2] eqn:E2. unfold r2 in E2. cbn [fst snd] in *.
  destruct (HandleRequest_new_shared _ _ _ _ _ E1) as [L1 [F1 _]].
  destruct (HandleRequest_new_shared _ _ _ _ _ E2) as [L2 [F2 _]].
  assert (B : between next n1 l).
  { assert (G : forall key,
               In key ["config"; "plugins"; "middlewareCollection"; "componentTree";
                       "i18n"] ->
               In l (ids (getv key R1)) -> between next n1 l).
    { intros key Hk Hin. specialize (F1 key Hk).
      unfold ids_in in F1. rewrite Forall_forall in F1.
      destruct (F1 l Hin); [assumption | contradiction]. }
    destruct Hl as [Hl|[Hl|Hl]]; eapply G; try exact Hl; simpl; tauto. }
  unfold between in B.
  assert (Out : forall key,
             In key ["config"; "plugins"; "middlewareCollection"; "componentTree";
                     "i18n"] ->
             ~ In l (ids (getv key R2))).
  { intros key Hk Hin. specialize (F2 key Hk).
    unfold ids_in in F2. rewrite Forall_forall in F2.
    destruct (F2 l Hin) as [Hb|Hs]; [unfold between in Hb; lia | contradiction]. }
  split; [|split; [|split; [|split; [|split]]]]; apply poke_absent.
  - apply (ids_in_absent (fun i => i < next)); [exact Ha | lia].
  - apply (Out "middlewareCollection"). simpl. tauto.
  - apply (Out "componentTree"). simpl. tauto.
  - apply (Out "i18n"). simpl. tauto.
  - apply (Out "config"). simpl. tauto.
  - apply (Out "plugins"). simpl. tauto.
Qed.

(* --------------------------------------------------------------------- *)
(** *** [use] and [configure] *)

Lemma mergeEach_keys rec sps : forall next ops n' ops',
  mergeEach rec next ops sps = (n', ops') ->
  exists extra, keys ops' = keys ops ++ extra /\ incl extra (keys sps).
Proof.
  induction sps as [|[key srcValue] sps IH]; intros next ops n' ops' H; simpl in H.
  - inversion H; subst. exists []. rewrite app_nil_r. split; [reflexivity|].
    intros x Hx. exact Hx.
  - destruct (if isObject srcValue then _ else _) as [n1 newValue] in H.
    destruct (IH _ _ _ _ H) as [extra [K I]].
    assert (A : exists e1, keys (assignMergeValue ops key newValue) = keys ops ++ e1
                           /\ incl e1 [key]).
    { unfold assignMergeValue.
      destruct newValue; try (rewrite keys_set; destruct (has key ops);
        [exists []; rewrite app_nil_r; split; [reflexivity | intros x []]
        |exists [key]; split; [reflexivity | intros x Hx; exact Hx]]).
      destruct (has key ops) eqn:Hh.
      - exists []. rewrite app_nil_r. split; [reflexivity | intros x []].
      - rewrite keys_set, Hh. exists [key]. split; [reflexivity|].
        intros x Hx; exact Hx. }
    destruct A as [e1 [K1 I1]].
    exists (e1 ++ extra). rewrite K, K1, app_assoc. split; [reflexivity|].
    intros x Hx. apply in_app_or in Hx. destruct Hx as [Hx|Hx].
    + apply I1 in Hx. destruct Hx as [<-|[]]. left. reflexivity.
    + right. apply I. exact Hx.
Qed.

Lemma merge_keys next i k ps s n' d' :
  merge next (VObj i k ps) s = (n', d') ->
  exists ps' extra,
    d' = VObj i k ps' /\ keys ps' = keys ps ++ extra
    /\ incl extra (keys (props_of s)).
Proof.
  assert (Same : exists ps' extra,
            VObj i k ps = VObj i k ps' /\ keys ps' = keys ps ++ extra
            /\ incl extra (keys (props_of s))).
  { exists ps, []. rewrite app_nil_r. split; [reflexivity|].
    split; [reflexivity|]. intros x Hx. destruct Hx. }
  unfold merge. destruct s as [| | | | | |si sk sps]; simpl;
    try (intros H; inversion H; subst; exact Same).
  destruct (i =? si)%nat.
  - intros H; inversion H; subst. exact Same.
  - destruct (mergeEach _ next ps sps) as [n1 ops1] eqn:E. intros H.
    inversion H; subst. destruct (mergeEach_keys _ _ _ _ _ _ E) as [extra [K I]].
    exists ops1, extra. split; [reflexivity|]. split; assumption.
Qed.

Lemma keys_configure_source next cfg key :
  In key (keys (props_of (configure_source next cfg))) ->
  In key (keys (props_of cfg)) \/ key = "components" \/ key = "plugins".
Proof.
  rewrite configure_source_shape. simpl. rewrite !keys_set.
  destruct (has "plugins" _); destruct (has "components" _); intros H;
    repeat (apply in_app_or in H; destruct H as [H|H]); auto;
    destruct H as [<-|[]]; auto.
Qed.

(** **** Merging the same source again *)

Lemma baseMerge_distinct next oi ok ops si sk sps :
  oi <> si ->
  baseMerge next (VObj oi ok ops) (VObj si sk sps)
  = (fst (mergeEach (fun n o s => baseMerge n o s) next ops sps),
     VObj oi ok (snd (mergeEach (fun n o s => baseMerge n o s) next ops sps))).
Proof.
  intros H. simpl. apply Nat.eqb_neq in H. rewrite H.
  destruct (mergeEach _ next ops sps). reflexivity.
Qed.

Lemma set_same key v ps : lookup key ps = Some v -> set key v ps = ps.
Proof.
  induction ps as [|[k w] ps IH]; simpl; [discriminate|].
  destruct (String.eqb k key) eqn:E.
  - intros H. inversion H; subst. reflexivity.
  - intros H. rewrite IH; auto.
Qed.

Lemma has_lookup key ps : has key ps = true -> lookup key ps = Some (get key ps).
Proof. unfold has, get. destruct (lookup key ps); [reflexivity | discriminate]. Qed.

Lemma has_set key key' v ps : has key ps = true -> has key (set key' v ps) = true.
Proof.
  unfold has. destruct (String.eqb key' key) eqn:E.
  - apply String.eqb_eq in E. subst. rewrite lookup_set_eq. reflexivity.
  - apply String.eqb_neq in E. rewrite lookup_set_ne; auto.
Qed.

Lemma has_assign key key' v ps :
  has key ps = true -> has key (assignMergeValue ps key' v) = true.
Proof.
  intros H. unfold assignMergeValue.
  destruct v; try (apply has_set; exact H).
  destruct (has key' ps); [exact H | apply has_set; exact H].
Qed.

Lemma has_assign_eq key v ps : has key (assignMergeValue ps key v) = true.
Proof.
  unfold assignMergeValue.
  destruct v; try (unfold has; rewrite lookup_set_eq; reflexivity).
  destruct (has key ps) eqn:E; [exact E|].
  unfold has; rewrite lookup_set_eq; reflexivity.
Qed.

Lemma mergeEach_has_old rec sps : forall next ops n' ops' key,
  mergeEach rec next ops sps = (n', ops') ->
  has key ops = true -> has key ops' = true.
Proof.
  induction sps as [|[k sv] sps IH]; intros next ops n' ops' key H Hh; simpl in H.
  - inversion H; subst. exact Hh.
  - destruct (if isObject sv then _ else _) as [n1 nv] in H.
    eapply IH; [exact H|]. apply has_assign, Hh.
Qed.

Lemma mergeEach_has rec sps : forall next ops n' ops' key,
  mergeEach rec next ops sps = (n', ops') ->
  In key (keys sps) -> has key ops' = true.
Proof.
  induction sps as [|[k sv] sps IH]; intros next ops n' ops' key H Hin; simpl in H.
  - destruct Hin.
  - destruct (if isObject sv then _ else _) as [n1 nv] in H.
    destruct (string_dec k key) as [->|Hne].
    + eapply mergeEach_has_old; [exact H|]. apply has_assign_eq.
    + destruct Hin as [E|Hin]; [contradiction|]. eapply IH; eauto.
Qed.

Lemma In_lookup key v ps : NoDup (keys ps) -> In (key, v) ps -> lookup key ps = Some v.
Proof.
  induction ps as [|[k w] ps IH]; simpl; intros Hnd Hin; [destruct Hin|].
  inversion Hnd; subst.
  destruct Hin as [E|Hin].
  - inversion E; subst. rewrite String.eqb_refl. reflexivity.
  - destruct (String.eqb k key) eqn:E.
    + apply String.eqb_eq in E. subst. exfalso. apply H1.
      apply (in_map fst) in Hin. exact Hin.
    + apply IH; auto.
Qed.


(** One key of the loop, as [mergeEach] runs it. *)
Lemma mergeEach_cons rec key srcValue rest next ops :
  mergeEach rec next ops ((key, srcValue) :: rest)
  = mergeEach rec
      (fst (if isObject srcValue
            then baseMergeDeep rec next (get key ops) srcValue
            else (next, srcValue)))
      (assignMergeValue ops key
         (snd (if isObject srcValue
               then baseMergeDeep rec next (get key ops) srcValue
               else (next, srcValue))))
      rest.
Proof.
  simpl. destruct (if isObject srcValue then _ else _) as [n1 nv]. reflexivity.
Qed.

Lemma assign_same key v ps :
  has key ps = true ->
  match v with VUndef => True | _ => get key ps = v end ->
  assignMergeValue ps key v = ps.
Proof.
  intros Hh Hv. unfold assignMergeValue.
  destruct v; try (apply set_same; rewrite (has_lookup _ _ Hh), Hv; reflexivity).
  rewrite Hh. reflexivity.
Qed.

Lemma step_again key srcValue ops n ops1 :
  again srcValue ->
  unique_keys srcValue ->
  has key ops1 = true ->
  get key ops1
  = match snd (if isObject srcValue
               then baseMergeDeep (fun n o s => baseMerge n o s) n (get key ops) srcValue
               else (n, srcValue)) with
    | VUndef => get key ops
    | newValue => newValue
    end ->
  forall n2,
    (if isObject srcValue
     then baseMergeDeep (fun n o s => baseMerge n o s) n2 (get key ops1) srcValue
     else (n2, srcValue))
    = (n2, match srcValue with VUndef => VUndef | _ => get key ops1 end).
Proof.
  intros IH Hu Hh Hg n2.
  destruct srcValue as [| | | | | |si [| |cls|tag] sps];
    try (simpl in *; rewrite Hg; reflexivity); try reflexivity.
  - (* plain object *)
    cbn [isObject] in *. unfold baseMergeDeep in *.
    set (tgt := match get key ops with
                | VObj _ _ _ => (n, get key ops)
                | _ => (S n, VObj n KPlain [])
                end) in *.
    assert (Ht : exists ti tk tps, snd tgt = VObj ti tk tps).
    { unfold tgt. destruct (get key ops); simpl; eauto. }
    destruct Ht as [ti [tk [tps Ht]]].
    destruct tgt as [n0 target]. simpl in Ht. subst target.
    cbv beta iota in Hg.
    destruct (baseMerge_keeps_object n0 ti tk tps (VObj si KPlain sps)) as [ps' Hk].
    destruct (baseMerge n0 (VObj ti tk tps) (VObj si KPlain sps)) as [n1 R] eqn:E.
    cbn [snd] in Hk, Hg. subst R. rewrite Hg. cbv beta iota.
    apply (IH _ _ _ _ Hu E).
  - (* array *)
    cbn [isObject] in *. unfold baseMergeDeep in *.
    set (tgt := if isArray (get key ops) then (n, get key ops)
                else match arrayLikeLength (get key ops) with
                     | Some len => (S n, copyArray n (get key ops) len)
                     | None => (S n, VObj n KArray [])
                     end) in *.
    assert (Ht : exists ti tps, snd tgt = VObj ti KArray tps).
    { unfold tgt. destruct (get key ops) as [| | | | | |gi [| |gc|gt] gps]; simpl;
        try (eexists _, _; reflexivity);
        destruct (lookup "length" gps) as [[| | |z| | |]|]; simpl;
        try (eexists _, _; reflexivity);
        destruct (0 <=? z)%Z; eexists _, _; reflexivity. }
    destruct Ht as [ti [tps Ht]].
    destruct tgt as [n0 target]. simpl in Ht. subst target.
    cbv beta iota in Hg.
    destruct (baseMerge_keeps_object n0 ti KArray tps (VObj si KArray sps)) as [ps' Hk].
    destruct (baseMerge n0 (VObj ti KArray tps) (VObj si KArray sps)) as [n1 R] eqn:E.
    cbn [snd] in Hk, Hg. subst R. rewrite Hg. cbn [isArray]. cbv beta iota.
    apply (IH _ _ _ _ Hu E).
Qed.


Lemma mergeEach_fixed ops1 : forall sps n2,
  (forall key srcValue, In (key, srcValue) sps ->
     has key ops1 = true
     /\ forall n2,
          (if isObject srcValue
           then baseMergeDeep (fun n o s => baseMerge n o s) n2 (get key ops1) srcValue
           else (n2, srcValue))
          = (n2, match srcValue with VUndef => VUndef | _ => get key ops1 end)) ->
  mergeEach (fun n o s => baseMerge n o s) n2 ops1 sps = (n2, ops1).
Proof.
  induction sps as [|[key srcValue] sps IH]; intros n2 H; [reflexivity|].
  rewrite mergeEach_cons.
  destruct (H key srcValue (or_introl eq_refl)) as [Hh Hs].
  rewrite Hs. cbn [fst snd].
  rewrite assign_same.
  - apply IH. intros k sv Hin. apply H. right. exact Hin.
  - exact Hh.
  - destruct srcValue; auto; destruct (get key ops1); auto.
Qed.

Lemma mergeEach_again sps :
  Forall (fun kv => again (snd kv)) sps ->
  NoDup (keys sps) ->
  Forall (fun kv => unique_keys (snd kv)) sps ->
  forall next ops n1 ops1,
    mergeEach (fun n o s => baseMerge n o s) next ops sps = (n1, ops1) ->
    forall n2, mergeEach (fun n o s => baseMerge n o s) n2 ops1 sps = (n2, ops1).
Proof.
  intros IH Hnd Hu next ops n1 ops1 E n2.
  apply mergeEach_fixed. intros key srcValue Hin.
  assert (Hh : has key ops1 = true).
  { eapply mergeEach_has; [exact E|]. apply (in_map fst) in Hin. exact Hin. }
  split; [exact Hh|].
  destruct (mergeEach_at _ _ _ _ _ _ _ _ E Hnd (In_lookup _ _ _ Hnd Hin)) as [n Hn].
  rewrite Forall_forall in IH, Hu.
  apply (step_again key srcValue ops n ops1 (IH _ Hin) (Hu _ Hin) Hh Hn).
Qed.

Lemma baseMerge_again s : again s.
Proof.
  induction s as [| | | | | |si sk sps IH] using value_ind';
    try (intros next d n1 d1 _ H n2; destruct d; simpl in *; inversion H; subst;
         reflexivity).
  intros next d n1 d1 Hu H n2.
  destruct d as [| | | | | |oi ok ops];
    try (simpl in *; inversion H; subst; reflexivity).
  apply unique_keys_obj in Hu. destruct Hu as [Hnd Hu].
  simpl in H. simpl. destruct (oi =? si)%nat eqn:Eq.
  - inversion H; subst. simpl. rewrite Eq. reflexivity.
  - destruct (mergeEach _ next ops sps) as [n' ops'] eqn:E.
    inversion H; subst. simpl. rewrite Eq.
    rewrite (mergeEach_again sps IH Hnd Hu _ _ _ _ E n2). reflexivity.
Qed.

Section UseTheory.
Variable test_env : bool.
Variable extendsPlugin : string -> bool.
Variable ComponentTree_add : value -> list value -> value.

Local Abbreviation configure := (configure test_env extendsPlugin ComponentTree_add).
Local Abbreviation use := (use test_env extendsPlugin ComponentTree_add).
Local Abbreviation instanceofPlugin := (instanceofPlugin extendsPlugin).

Lemma use_frame a usables :
  app_id (use a usables) = app_id a
  /\ config (use a usables) = config a
  /\ middlewareCollection (use a usables) = middlewareCollection a
  /\ initialized (use a usables) = initialized a
  /\ i18n (use a usables) = i18n a
  /\ errorCallback (use a usables) = errorCallback a.
Proof.
  unfold Objects.use.
  destruct (0 <? List.length _)%nat; destruct (0 <? List.length _)%nat;
    repeat split; reflexivity.
Qed.

Lemma filter_none {A} (f : A -> bool) l :
  Forall (fun x => f x = false) l -> filter f l = [].
Proof.
  induction 1 as [|x l Hx _ IH]; simpl; [reflexivity|]. rewrite Hx. exact IH.
Qed.

Lemma registered_none usables :
  Forall (fun u => instanceofPlugin u = false) usables ->
  filter
    (fun usable =>
       if negb (instanceofPlugin usable) then false
       else if test_env && truthy (getv "skipTests" (getv "config" usable))
       then false
       else true)
    usables = [].
Proof.
  intros H. apply filter_none. eapply Forall_impl; [|exact H].
  simpl. intros u ->. reflexivity.
Qed.

Lemma components_none usables :
  Forall (fun u => instanceofPlugin u = true) usables ->
  filter (fun usable => negb (instanceofPlugin usable)) usables = [].
Proof.
  intros H. apply filter_none. eapply Forall_impl; [|exact H].
  simpl. intros u ->. reflexivity.
Qed.

Lemma components_all usables :
  Forall (fun u => instanceofPlugin u = false) usables ->
  filter (fun usable => negb (instanceofPlugin usable)) usables = usables.
Proof.
  induction 1 as [|u l Hu _ IH]; simpl; [reflexivity|].
  rewrite Hu. simpl. rewrite IH. reflexivity.
Qed.

(** X12.  [configure] keeps the config object: the same object, of the
    same sort, with every key it had; a key it has afterwards and had not
    before is a key of the supplied object, or [components] or
    [plugins]. *)
Theorem configure_keeps_the_config_object
  (next : nat) (a : App) (cfg : value) (i : nat) (k : kind) (ps : props) :
  config a = VObj i k ps ->
  exists ps',
    config (snd (configure next a cfg)) = VObj i k ps'
    /\ (forall key, In key (keys ps) -> In key (keys ps'))
    /\ (forall key, In key (keys ps') ->
         In key (keys ps)
         \/ In key (keys (props_of cfg)) \/ key = "components" \/ key = "plugins").
Proof.
  intros Hc. rewrite configure_config, Hc.
  destruct (merge (S next) (VObj i k ps) (configure_source next cfg)) as [n' d'] eqn:E.
  destruct (merge_keys _ _ _ _ _ _ _ E) as [ps' [extra [-> [K I]]]].
  exists ps'. simpl. split; [reflexivity|]. rewrite K. split.
  - intros key Hk. apply in_or_app. left. exact Hk.
  - intros key Hk. apply in_app_or in Hk. destruct Hk as [Hk|Hk]; [left; exact Hk|].
    right. apply (keys_configure_source next). apply I. exact Hk.
Qed.

(** X16.  [configure] called again with the same object changes nothing in
    the config: what the first call merged is merged onto itself, and no
    object is created besides the literal [configure] builds. *)
Theorem configure_again_changes_nothing
  (next next2 : nat) (a : App) (cfg : value) :
  unique_keys cfg ->
  ids_in (fun i => i < next) (config a) ->
  next <= next2 ->
  let a1 := snd (configure next a cfg) in
  config (snd (configure next2 a1 cfg)) = config a1
  /\ fst (configure next2 a1 cfg) = S next2.
Proof.
  intros Hu Hlt Hle a1. unfold a1.
  rewrite configure_config, configure_next, configure_config.
  rewrite !configure_source_shape.
  pose proof (configure_source_unique next cfg Hu) as Hs.
  rewrite configure_source_shape in Hs. apply unique_keys_obj in Hs.
  destruct Hs as [Hnd Hs].
  set (sps := set "plugins" VUndef (set "components" VUndef (props_of cfg))) in *.
  destruct (config a) as [| | | | | |i k ps]; try (split; reflexivity).
  apply ids_in_obj in Hlt. destruct Hlt as [Hi _].
  unfold merge. rewrite (baseMerge_distinct (S next)) by lia. cbn [snd].
  rewrite (baseMerge_distinct (S next2)) by lia. cbn [fst snd].
  destruct (mergeEach _ (S next) ps sps) as [n1 ops1] eqn:E. cbn [snd].
  rewrite (mergeEach_again sps) with (next := S next) (ops := ps) (n1 := n1).
  - split; reflexivity.
  - apply Forall_forall. intros kv _. apply baseMerge_again.
  - exact Hnd.
  - exact Hs.
  - exact E.
Qed.

End UseTheory.

Section SuperTheory.
Variable test_env : bool.
Variable extendsPlugin : string -> bool.
Variable super_use : nat -> App -> list value -> nat * App * completion.
Variable ComponentTree_add : nat -> value -> list value -> nat * value * completion.

Local Abbreviation App_use :=
  (App_use test_env extendsPlugin super_use ComponentTree_add).
Local Abbreviation App_configure :=
  (App_configure test_env extendsPlugin super_use ComponentTree_add).
Local Abbreviation instanceofPlugin := (instanceofPlugin extendsPlugin).

(** The two filters of [use]. *)
Lemma registered_eq usables :
  filter
    (fun usable =>
       if negb (instanceofPlugin usable) then false
       else if test_env && truthy (getv "skipTests" (getv "config" usable))
       then false
       else true)
    usables
  = filter
      (fun u => instanceofPlugin u
                && negb (test_env && truthy (getv "skipTests" (getv "config" u))))
      usables.
Proof.
  apply filter_ext. intros u.
  destruct (instanceofPlugin u); [|reflexivity].
  destruct (test_env && _); reflexivity.
Qed.

Lemma registered_all usables :
  Forall (fun u =>
            instanceofPlugin u = true
            /\ test_env && truthy (getv "skipTests" (getv "config" u)) = false)
         usables ->
  filter
    (fun usable =>
       if negb (instanceofPlugin usable) then false
       else if test_env && truthy (getv "skipTests" (getv "config" usable))
       then false
       else true)
    usables = usables.
Proof.
  induction 1 as [|u l [Hu Hs] _ IH]; simpl; [reflexivity|].
  rewrite Hu, Hs. simpl. rewrite IH. reflexivity.
Qed.

Lemma positive_length {A} (l : list A) :
  l <> [] -> (0 <? List.length l)%nat = true.
Proof. destruct l; [contradiction | reflexivity]. Qed.

Lemma App_use_no_plugin next a usables :
  Forall (fun u => instanceofPlugin u = false) usables ->
  usables <> [] ->
  App_use next a usables
  = (let '(n, tree, c) := ComponentTree_add next (componentTree a) usables in
     (n, set_componentTree tree a, c)).
Proof.
  intros H Hne. unfold ObjectsMore.App_use.
  rewrite (registered_none test_env extendsPlugin _ H).
  rewrite (components_all extendsPlugin _ H).
  rewrite (positive_length _ Hne). reflexivity.
Qed.

Lemma App_use_plugins_only next a usables :
  Forall (fun u =>
            instanceofPlugin u = true
            /\ test_env && truthy (getv "skipTests" (getv "config" u)) = false)
         usables ->
  usables <> [] ->
  App_use next a usables = super_use next a usables.
Proof.
  intros H Hne. unfold ObjectsMore.App_use.
  rewrite (registered_all _ H), (positive_length _ Hne).
  rewrite (components_none extendsPlugin).
  - destruct (super_use next a usables) as [[n1 a1] [|]]; reflexivity.
  - eapply Forall_impl; [|exact H]. simpl. tauto.
Qed.

(** X11.  [use] hands the plugins to [Extensible.use] and the other
    usables to [ComponentTree.add], whatever these two do.  Given
    nothing, it changes nothing.  Given no plugin, it does not call
    [Extensible.use]: the usables are handed to [ComponentTree.add]
    together, in the order given, and of the App only the component tree
    changes.  Given plugins only, none of them skipped, it does not call
    [ComponentTree.add]: the App is as [Extensible.use] leaves it.  Given
    both, in any order, [Extensible.use] is called first, with the
    plugins; when it throws, nothing is added to the tree; when it
    returns, the components are added to the tree of the App as
    [Extensible.use] left it. *)
Theorem use_dispatches_usables (next : nat) (a : App) (usables : list value) :
  App_use next a [] = (next, a, Returned)
  /\ (Forall (fun u => instanceofPlugin u = false) usables ->
      usables <> [] ->
      App_use next a usables
      = (let '(n, tree, c) := ComponentTree_add next (componentTree a) usables in
         (n, set_componentTree tree a, c)))
  /\ (Forall (fun u =>
                instanceofPlugin u = true
                /\ test_env && truthy (getv "skipTests" (getv "config" u)) = false)
             usables ->
      usables <> [] ->
      App_use next a usables = super_use next a usables)
  /\ (let ps :=
        filter
          (fun u => instanceofPlugin u
                    && negb (test_env && truthy (getv "skipTests" (getv "config" u))))
          usables in
      let cs := filter (fun u => negb (instanceofPlugin u)) usables in
      ps <> [] ->
      cs <> [] ->
      App_use next a usables
      = match super_use next a ps with
        | (n1, a1, Threw) => (n1, a1, Threw)
        | (n1, a1, Returned) =>
            let '(n2, tree, c) := ComponentTree_add n1 (componentTree a1) cs in
            (n2, set_componentTree tree a1, c)
        end).
Proof.
  split; [reflexivity|]. split; [apply App_use_no_plugin|].
  split; [apply App_use_plugins_only|].
  intros ps cs Hps Hcs. unfold ObjectsMore.App_use.
  rewrite registered_eq. fold ps. fold cs.
  rewrite (positive_length _ Hps), (positive_length _ Hcs).
  destruct (super_use next a ps) as [[n1 a1] [|]]; reflexivity.
Qed.

(** X13.  [configure] merges into the config first and then calls [use]
    with the plugins and the components of the supplied object, whatever
    [Extensible.use] and [ComponentTree.add] do.  When the supplied
    object carries neither plugins nor components (the entries are
    absent, [undefined], [null] or empty arrays), neither is called and
    of the App only the config changes.  When it carries components and
    no plugin, [Extensible.use] is not called and of the App only the
    config and the component tree change. *)
Theorem configure_merges_then_uses (next : nat) (a : App) (cfg : value) :
  let m := merge (S next) (config a) (configure_source next cfg) in
  let usables :=
    spread_or_empty (getv "plugins" cfg) ++ spread_or_empty (getv "components" cfg) in
  (spread_or_empty (getv "plugins" cfg) = [] ->
   spread_or_empty (getv "components" cfg) = [] ->
   App_configure next a cfg = (fst m, set_config (snd m) a, Returned))
  /\ (Forall (fun u => instanceofPlugin u = false) usables ->
      usables <> [] ->
      App_configure next a cfg
      = (let '(n, tree, c) := ComponentTree_add (fst m) (componentTree a) usables in
         (n, set_componentTree tree (set_config (snd m) a), c)))
  /\ App_configure next a cfg = App_use (fst m) (set_config (snd m) a) usables.
Proof.
  intros m usables. unfold m, usables, ObjectsMore.App_configure, configure_source.
  destruct (merge (S next) (config a) _) as [n1 c]. cbn [fst snd].
  split; [|split].
  - intros -> ->. reflexivity.
  - intros H Hne. rewrite (App_use_no_plugin _ _ _ H Hne). reflexivity.
  - reflexivity.
Qed.

End SuperTheory.

Section SkipTests.
Variable extendsPlugin : string -> bool.
Variable super_use : nat -> App -> list value -> nat * App * completion.
Variable ComponentTree_add : nat -> value -> list value -> nat * value * completion.

Local Abbreviation App_use :=
  (fun test_env => App_use test_env extendsPlugin super_use ComponentTree_add).
Local Abbreviation instanceofPlugin := (instanceofPlugin extendsPlugin).
Local Abbreviation flagged := (flagged extendsPlugin).

Lemma filter_twice {A} (f g : A -> bool) l :
  filter f (filter g l) = filter (fun x => g x && f x) l.
Proof.
  induction l as [|x l IH]; [reflexivity|]. simpl.
  destruct (g x); simpl; [destruct (f x)|]; rewrite IH; reflexivity.
Qed.

Lemma registered_unflagged usables :
  filter
    (fun usable =>
       if negb (instanceofPlugin usable) then false
       else if true && truthy (getv "skipTests" (getv "config" usable))
       then false
       else true)
    usables
  = filter
      (fun usable =>
         if negb (instanceofPlugin usable) then false
         else if false && truthy (getv "skipTests" (getv "config" usable))
         then false
         else true)
      (filter (fun u => negb (flagged u)) usables).
Proof.
  rewrite filter_twice. apply filter_ext. intros u. unfold ObjectsMore.flagged.
  destruct (instanceofPlugin u);
    destruct (truthy (getv "skipTests" (getv "config" u))); reflexivity.
Qed.

Lemma components_unflagged usables :
  filter (fun usable => negb (instanceofPlugin usable)) usables
  = filter (fun usable => negb (instanceofPlugin usable))
      (filter (fun u => negb (flagged u)) usables).
Proof.
  rewrite filter_twice. apply filter_ext. intros u. unfold ObjectsMore.flagged.
  destruct (instanceofPlugin u);
    destruct (truthy (getv "skipTests" (getv "config" u))); reflexivity.
Qed.

Lemma unflagged_none usables :
  Forall (fun u => flagged u = true) usables ->
  filter (fun u => negb (flagged u)) usables = [].
Proof.
  intros H. apply filter_none. eapply Forall_impl; [|exact H].
  simpl. intros u ->. reflexivity.
Qed.

(** X10.  Under a test runner, [use] drops the plugins whose config says
    [skipTests], one by one: it does what it does outside a test runner
    when given the usables without these plugins, whatever
    [Extensible.use] and [ComponentTree.add] do.  A dropped plugin is not
    taken for a component either: given only such plugins, [use] calls
    neither and leaves the App as it is.  Outside a test runner the flag
    has no effect: given plugins only, flagged or not, all of them are
    handed to [Extensible.use], in the order given. *)
Theorem use_skips_flagged_plugins_under_test
  (next : nat) (a : App) (usables : list value) :
  App_use true next a usables
  = App_use false next a (filter (fun u => negb (flagged u)) usables)
  /\ (Forall (fun u => flagged u = true) usables ->
      App_use true next a usables = (next, a, Returned))
  /\ (Forall (fun u => instanceofPlugin u = true) usables ->
      usables <> [] ->
      App_use false next a usables = super_use next a usables).
Proof.
  assert (E : App_use true next a usables
              = App_use false next a (filter (fun u => negb (flagged u)) usables)).
  { unfold ObjectsMore.App_use.
    rewrite <- registered_unflagged, <- components_unflagged. reflexivity. }
  split; [exact E|]. split.
  - intros H. rewrite E, (unflagged_none _ H). reflexivity.
  - intros H Hne. apply App_use_plugins_only; [|exact Hne].
    eapply Forall_impl; [|exact H]. simpl. intros u ->. split; reflexivity.
Qed.

End SkipTests.

Section UseAgrees.
Variable test_env : bool.
Variable extendsPlugin : string -> bool.
Variable ComponentTree_add : value -> list value -> value.

(** [Objects.use] and [Objects.configure] are [App_use] and
    [App_configure] with the registry of [Objects.Extensible_use] and a
    [ComponentTree.add] that returns. *)
Lemma use_is_App_use next a usables :
  App_use test_env extendsPlugin registry_use (returning_add ComponentTree_add)
    next a usables
  = (next, use test_env extendsPlugin ComponentTree_add a usables, Returned).
Proof.
  unfold ObjectsMore.App_use, Objects.use, registry_use, returning_add.
  destruct (0 <? List.length (filter _ usables))%nat;
    destruct (0 <? List.length (filter _ usables))%nat; reflexivity.
Qed.

Lemma configure_is_App_configure next a cfg :
  App_configure test_env extendsPlugin registry_use (returning_add ComponentTree_add)
    next a cfg
  = (fst (configure test_env extendsPlugin ComponentTree_add next a cfg),
     snd (configure test_env extendsPlugin ComponentTree_add next a cfg),
     Returned).
Proof.
  unfold ObjectsMore.App_configure, Objects.configure.
  destruct (merge (S next) (config a) _) as [n1 c].
  rewrite use_is_App_use. reflexivity.
Qed.

End UseAgrees.


(* --------------------------------------------------------------------- *)
(** *** The App constructor *)

Section ConstructTheory.
Variable test_env : bool.
Variable extendsPlugin : string -> bool.
Variable ComponentTree_add : value -> list value -> value.
Variable Plugin_new : string -> nat -> value -> nat * value.
Variable ComponentTree_new : nat -> list value -> nat * value.
Variable I18Next_new : nat -> value -> nat * value.
Variable MiddlewareCollection_new : nat -> list string -> nat * value.

Local Abbreviation use := (Objects.use test_env extendsPlugin ComponentTree_add).
Local Abbreviation App_super := (App_super MiddlewareCollection_new).
Local Abbreviation App_new :=
  (App_new test_env extendsPlugin ComponentTree_add Plugin_new ComponentTree_new
     I18Next_new MiddlewareCollection_new).
Local Abbreviation plugin_classes :=
  (plugin_classes test_env extendsPlugin Plugin_new).

Lemma App_super_eq next this cfg :
  App_super next this cfg
  = (fst (MiddlewareCollection_new
            (S (fst (merge (S next) (VObj next KPlain [("logging", VBool true)]) cfg)))
            Pipeline.APP_MIDDLEWARES),
     mkApp this
       (snd (merge (S next) (VObj next KPlain [("logging", VBool true)]) cfg))
       (VObj (fst (merge (S next) (VObj next KPlain [("logging", VBool true)]) cfg))
          KPlain [])
       (snd (MiddlewareCollection_new
               (S (fst (merge (S next) (VObj next KPlain [("logging", VBool true)]) cfg)))
               Pipeline.APP_MIDDLEWARES))
       false VUndef VUndef None).
Proof.
  unfold ObjectsMore.App_super, App_getDefaultConfig,
    App_initializeMiddlewareCollection.
  destruct (merge _ _ cfg) as [n2 c]. simpl.
  destruct (MiddlewareCollection_new _ _) as [n3 mc]. reflexivity.
Qed.

Lemma super_config_logging next config n d :
  init_config config ->
  (truthy config = true -> d <> S next) ->
  let c := snd (merge n (VObj d KPlain [("logging", VBool true)])
                  (super_arg next config)) in
  (wants_logging (getv "logging" c) = logging_on (getv "logging" config)
   /\ (getv "logging" c = VNull -> getv "logging" config = VNull))
  /\ getv "components" c = VUndef.
Proof.
  intros [->|[i [ps [-> [Hnd Hnp]]]]] Hd;
    [split; [split; [reflexivity | intros H; discriminate H] | reflexivity]|].
  specialize (Hd eq_refl).
  unfold super_arg. simpl truthy. cbv iota. simpl setv.
  unfold merge. rewrite baseMerge_distinct by lia.
  destruct (mergeEach _ n [("logging", VBool true)] (set "components" VUndef ps))
    as [n1 ops1] eqn:E.
  cbn [fst snd getv].
  assert (Hk : NoDup (keys (set "components" VUndef ps))) by (apply NoDup_keys_set, Hnd).
  split.
  - destruct (lookup "logging" ps) as [v|] eqn:Hl.
    + assert (Hl' : lookup "logging" (set "components" VUndef ps) = Some v).
      { rewrite lookup_set_ne; [exact Hl | discriminate]. }
      destruct (mergeEach_at _ _ _ _ _ _ _ _ E Hk Hl') as [m Hm].
      assert (G : get "logging" ps = v) by (unfold get; rewrite Hl; reflexivity).
      rewrite G, Hm. change (get "logging" [("logging", VBool true)]) with (VBool true).
      destruct v as [| |[]| | | |vi [| |cls|tag] vps];
        try (split; [reflexivity | intros H; first [exact H | discriminate H]]).
      * simpl isObject. cbv iota. unfold baseMergeDeep.
        simpl get. cbv iota.
        destruct (baseMerge_keeps_object (S m) m KPlain [] (VObj vi KPlain vps))
          as [ps' ->]. split; [reflexivity | intros H; discriminate H].
      * simpl isObject. cbv iota. unfold baseMergeDeep.
        simpl get. simpl isArray. cbv iota. simpl arrayLikeLength. cbv iota.
        destruct (baseMerge_keeps_object (S m) m KArray [] (VObj vi KArray vps))
          as [ps' ->]. split; [reflexivity | intros H; discriminate H].
    + assert (Hl' : ~ In "logging" (keys (set "components" VUndef ps))).
      { apply lookup_none_notin. rewrite lookup_set_ne; [exact Hl | discriminate]. }
      assert (G : get "logging" ps = VUndef) by (unfold get; rewrite Hl; reflexivity).
      rewrite G. unfold get. rewrite (mergeEach_other _ _ _ _ _ _ _ E Hl').
      split; [reflexivity | intros H; discriminate H].
  - destruct (mergeEach_at _ _ _ _ _ _ _ _ E Hk (lookup_set_eq _ _ _)) as [m Hm].
    rewrite Hm. reflexivity.
Qed.

Lemma set_plugins_same (a : App) : set_plugins (plugins a) a = a.
Proof. destruct a; reflexivity. Qed.

Lemma use_plugins a us :
  Forall (fun u =>
            instanceofPlugin extendsPlugin u = true
            /\ test_env && truthy (getv "skipTests" (getv "config" u)) = false) us ->
  use a us = set_plugins (Extensible_use (plugins a) us) a.
Proof.
  intros H. unfold Objects.use.
  assert (F1 : filter
                 (fun usable =>
                    if negb (instanceofPlugin extendsPlugin usable) then false
                    else if test_env && truthy (getv "skipTests" (getv "config" usable))
                    then false else true) us = us).
  { induction H as [|u l [Hu Hs] _ IH]; simpl; [reflexivity|].
    rewrite Hu, Hs. simpl. rewrite IH. reflexivity. }
  assert (F2 : filter (fun usable => negb (instanceofPlugin extendsPlugin usable)) us = []).
  { apply filter_none. eapply Forall_impl; [|exact H]. simpl. intros u [-> _].
    reflexivity. }
  rewrite F1, F2. simpl. destruct us; simpl.
  - symmetry. apply set_plugins_same.
  - reflexivity.
Qed.

Lemma made_plugin cls n c :
  plugin_classes ->
  c <> VNull ->
  In cls ["BasicLogging"; "RouterPlugin"; "HandlerPlugin"; "OutputPlugin"] ->
  (exists i ps, snd (Plugin_new cls n c) = VObj i (KInst cls) ps)
  /\ instanceofPlugin extendsPlugin (snd (Plugin_new cls n c)) = true
  /\ test_env
     && truthy (getv "skipTests" (getv "config" (snd (Plugin_new cls n c)))) = false.
Proof.
  intros [Hi [He Hs]] Hc Hin. destruct (Hi cls n c Hc) as [i [ps E]].
  split; [eauto|]. split; [|apply Hs, Hc].
  rewrite E. simpl. apply He, Hin.
Qed.

(** The registry the constructor leaves, when the logging plugin is not
    made from [null]. *)
Lemma App_new_plugins next config :
  plugin_classes ->
  getv "logging"
    (snd (merge (S (if truthy config then 2 + next else S next))
            (VObj (if truthy config then 2 + next else S next) KPlain
               [("logging", VBool true)])
            (super_arg next config))) <> VNull ->
  exists r ps,
    plugins (snd (App_new next config)) = VObj r KPlain ps
    /\ keys ps
       = (if wants_logging
               (getv "logging"
                  (snd (merge (S (if truthy config then 2 + next else S next))
                          (VObj (if truthy config then 2 + next else S next) KPlain
                             [("logging", VBool true)])
                          (super_arg next config))))
          then ["BasicLogging"] else [])
         ++ ["RouterPlugin"; "HandlerPlugin"; "OutputPlugin"]
    /\ Forall (fun kv => exists i q, snd kv = VObj i (KInst (fst kv)) q) ps.
Proof.
  intros HP. unfold ObjectsMore.App_new, super_arg.
  destruct (truthy config); rewrite App_super_eq;
    match goal with
    | |- context [merge ?n ?d ?s] => set (mg := merge n d s)
    end;
    match goal with
    | |- context [MiddlewareCollection_new ?n ?l] =>
        set (mcn := MiddlewareCollection_new n l)
    end;
    cbn [Objects.config]; unfold wants_logging;
    set (l := getv "logging" (snd mg));
    intros Hl;
    destruct (String.eqb (js_typeof l) "boolean" && truthy l);
    [ | destruct (String.eqb (js_typeof l) "object") | | destruct (String.eqb (js_typeof l) "object") ];
    repeat match goal with
           | |- context [let '(_, _) := Plugin_new ?cls ?n ?c in _] =>
               let E := fresh "E" in
               assert (E := made_plugin cls n c HP ltac:(first [exact Hl | discriminate]));
               destruct (Plugin_new cls n c)
           | |- context [let '(_, _) := ComponentTree_new ?n ?c in _] =>
               destruct (ComponentTree_new n c)
           | |- context [let '(_, _) := I18Next_new ?n ?c in _] =>
               destruct (I18Next_new n c)
           | |- context [let '(_, _) := (if ?b then _ else _) in _] => destruct b
           end;
    repeat match goal with
           | E : In ?cls _ -> _ |- _ =>
               let H := fresh in
               assert (H : In cls ["BasicLogging"; "RouterPlugin"; "HandlerPlugin";
                                   "OutputPlugin"]) by (simpl; tauto);
               destruct (E H) as [[? [? ?]] [? ?]]; clear E H
           end;
    cbn [snd] in *; subst;
    cbn [snd plugins set_i18n set_componentTree];
    rewrite !use_plugins by (repeat constructor; assumption);
    simpl;
    (eexists _, _; split; [reflexivity|]; split; [reflexivity|];
     repeat constructor; simpl; eauto).
Qed.

(** What the constructor leaves besides the registry. *)
Lemma App_new_state next config :
  let a := snd (App_new next config) in
  app_id a = next
  /\ Objects.config a
     = snd (merge (S (if truthy config then 2 + next else S next))
              (VObj (if truthy config then 2 + next else S next) KPlain
                 [("logging", VBool true)])
              (super_arg next config))
  /\ initialized a = false
  /\ errorCallback a = None
  /\ (exists n,
        componentTree a
        = snd (ComponentTree_new n (spread_or_empty (getv "components" config)))).
Proof.
  unfold ObjectsMore.App_new, super_arg.
  destruct (truthy config); rewrite App_super_eq;
    match goal with
    | |- context [merge ?n ?d ?s] => set (mg := merge n d s)
    end;
    match goal with
    | |- context [MiddlewareCollection_new ?n ?l] =>
        set (mcn := MiddlewareCollection_new n l)
    end;
    cbn [Objects.config];
    set (l := getv "logging" (snd mg));
    destruct (String.eqb (js_typeof l) "boolean" && truthy l);
    [ | destruct (String.eqb (js_typeof l) "object") | | destruct (String.eqb (js_typeof l) "object") ];
    repeat match goal with
           | |- context [let '(_, _) := Plugin_new ?cls ?n ?c in _] =>
               destruct (Plugin_new cls n c)
           | |- context [let '(_, _) := ComponentTree_new ?n ?c in _] =>
               let E := fresh "E" in destruct (ComponentTree_new n c) eqn:E
           | |- context [let '(_, _) := I18Next_new ?n ?c in _] =>
               destruct (I18Next_new n c)
           | |- context [let '(_, _) := (if ?b then _ else _) in _] => destruct b
           end;
    cbn [snd app_id Objects.config initialized errorCallback componentTree
         set_i18n set_componentTree];
    repeat match goal with
           | |- context [Objects.use ?t ?e ?c ?a ?us] =>
               let F := fresh "F" in
               pose proof (use_frame t e c a us) as F;
               destruct F as [-> [-> [_ [-> [_ ->]]]]]
           end;
    (repeat split; try reflexivity;
     eexists; match goal with E : ComponentTree_new _ _ = _ |- _ => rewrite E end;
     reflexivity).
Qed.


Lemma super_arg_unique next cfg : unique_keys cfg -> unique_keys (super_arg next cfg).
Proof.
  intros H. unfold super_arg. destruct (truthy cfg); [|exact H].
  destruct cfg as [| | | | | |i k ps]; simpl setv;
    try (apply unique_keys_obj; split; repeat constructor; simpl; tauto).
  apply unique_keys_obj in H. destruct H as [Hn Hf].
  apply unique_keys_obj. split.
  - apply NoDup_keys_set, Hn.
  - apply Forall_set; [exact Hf | exact I].
Qed.

Lemma super_arg_in (P : nat -> Prop) next cfg :
  P (S next) -> ids_in P cfg -> ids_in P (super_arg next cfg).
Proof.
  intros Hn H. unfold super_arg. destruct (truthy cfg); [|exact H].
  apply setv_in; [|constructor].
  destruct cfg as [| | | | | |i k ps]; simpl spread;
    try (apply ids_in_obj; split; [exact Hn | constructor]).
  apply ids_in_obj in H. apply ids_in_obj. tauto.
Qed.



End ConstructTheory.

(* --------------------------------------------------------------------- *)
(** *** On concrete objects *)

Lemma request_takes_over_app_fields_witness :
  getv "errorCallback"
    (snd (HandleRequest_new 20 (app_obj Demo.demoApp) Demo.demoServer)) = VFun 7
  /\ erase (getv "i18n"
              (snd (HandleRequest_new 20 (app_obj Demo.demoApp) Demo.demoServer)))
     = VObj 0 (KInst "I18Next") [].
Proof.
  destruct (request_takes_over_app_fields Demo.demoApp Demo.demoServer 20 I I I)
    as [_ [_ [Hi [_ [_ [_ [_ [_ [He _]]]]]]]]].
  split; [exact He | exact Hi].
Defined.

Lemma request_owns_its_collections_witness :
  In 9 (ids (middlewareCollection Demo.demoApp))
  /\ forall l f,
       In l (ids (request_middlewareCollection
                    (snd (HandleRequest_new 20 (app_obj Demo.demoApp)
                            Demo.demoServer)))) ->
       poke l f (app_obj Demo.demoApp) = app_obj Demo.demoApp.
Proof.
  split; [simpl; tauto|].
  intros l f Hl.
  assert (Ha : ids_in (fun i => i < 20) (app_obj Demo.demoApp)).
  { unfold ids_in. simpl. repeat constructor. }
  destruct (request_owns_its_collections Demo.demoApp Demo.demoServer
              Demo.demoServer 20 Ha l f (or_introl Hl) (or_introl eq_refl)) as [H _].
  exact H.
Defined.

Lemma request_platforms_are_the_apps_witness :
  map class_of
    (platforms DemoObjects.isPlatformClass
       (request_plugins
          (snd (HandleRequest_new 20 (app_obj DemoObjects.platformApp)
                  Demo.demoServer))))
  = ["Alexa"].
Proof.
  assert (Hnd : NoDup (keys [("RouterPlugin", VObj 3 (KInst "RouterPlugin") []);
                             ("Alexa",
                              VObj 4 (KInst "Alexa") [("config", VObj 5 KPlain [])])])).
  { repeat constructor; simpl; intuition discriminate. }
  destruct (request_platforms_are_the_apps DemoObjects.isPlatformClass
              DemoObjects.platformApp Demo.demoServer 20 2 _ eq_refl Hnd)
    as [_ [H _]].
  - repeat constructor.
  - exact H.
Defined.

Lemma request_config_has_request_defaults_witness :
  exists i,
    getv "intentMap"
      (request_config
         (snd (HandleRequest_new 20 (app_obj Demo.demoApp) Demo.demoServer)))
    = VObj i KPlain [].
Proof.
  destruct (request_config_has_request_defaults Demo.demoApp Demo.demoServer 20 1 _
              "intentMap" eq_refl (or_introl eq_refl) eq_refl) as [i [H _]].
  exists i. exact H.
Defined.

Lemma use_skips_flagged_plugins_under_test_witness :
  DemoObjects.demo_App_use true 50 DemoObjects.platformApp [DemoObjects.quietLogging]
  = (50, DemoObjects.platformApp, Returned)
  /\ keys (props_of
             (plugins
                (snd (fst (DemoObjects.demo_App_use false 50 DemoObjects.platformApp
                             [DemoObjects.quietLogging])))))
     = ["RouterPlugin"; "Alexa"; "BasicLogging"].
Proof.
  destruct (use_skips_flagged_plugins_under_test DemoObjects.isPluginClass
              DemoObjects.one_at_a_time (returning_add DemoObjects.recordTree)
              50 DemoObjects.platformApp [DemoObjects.quietLogging]) as [_ [H1 H2]].
  split.
  - apply H1. repeat constructor.
  - unfold DemoObjects.demo_App_use. rewrite H2.
    + reflexivity.
    + repeat constructor.
    + discriminate.
Defined.

Lemma use_dispatches_usables_witness :
  DemoObjects.demo_App_use true 50 DemoObjects.platformApp [DemoObjects.aComponent]
  = (50,
     set_componentTree
       (VObj 7 (KInst "ComponentTree") [("added", arr 90 [DemoObjects.aComponent])])
       DemoObjects.platformApp,
     Returned)
  /\ DemoObjects.demo_App_use false 50 DemoObjects.platformApp
       [DemoObjects.aRouter; DemoObjects.aComponent; DemoObjects.quietLogging]
     = (50, DemoObjects.platformApp, Threw)
  /\ componentTree
       (snd (fst (DemoObjects.demo_App_use true 50 DemoObjects.platformApp
                    [DemoObjects.aComponent; DemoObjects.aRouter;
                     DemoObjects.quietLogging])))
     = VObj 7 (KInst "ComponentTree") [("added", arr 90 [DemoObjects.aComponent])].
Proof.
  split; [|split].
  - destruct (use_dispatches_usables true DemoObjects.isPluginClass
                DemoObjects.one_at_a_time (returning_add DemoObjects.recordTree)
                50 DemoObjects.platformApp [DemoObjects.aComponent]) as [_ [H _]].
    unfold DemoObjects.demo_App_use. rewrite H.
    + reflexivity.
    + repeat constructor.
    + discriminate.
  - destruct (use_dispatches_usables false DemoObjects.isPluginClass
                DemoObjects.one_at_a_time (returning_add DemoObjects.recordTree)
                50 DemoObjects.platformApp
                [DemoObjects.aRouter; DemoObjects.aComponent; DemoObjects.quietLogging])
      as [_ [_ [_ H]]].
    unfold DemoObjects.demo_App_use. rewrite H.
    + reflexivity.
    + discriminate.
    + discriminate.
  - destruct (use_dispatches_usables true DemoObjects.isPluginClass
                DemoObjects.one_at_a_time (returning_add DemoObjects.recordTree)
                50 DemoObjects.platformApp
                [DemoObjects.aComponent; DemoObjects.aRouter; DemoObjects.quietLogging])
      as [_ [_ [_ H]]].
    unfold DemoObjects.demo_App_use. rewrite H.
    + reflexivity.
    + discriminate.
    + discriminate.
Defined.

Lemma configure_keeps_the_config_object_witness :
  exists ps',
    config (snd (Demo.demo_configure 23 Demo.demoApp Demo.demoPartial))
    = VObj 1 KPlain ps'
    /\ In "logging" (keys ps') /\ In "routing" (keys ps').
Proof.
  destruct (configure_keeps_the_config_object false Demo.noPlugin Demo.keepTree 23
              Demo.demoApp Demo.demoPartial 1 KPlain _ eq_refl)
    as [ps' [E [K _]]].
  exists ps'. split; [exact E|]. split; apply K; simpl; tauto.
Defined.

Lemma configure_merges_then_uses_witness :
  (plugins (snd (fst (DemoObjects.demo_App_configure 23 Demo.demoApp Demo.demoPartial)))
   = plugins Demo.demoApp
   /\ componentTree
        (snd (fst (DemoObjects.demo_App_configure 23 Demo.demoApp Demo.demoPartial)))
      = componentTree Demo.demoApp
   /\ snd (DemoObjects.demo_App_configure 23 Demo.demoApp Demo.demoPartial) = Returned)
  /\ componentTree
       (snd (fst (DemoObjects.demo_App_configure 23 Demo.demoApp
                    DemoObjects.quietConfig)))
     = setv "added" (arr 90 [DemoObjects.aComponent]) (componentTree Demo.demoApp).
Proof.
  split.
  - destruct (configure_merges_then_uses false DemoObjects.isPluginClass
                DemoObjects.one_at_a_time (returning_add DemoObjects.recordTree)
                23 Demo.demoApp Demo.demoPartial) as [H _].
    unfold DemoObjects.demo_App_configure. rewrite H by reflexivity.
    repeat split.
  - destruct (configure_merges_then_uses false DemoObjects.isPluginClass
                DemoObjects.one_at_a_time (returning_add DemoObjects.recordTree)
                23 Demo.demoApp DemoObjects.quietConfig) as [_ [H _]].
    unfold DemoObjects.demo_App_configure. rewrite H.
    + reflexivity.
    + repeat constructor.
    + discriminate.
Defined.

Lemma configure_again_changes_nothing_witness :
  config
    (snd (Demo.demo_configure 40
            (snd (Demo.demo_configure 23 Demo.demoApp Demo.demoPartial))
            Demo.demoPartial))
  = config (snd (Demo.demo_configure 23 Demo.demoApp Demo.demoPartial)).
Proof.
  assert (Hu : unique_keys Demo.demoPartial).
  { simpl. repeat split; repeat constructor; simpl; intuition discriminate. }
  assert (Hlt : ids_in (fun i => i < 23) (config Demo.demoApp)).
  { unfold ids_in. simpl. repeat constructor. }
  assert (Hle : 23 <= 40) by lia.
  destruct (configure_again_changes_nothing false Demo.noPlugin Demo.keepTree 23 40
              Demo.demoApp Demo.demoPartial Hu Hlt Hle) as [H _].
  exact H.
Defined.

Lemma demo_plugin_classes :
  plugin_classes false DemoObjects.isPluginClass DemoObjects.demo_Plugin_new.
Proof.
  split; [|split].
  - intros cls n c _. eexists _, _. reflexivity.
  - intros cls H. simpl in H.
    destruct H as [<-|[<-|[<-|[<-|[]]]]]; reflexivity.
  - reflexivity.
Defined.

Lemma demo_init_config : init_config DemoObjects.quietConfig.
Proof.
  right. eexists _, _. split; [reflexivity|]. split; [|reflexivity].
  repeat constructor; simpl; intuition discriminate.
Defined.



End ObjectsMoreTheory.
